(** * A SPARQL client: response model, term materialization, repository
      client and lookup helpers

    Shallow embedding of the Go package [sparql] (files [repo.go] and
    [sparql.go]) and the properties of its specification.

    Conventions.
    - A Go [string] and a Go [[]byte] are both a [string] of this file: a
      sequence of bytes.
    - A Go [map[string]T] is a [gmap string T].  Indexing a Go map at a
      missing key yields the zero value of [T]; this is the total lookup
      [m !!! k], for which every value type below gets its zero value as
      [Inhabited] instance.  The two-result form [v, ok := m[k]] is the
      partial lookup [m !! k].
    - A Go slice is a [list]; the nil slice and the empty slice are both
      [[]] (the code only takes [len], ranges and appends).
    - A Go function returning [(T, error)] returns a [result T], except
      where the code hands back a meaningful value together with the error
      ([ParseJSON], [NewRepo]): these return a pair with an [option error]. *)

From Stdlib Require Import ZArith NArith Ascii String List Lia.
From stdpp Require Import base option list gmap strings pretty.

Local Open Scope Z_scope.
Set Warnings "-register-all".

(** ** Errors and results *)

(** The [error] values the package can hand to its callers.  [Error_text]
    (below, after [Sprintf]) gives the message of the first two. *)
Inductive error : Type :=
  | errorString (msg : string)                       (* errors.New(msg) *)
  | fmtError (format : string) (args : list string)  (* fmt.Errorf(format, args...) *)
  | EOF                                              (* io.EOF *)
  | ErrUnexpectedEOF                                 (* io.ErrUnexpectedEOF *)
  | SyntaxError                                      (* *json.SyntaxError *)
  | UnmarshalTypeError (Value : string).             (* *json.UnmarshalTypeError *)

Inductive result (A : Type) : Type :=
  | Ok (a : A)
  | Err (e : error).
Arguments Ok {A} a.
Arguments Err {A} e.

Definition is_Ok {A} (r : result A) : bool :=
  match r with Ok _ => true | Err _ => false end.

Definition result_map {A B} (f : A -> B) (r : result A) : result B :=
  match r with Ok a => Ok (f a) | Err e => Err e end.

(** The value of a successful result, nothing for a failed one: what a
    caller that tests [err == nil] gets to use. *)
Definition ok_value {A} (r : result A) : option A :=
  match r with Ok a => Some a | Err _ => None end.

(** ** The RDF term package

    [termFromJSON] builds its terms with four constructors of the external
    package [github.com/knakk/rdf].  The package is an interface here; the
    properties that do not depend on what the constructors accept are
    proved for every implementation of it. *)
Class RdfPackage : Type := {
  IRI : Type;
  Blank : Type;
  Literal : Type;
  (* the zero value [rdf.IRI{}] *)
  IRI_zero : IRI;
  (* func NewIRI(iri string) (IRI, error) *)
  NewIRI : string -> result IRI;
  (* func NewBlank(id string) (Blank, error) *)
  NewBlank : string -> result Blank;
  (* func NewLangLiteral(v, lang string) (Literal, error) *)
  NewLangLiteral : string -> string -> result Literal;
  (* func NewTypedLiteral(v string, dt IRI) Literal *)
  NewTypedLiteral : string -> IRI -> Literal
}.

(** [rdf.Term] is the interface implemented by [IRI], [Blank] and
    [Literal]. *)
Inductive Term `{RdfPackage} : Type :=
  | TermIRI (i : IRI)
  | TermBlank (b : Blank)
  | TermLiteral (l : Literal).

(** ** Response model (repo.go) *)

Record header : Type := {
  Link : list string;
  Vars : list string
}.

Record Binding : Type := {
  Type_ : string;      (* Type: "uri", "literal", "typed-literal" or "bnode" *)
  Value : string;
  Lang : string;       (* `json:"xml:lang"` *)
  DataType : string
}.

(** The zero value [Binding{}], read from a row that does not bind the
    variable. *)
Definition Binding_zero : Binding :=
  {| Type_ := ""; Value := ""; Lang := ""; DataType := "" |}.

#[global] Instance Binding_inhabited : Inhabited Binding := populate Binding_zero.

Record results : Type := {
  Distinct : bool;
  Ordered : bool;
  results_Bindings : list (gmap string Binding)    (* field Bindings, the solution rows *)
}.

Record Results : Type := {
  Head : header;
  Results_results : results      (* field Results *)
}.

Definition Results_zero : Results :=
  {| Head := {| Link := []; Vars := [] |};
     Results_results :=
       {| Distinct := false; Ordered := false; results_Bindings := [] |} |}.

(** The rows of a result, [r.Results.Bindings]. *)
Definition rows (r : Results) : list (gmap string Binding) := results_Bindings (Results_results r).

Definition xsd_string_iri : string := "http://www.w3.org/2001/XMLSchema#string".

Section Materialization.
Context `{RdfPackage}.

(** sparql.go: [var xsdString rdf.IRI], set by [init] with the error of
    [rdf.NewIRI] dropped. *)
Definition xsdString : IRI :=
  match NewIRI xsd_string_iri with
  | Ok iri => iri
  | Err _ => IRI_zero
  end.

(** [termFromJSON] converts a SPARQL json result binding into a term. *)
Definition termFromJSON (b : Binding) : result Term :=
  if decide (Type_ b = "bnode") then
    result_map TermBlank (NewBlank (Value b))
  else if decide (Type_ b = "uri") then
    result_map TermIRI (NewIRI (Value b))
  else if decide (Type_ b = "literal") then
    if decide (Lang b ≠ "") then
      result_map TermLiteral (NewLangLiteral (Value b) (Lang b))
    else
      Ok (TermLiteral (NewTypedLiteral (Value b) xsdString))
  else if decide (Type_ b = "typed-literal") then
    match NewIRI (DataType b) with
    | Err err => Err err
    | Ok iri => Ok (TermLiteral (NewTypedLiteral (Value b) iri))
    end
  else
    Err (errorString "unknown term type").

(** The body of the inner loop of [Bindings]:
    [t, err := termFromJSON(b[v]); if err == nil { rb[v] = append(rb[v], t) }]. *)
Definition Bindings_step (v : string) (rb : gmap string (list Term)) (b : gmap string Binding)
    : gmap string (list Term) :=
  match termFromJSON (b !!! v) with
  | Ok t => <[v := (rb !!! v) ++ [t]]> rb
  | Err _ => rb
  end.

(** [Bindings] returns a map of the bound variables in the SPARQL
    response, where each variable points to one or more RDF terms. *)
Definition Bindings (r : Results) : gmap string (list Term) :=
  foldl (fun rb v => foldl (Bindings_step v) rb (rows r)) ∅ (Vars (Head r)).

(** The body of the inner loop of [Solutions]:
    [term, err := termFromJSON(v); if err == nil { solution[k] = term }]. *)
Definition Solutions_step (solution : gmap string Term) (kv : string * Binding)
    : gmap string Term :=
  match termFromJSON kv.2 with
  | Ok term => <[kv.1 := term]> solution
  | Err _ => solution
  end.

(** One pass of [for k, v := range s] over the entries of a row, visited
    in the order [kvs]. *)
Definition solution_of (kvs : list (string * Binding)) : gmap string Term :=
  foldl Solutions_step ∅ kvs.

(** Go leaves the order in which [range] visits a map unspecified, and it
    changes from one loop to the next.  A [schedule] gives, for each row
    in turn, the order in which that row's entries are visited; it is
    admissible when every row's entries are visited exactly once. *)
Definition range_schedule (r : Results) (schedule : list (list (string * Binding))) : Prop :=
  Forall2 (fun kvs s => kvs ≡ₚ map_to_list s) schedule (rows r).

(** [Solutions] under a given schedule of the map iterations: one
    [solution] map per visited row, appended in row order. *)
Definition Solutions_in (schedule : list (list (string * Binding)))
    : list (gmap string Term) :=
  foldl (fun rs kvs => rs ++ [solution_of kvs]) [] schedule.

(** [Solutions] returns a slice of the query solutions, each containing a
    map of all bindings to RDF terms (here under the schedule that visits
    every row in [map_to_list] order). *)
Definition Solutions (r : Results) : list (gmap string Term) :=
  Solutions_in (map_to_list <$> rows r).

(** Both methods have the pointer receiver [r *Results].  A call is a
    step on the receiver's state that yields the returned value: neither
    body assigns through [r]. *)
Definition call_Bindings (r : Results) : gmap string (list Term) * Results :=
  (Bindings r, r).

Definition call_Solutions (schedule : list (list (string * Binding))) (r : Results)
    : list (gmap string Term) * Results :=
  (Solutions_in schedule, r).

End Materialization.

(** ** Convenience lookup helpers (sparql.go) *)

(** [GetValue]: the [Value] bound to [needle] in the first row. *)
Definition GetValue (needle : string) (haystack : list (gmap string Binding)) : string :=
  if decide (length haystack = 0%nat) then ""
  else
    let term := haystack !!! 0%nat in
    match term !! needle with
    | Some val => Value val
    | None => ""
    end.

(** The body of the loop of [ListOf], for the row [term]. *)
Definition ListOf_step (needle : string)
    (toReturn : gmap string (list (gmap string Binding))) (term : gmap string Binding)
    : gmap string (list (gmap string Binding)) :=
  match term !! needle with
  | Some _ =>
      let val := Value (term !!! needle) in
      let toReturn1 :=
        if decide (length (toReturn !!! val) < 1)%nat
        then <[val := []]> toReturn
        else toReturn in
      <[val := (toReturn1 !!! val) ++ [term]]> toReturn1
  | None => toReturn
  end.

(** [ListOf] groups the rows that bind [needle] by the value bound to it. *)
Definition ListOf (results : list (gmap string Binding)) (needle : string)
    : gmap string (list (gmap string Binding)) :=
  foldl (ListOf_step needle) ∅ results.

(** The body of the loop of [ListOfSubjects], for the row [term]. *)
Definition ListOfSubjects_step
    (toReturn : gmap string (list (gmap string Binding))) (term : gmap string Binding)
    : gmap string (list (gmap string Binding)) :=
  match term !! "s" with
  | Some _ =>
      let val := Value (term !!! "s") in
      let toReturn1 :=
        if decide (length (toReturn !!! val) < 1)%nat
        then <[val := []]> toReturn
        else toReturn in
      <[val := (toReturn1 !!! val) ++ [term]]> toReturn1
  | None => toReturn
  end.

(** [ListOfSubjects] groups the rows that bind ["s"] by the subject value. *)
Definition ListOfSubjects (results : list (gmap string Binding))
    : gmap string (list (gmap string Binding)) :=
  foldl ListOfSubjects_step ∅ results.

(** ** Repository construction (repo.go) *)

(** [http.RoundTripper] as far as the package sets it: the default (nil)
    transport or [digest.NewTransport(username, password)]. *)
Inductive RoundTripper : Type :=
  | DefaultTransport
  | DigestTransport (username password : string).

(** [http.Client], the two fields the options write.  [client_Timeout] is
    a [time.Duration]. *)
Record Client : Type := {
  Transport : RoundTripper;
  client_Timeout : Z
}.

(** [Repo].  The field [client] is a pointer in the source, and [NewRepo]
    stores the process-wide [http.DefaultClient] in it; the record holds
    the client it points to. *)
Record Repo : Type := {
  endpoint : string;
  client : Client
}.

(** A functional option, [func(r *Repo) error]: it may write to the [Repo] it
    is given and may return an error. *)
Abbreviation RepoOption := (Repo -> Repo * option error).

(** [SetOption] takes one or more option function and applies them in order
    to Repo. *)
Fixpoint SetOption (options : list RepoOption) (r : Repo) : Repo * option error :=
  match options with
  | [] => (r, None)
  | opt :: options' =>
      match opt r with
      | (r', Some err) => (r', Some err)
      | (r', None) => SetOption options' r'
      end
  end.

(** [NewRepo] creates a new representation of a RDF repository;
    [DefaultClient] is the current state of [http.DefaultClient].  The
    source returns [&r] whatever the error. *)
Definition NewRepo (DefaultClient : Client) (addr : string) (options : list RepoOption)
    : Repo * option error :=
  let r := {| endpoint := addr; client := DefaultClient |} in
  SetOption options r.

(** [DigestAuth] configures Repo to use digest authentication. *)
Definition DigestAuth (username password : string) : RepoOption :=
  fun r =>
    ({| endpoint := endpoint r;
        client := {| Transport := DigestTransport username password;
                     client_Timeout := client_Timeout (client r) |} |}, None).

(** [Timeout] instructs the underlying HTTP transport to timeout after the
    given duration. *)
Definition Timeout (t : Z) : RepoOption :=
  fun r =>
    ({| endpoint := endpoint r;
        client := {| Transport := Transport (client r); client_Timeout := t |} |}, None).

(** The state of the [Repo] after the options of [options] have been
    applied one after the other, whatever they returned. *)
Definition applied (options : list RepoOption) (r : Repo) : Repo :=
  foldl (fun r opt => (opt r).1) r options.

(** ** Byte classes *)

Definition byte_code (c : ascii) : N := N_of_ascii c.
Definition byte_of (n : N) : ascii := ascii_of_N n.

Definition byte_in (lo hi : N) (c : ascii) : bool :=
  ((lo <=? byte_code c) && (byte_code c <=? hi))%N.

Definition is_byte (x c : ascii) : bool := Ascii.eqb c x.

(** The double quote and the backslash. *)
Definition quote : ascii := Eval cbv in ascii_of_N 34.
Definition backslash : ascii := Eval cbv in ascii_of_N 92.

Definition is_digit (c : ascii) : bool := byte_in 48 57 c.        (* '0'..'9' *)
Definition is_digit19 (c : ascii) : bool := byte_in 49 57 c.      (* '1'..'9' *)
Definition is_hex (c : ascii) : bool :=
  is_digit c || byte_in 97 102 c || byte_in 65 70 c.              (* 0-9 a-f A-F *)

(** ** Formatting (package fmt), as far as [fmt.Errorf] is used

    The package belongs to Go's standard library, not to the repository;
    the model follows the library.  The three operations of the client build their error with
    [fmt.Errorf(format, resp.Status)], where [format] ends in the text read
    from the response body.  [Sprintf] is Go's formatting loop for operands
    that are all strings, on the directives made of a ['%'] and a verb
    byte.  A directive with flags, a width, a precision or an argument
    index, a verb outside ASCII, and the verbs [q], [x], [X] and [T]
    applied to an operand are outside this fragment: there the result is
    [None]. *)
Module fmt.

(** The [%!(EXTRA ...)] text that reports operands no verb has used. *)
Definition extra (a : list string) : string :=
  match a with
  | [] => ""
  | arg :: a' =>
      "%!(EXTRA string=" +:+ arg +:+
      foldr (fun x acc => ", string=" +:+ x +:+ acc) ")" a'
  end.

(** A byte after ['%'] that starts flags, a width, a precision or an
    argument index, or that is not ASCII. *)
Definition starts_extended_directive (c : ascii) : bool :=
  is_byte "#" c || is_byte "+" c || is_byte "-" c || is_byte " " c ||
  is_digit c || is_byte "." c || is_byte "*" c || is_byte "[" c ||
  (128 <=? byte_code c)%N.

Definition plain_verb (c : ascii) : bool := is_byte "s" c || is_byte "v" c.

Definition verb_outside_fragment (c : ascii) : bool :=
  is_byte "q" c || is_byte "x" c || is_byte "X" c || is_byte "T" c.

Fixpoint Sprintf (format : string) (a : list string) : option string :=
  match format with
  | EmptyString => Some (extra a)
  | String c rest =>
      if is_byte "%" c then
        match rest with
        | EmptyString => Some ("%!(NOVERB)" +:+ extra a)
        | String verb rest' =>
            if is_byte "%" verb then String "%" <$> Sprintf rest' a
            else if starts_extended_directive verb then None
            else
              match a with
              | [] =>
                  (fun out => "%!" +:+ String verb "(MISSING)" +:+ out)
                    <$> Sprintf rest' []
              | arg :: a' =>
                  if plain_verb verb then
                    (fun out => arg +:+ out) <$> Sprintf rest' a'
                  else if verb_outside_fragment verb then None
                  else
                    (fun out => "%!" +:+ String verb "(string=" +:+ arg +:+ ")" +:+ out)
                      <$> Sprintf rest' a'
              end
        end
      else String c <$> Sprintf rest a
  end.

End fmt.

(** The message [err.Error()] of the errors this package creates itself. *)
Definition Error_text (e : error) : option string :=
  match e with
  | errorString msg => Some msg
  | fmtError format args => fmt.Sprintf format args
  | EOF => Some "EOF"
  | ErrUnexpectedEOF => Some "unexpected EOF"
  | SyntaxError | UnmarshalTypeError _ => None
  end.

(** ** [strings.TrimSpace] (Go's standard library) *)
Module strings.

Definition ascii_space (c : ascii) : bool :=
  byte_in 9 13 c || is_byte " " c.          (* \t \n \v \f \r and space *)

(** Strips one leading white-space rune: an ASCII space byte or the UTF-8
    encoding of U+0085, U+00A0, U+1680, U+2000..U+200A, U+2028, U+2029,
    U+202F, U+205F or U+3000 ([unicode.IsSpace]). *)
Definition strip_space_rune (s : string) : option string :=
  match s with
  | EmptyString => None
  | String c s1 =>
      if ascii_space c then Some s1
      else
        match s1 with
        | EmptyString => None
        | String d s2 =>
            if (byte_code c =? 194)%N then
              if (byte_code d =? 133)%N || (byte_code d =? 160)%N then Some s2 else None
            else
              match s2 with
              | EmptyString => None
              | String e s3 =>
                  if (byte_code c =? 225)%N && (byte_code d =? 154)%N && (byte_code e =? 128)%N
                  then Some s3
                  else if (byte_code c =? 226)%N && (byte_code d =? 128)%N &&
                          (byte_in 128 138 e || (byte_code e =? 168)%N ||
                           (byte_code e =? 169)%N || (byte_code e =? 175)%N)
                  then Some s3
                  else if (byte_code c =? 226)%N && (byte_code d =? 129)%N && (byte_code e =? 159)%N
                  then Some s3
                  else if (byte_code c =? 227)%N && (byte_code d =? 128)%N && (byte_code e =? 128)%N
                  then Some s3
                  else None
              end
        end
  end.

Fixpoint trim_left (fuel : nat) (s : string) : string :=
  match fuel with
  | O => s
  | S fuel' =>
      match strip_space_rune s with
      | Some s' => trim_left fuel' s'
      | None => s
      end
  end.

Definition TrimLeftSpace (s : string) : string := trim_left (String.length s) s.

Fixpoint TrimRightSpace (s : string) : string :=
  match s with
  | EmptyString => EmptyString
  | String c s' =>
      if decide (TrimLeftSpace s = "") then "" else String c (TrimRightSpace s')
  end.

Definition TrimSpace (s : string) : string := TrimRightSpace (TrimLeftSpace s).

End strings.

(** ** An [io.Reader]: the bytes it delivers, and the error (other than
    [io.EOF]) that ends the stream after them, if any. *)
Record Reader : Type := {
  data : string;
  read_err : option error
}.

Definition NewReader (s : string) : Reader := {| data := s; read_err := None |}.

(** [io.ReadAll]. *)
Definition ReadAll (r : Reader) : string * option error := (data r, read_err r).

(** ** JSON decoding (package encoding/json)

    The package belongs to Go's standard library, not to the repository;
    the model follows the library.  [ParseJSON] is one call of [json.NewDecoder(r).Decode(&res)].  The
    module follows the package: [scanner] is its byte-at-a-time syntax
    checker, [checkValid] runs it over a whole text (this is [json.Valid],
    the JSON texts), [readValue] is the loop by which a [Decoder] cuts the
    next value off its stream, and [unmarshal] stores that value in a
    [Results]. *)
Module json.

(** *** The scanner (scanner.go) *)

Inductive opcode : Type :=
  | scanContinue | scanBeginLiteral | scanBeginObject | scanObjectKey
  | scanObjectValue | scanEndObject | scanBeginArray | scanArrayValue
  | scanEndArray | scanSkipSpace
  | scanEnd       (* top-level value ended before this byte *)
  | scanError.

Inductive parse_state : Type :=
  | parseObjectKey | parseObjectValue | parseArrayValue.

(** The state functions a scanner's [step] field can hold. *)
Inductive step_fn : Type :=
  | BeginValueOrEmpty | BeginValue | BeginStringOrEmpty | BeginString
  | EndValue | EndTop
  | InString | InStringEsc | InStringEscU | InStringEscU1 | InStringEscU12
  | InStringEscU123
  | Neg | St1 | St0 | Dot | Dot0 | StE | ESign | E0
  | StT | Tr | Tru | StF | Fa | Fal | Fals | StN | Nu | Nul
  | StError.

(** [parseState] has its top at the head; [err] tells whether [s.err] is
    set. *)
Record scanner : Type := {
  step : step_fn;
  parseState : list parse_state;
  err : bool;
  endTop : bool
}.

Definition maxNestingDepth : N := 10000.

Definition reset : scanner :=
  {| step := BeginValue; parseState := []; err := false; endTop := false |}.

Definition set_step (s : scanner) (f : step_fn) : scanner :=
  {| step := f; parseState := parseState s; err := err s; endTop := endTop s |}.

Definition set_parseState (s : scanner) (ps : list parse_state) : scanner :=
  {| step := step s; parseState := ps; err := err s; endTop := endTop s |}.

(** [s.error(c, context)]: records an error and switches to the error
    state. *)
Definition error_ (s : scanner) : scanner * opcode :=
  ({| step := StError; parseState := parseState s; err := true; endTop := endTop s |},
   scanError).

Definition isSpace (c : ascii) : bool :=
  is_byte " " c || (byte_code c =? 9)%N || (byte_code c =? 13)%N || (byte_code c =? 10)%N.

(** [pushParseState], called with [s.step] already set. *)
Definition pushParseState (s : scanner) (newParseState : parse_state)
    (successState : opcode) : scanner * opcode :=
  let s' := set_parseState s (newParseState :: parseState s) in
  if (N.of_nat (length (parseState s')) <=? maxNestingDepth)%N
  then (s', successState)
  else error_ s'.

Definition popParseState (s : scanner) : scanner :=
  match parseState s with
  | [] => s
  | _ :: rest =>
      match rest with
      | [] => {| step := EndTop; parseState := []; err := err s; endTop := true |}
      | _ => {| step := EndValue; parseState := rest; err := err s; endTop := endTop s |}
      end
  end.

(** The state after finishing the top-level value: only space bytes
    should follow; another byte is complained about on the next call. *)
Definition stateEndTop (s : scanner) (c : ascii) : scanner * opcode :=
  if isSpace c then (s, scanEnd) else ((error_ s).1, scanEnd).

(** The state after completing a value, such as after reading [{}] or
    [true] or [["x"]. *)
Definition stateEndValue (s : scanner) (c : ascii) : scanner * opcode :=
  match parseState s with
  | [] =>
      stateEndTop
        {| step := EndTop; parseState := []; err := err s; endTop := true |} c
  | ps :: rest =>
      if isSpace c then (set_step s EndValue, scanSkipSpace)
      else
        match ps with
        | parseObjectKey =>
            if is_byte ":" c
            then (set_step (set_parseState s (parseObjectValue :: rest)) BeginValue,
                  scanObjectKey)
            else error_ s
        | parseObjectValue =>
            if is_byte "," c
            then (set_step (set_parseState s (parseObjectKey :: rest)) BeginString,
                  scanObjectValue)
            else if is_byte "}" c then (popParseState s, scanEndObject)
            else error_ s
        | parseArrayValue =>
            if is_byte "," c then (set_step s BeginValue, scanArrayValue)
            else if is_byte "]" c then (popParseState s, scanEndArray)
            else error_ s
        end
  end.

Definition stateBeginValue (s : scanner) (c : ascii) : scanner * opcode :=
  if isSpace c then (s, scanSkipSpace)
  else if is_byte "{" c then
    pushParseState (set_step s BeginStringOrEmpty) parseObjectKey scanBeginObject
  else if is_byte "[" c then
    pushParseState (set_step s BeginValueOrEmpty) parseArrayValue scanBeginArray
  else if is_byte quote c then (set_step s InString, scanBeginLiteral)
  else if is_byte "-" c then (set_step s Neg, scanBeginLiteral)
  else if is_byte "0" c then (set_step s St0, scanBeginLiteral)
  else if is_byte "t" c then (set_step s StT, scanBeginLiteral)
  else if is_byte "f" c then (set_step s StF, scanBeginLiteral)
  else if is_byte "n" c then (set_step s StN, scanBeginLiteral)
  else if is_digit19 c then (set_step s St1, scanBeginLiteral)
  else error_ s.

Definition stateBeginValueOrEmpty (s : scanner) (c : ascii) : scanner * opcode :=
  if isSpace c then (s, scanSkipSpace)
  else if is_byte "]" c then stateEndValue s c
  else stateBeginValue s c.

Definition stateBeginString (s : scanner) (c : ascii) : scanner * opcode :=
  if isSpace c then (s, scanSkipSpace)
  else if is_byte quote c then (set_step s InString, scanBeginLiteral)
  else error_ s.

Definition stateBeginStringOrEmpty (s : scanner) (c : ascii) : scanner * opcode :=
  if isSpace c then (s, scanSkipSpace)
  else if is_byte "}" c then
    stateEndValue (set_parseState s (parseObjectValue :: tail (parseState s))) c
  else stateBeginString s c.

Definition stateInString (s : scanner) (c : ascii) : scanner * opcode :=
  if is_byte quote c then (set_step s EndValue, scanContinue)
  else if is_byte backslash c then (set_step s InStringEsc, scanContinue)
  else if (byte_code c <? 32)%N then error_ s
  else (s, scanContinue).

Definition stateInStringEsc (s : scanner) (c : ascii) : scanner * opcode :=
  if is_byte "b" c || is_byte "f" c || is_byte "n" c || is_byte "r" c ||
     is_byte "t" c || is_byte backslash c || is_byte "/" c || is_byte quote c
  then (set_step s InString, scanContinue)
  else if is_byte "u" c then (set_step s InStringEscU, scanContinue)
  else error_ s.

(** The four states inside a [\uXXXX] escape; [next] is the state after a
    hexadecimal digit. *)
Definition stateHex (next : step_fn) (s : scanner) (c : ascii) : scanner * opcode :=
  if is_hex c then (set_step s next, scanContinue) else error_ s.

Definition state0 (s : scanner) (c : ascii) : scanner * opcode :=
  if is_byte "." c then (set_step s Dot, scanContinue)
  else if is_byte "e" c || is_byte "E" c then (set_step s StE, scanContinue)
  else stateEndValue s c.

Definition state1 (s : scanner) (c : ascii) : scanner * opcode :=
  if is_digit c then (set_step s St1, scanContinue) else state0 s c.

Definition stateNeg (s : scanner) (c : ascii) : scanner * opcode :=
  if is_byte "0" c then (set_step s St0, scanContinue)
  else if is_digit19 c then (set_step s St1, scanContinue)
  else error_ s.

Definition stateDot (s : scanner) (c : ascii) : scanner * opcode :=
  if is_digit c then (set_step s Dot0, scanContinue) else error_ s.

Definition stateDot0 (s : scanner) (c : ascii) : scanner * opcode :=
  if is_digit c then (s, scanContinue)
  else if is_byte "e" c || is_byte "E" c then (set_step s StE, scanContinue)
  else stateEndValue s c.

Definition stateESign (s : scanner) (c : ascii) : scanner * opcode :=
  if is_digit c then (set_step s E0, scanContinue) else error_ s.

Definition stateE (s : scanner) (c : ascii) : scanner * opcode :=
  if is_byte "+" c || is_byte "-" c then (set_step s ESign, scanContinue)
  else stateESign s c.

Definition stateE0 (s : scanner) (c : ascii) : scanner * opcode :=
  if is_digit c then (s, scanContinue) else stateEndValue s c.

(** The states inside [true], [false] and [null]: [expect] is the only
    byte allowed, [next] the state after it. *)
Definition stateLit (expect : ascii) (next : step_fn) (s : scanner) (c : ascii)
    : scanner * opcode :=
  if is_byte expect c then (set_step s next, scanContinue) else error_ s.

(** [s.step(s, c)]. *)
Definition scan_step (s : scanner) (c : ascii) : scanner * opcode :=
  match step s with
  | BeginValueOrEmpty => stateBeginValueOrEmpty s c
  | BeginValue => stateBeginValue s c
  | BeginStringOrEmpty => stateBeginStringOrEmpty s c
  | BeginString => stateBeginString s c
  | EndValue => stateEndValue s c
  | EndTop => stateEndTop s c
  | InString => stateInString s c
  | InStringEsc => stateInStringEsc s c
  | InStringEscU => stateHex InStringEscU1 s c
  | InStringEscU1 => stateHex InStringEscU12 s c
  | InStringEscU12 => stateHex InStringEscU123 s c
  | InStringEscU123 => stateHex InString s c
  | Neg => stateNeg s c
  | St1 => state1 s c
  | St0 => state0 s c
  | Dot => stateDot s c
  | Dot0 => stateDot0 s c
  | StE => stateE s c
  | ESign => stateESign s c
  | E0 => stateE0 s c
  | StT => stateLit "r" Tr s c
  | Tr => stateLit "u" Tru s c
  | Tru => stateLit "e" EndValue s c
  | StF => stateLit "a" Fa s c
  | Fa => stateLit "l" Fal s c
  | Fal => stateLit "s" Fals s c
  | Fals => stateLit "e" EndValue s c
  | StN => stateLit "u" Nu s c
  | Nu => stateLit "l" Nul s c
  | Nul => stateLit "l" EndValue s c
  | StError => (s, scanError)
  end.

(** [s.eof()]: tells the scanner that the end of input has been reached. *)
Definition eof (s : scanner) : opcode :=
  if err s then scanError
  else if endTop s then scanEnd
  else if endTop (scan_step s " ").1 then scanEnd
  else scanError.

(** The loop of [checkValid]: the scanner after all the bytes of [text],
    or nothing once a step reports an error. *)
Fixpoint scan_all (s : scanner) (text : string) : option scanner :=
  match text with
  | EmptyString => Some s
  | String c text' =>
      match scan_step s c with
      | (_, scanError) => None
      | (s', _) => scan_all s' text'
      end
  end.

(** [checkValid] and [json.Valid]: [text] is a valid JSON encoding. *)
Definition Valid (text : string) : bool :=
  match scan_all reset text with
  | None => false
  | Some s => match eof s with scanError => false | _ => true end
  end.

(** *** Cutting the next value off a stream (stream.go) *)

Inductive framing : Type :=
  | Framed (value rest : string)  (* the bytes of the value, the unread bytes *)
  | ScanFailed                    (* the scanner reported an error *)
  | InputEnded (s : scanner).     (* the bytes ended before the value did; the
                                     scanner after them *)

(** The loop of [Decoder.readValue] over the bytes the reader delivers,
    [for ; scanp < len(dec.buf); scanp++]: it runs to the byte that ends
    the value, to an error of the scanner, or to the end of the bytes. *)
Fixpoint readValue_loop (s : scanner) (buf : string) : framing :=
  match buf with
  | EmptyString => InputEnded s
  | String c buf' =>
      match scan_step s c with
      | (_, scanEnd) => Framed "" buf
      | (_, scanError) => ScanFailed
      | (s', op) =>
          let ended :=
            match op with
            | scanEndObject | scanEndArray =>
                match stateEndValue s' " " with
                | (_, scanEnd) => true
                | _ => false
                end
            | _ => false
            end in
          if ended then Framed (String c "") buf'
          else
            match readValue_loop s' buf' with
            | Framed value rest => Framed (String c value) rest
            | other => other
            end
      end
  end.

Fixpoint nonSpace (b : string) : bool :=
  match b with
  | EmptyString => false
  | String c b' => if isSpace c then nonSpace b' else true
  end.

(** [Decoder.readValue], for the first value of the stream [r]: the bytes
    of the value and the bytes left unread.  When the bytes end before the
    value does, the error of the last read decides: an error of the reader
    is returned as it is; on [io.EOF] the scanner is given a space, which
    ends a number, a string or a literal at the top level, and the stream
    is otherwise cut short ([io.ErrUnexpectedEOF]) or empty ([io.EOF]). *)
Definition readValue (r : Reader) : result (string * string) :=
  match readValue_loop reset (data r) with
  | Framed value rest => Ok (value, rest)
  | ScanFailed => Err SyntaxError
  | InputEnded s =>
      match read_err r with
      | Some e => Err e
      | None =>
          match scan_step s " " with
          | (_, scanEnd) => Ok (data r, EmptyString)
          | _ => if nonSpace (data r) then Err ErrUnexpectedEOF else Err EOF
          end
      end
  end.

(** *** Storing a value (decode.go)

    [unmarshal] reads the bytes [readValue] has cut off a second time and
    stores the value in the Go variable.  [value] is what that second
    reading sees: strings and object keys still in their quoted form. *)

Inductive value : Type :=
  | Null
  | Bool (b : bool)
  | Number (lit : string)
  | Str (raw : string)
  | Array (elems : list value)
  | Object (members : list (string * value)).

Fixpoint skip_space (s : string) : string :=
  match s with
  | EmptyString => EmptyString
  | String c s' => if isSpace c then skip_space s' else s
  end.

(** The bytes of a string up to its closing quote, and what follows it. *)
Fixpoint string_body (s : string) : option (string * string) :=
  match s with
  | EmptyString => None
  | String c s' =>
      if is_byte quote c then Some (EmptyString, s')
      else if is_byte backslash c then
        match s' with
        | EmptyString => None
        | String d s'' =>
            match string_body s'' with
            | Some (raw, rest) => Some (String c (String d raw), rest)
            | None => None
            end
        end
      else
        match string_body s' with
        | Some (raw, rest) => Some (String c raw, rest)
        | None => None
        end
  end.

Definition number_byte (c : ascii) : bool :=
  is_digit c || is_byte "-" c || is_byte "+" c || is_byte "." c ||
  is_byte "e" c || is_byte "E" c.

Fixpoint number_lit (s : string) : string * string :=
  match s with
  | EmptyString => (EmptyString, EmptyString)
  | String c s' =>
      if number_byte c
      then let '(lit, rest) := number_lit s' in (String c lit, rest)
      else (EmptyString, s)
  end.

Fixpoint strip_prefix (p s : string) : option string :=
  match p, s with
  | EmptyString, _ => Some s
  | String a p', String c s' => if Ascii.eqb a c then strip_prefix p' s' else None
  | String _ _, EmptyString => None
  end.

Fixpoint parse_value (fuel : nat) (s : string) : option (value * string) :=
  match fuel with
  | O => None
  | S n =>
      match skip_space s with
      | EmptyString => None
      | String c s' =>
          if is_byte "{" c then
            match skip_space s' with
            | EmptyString => None
            | String d s'' =>
                if is_byte "}" d then Some (Object [], s'')
                else parse_members n [] (String d s'')
            end
          else if is_byte "[" c then
            match skip_space s' with
            | EmptyString => None
            | String d s'' =>
                if is_byte "]" d then Some (Array [], s'')
                else parse_elems n [] (String d s'')
            end
          else if is_byte quote c then
            match string_body s' with
            | Some (raw, rest) => Some (Str raw, rest)
            | None => None
            end
          else if is_byte "t" c then
            match strip_prefix "rue" s' with
            | Some rest => Some (Bool true, rest)
            | None => None
            end
          else if is_byte "f" c then
            match strip_prefix "alse" s' with
            | Some rest => Some (Bool false, rest)
            | None => None
            end
          else if is_byte "n" c then
            match strip_prefix "ull" s' with
            | Some rest => Some (Null, rest)
            | None => None
            end
          else
            match number_lit (String c s') with
            | (EmptyString, _) => None
            | (lit, rest) => Some (Number lit, rest)
            end
      end
  end
with parse_elems (fuel : nat) (acc : list value) (s : string) : option (value * string) :=
  match fuel with
  | O => None
  | S n =>
      match parse_value n s with
      | None => None
      | Some (v, r) =>
          match skip_space r with
          | EmptyString => None
          | String c r' =>
              if is_byte "," c then parse_elems n (v :: acc) r'
              else if is_byte "]" c then Some (Array (rev (v :: acc)), r')
              else None
          end
      end
  end
with parse_members (fuel : nat) (acc : list (string * value)) (s : string)
    : option (value * string) :=
  match fuel with
  | O => None
  | S n =>
      match skip_space s with
      | EmptyString => None
      | String c s' =>
          if is_byte quote c then
            match string_body s' with
            | None => None
            | Some (key, r) =>
                match skip_space r with
                | EmptyString => None
                | String d r' =>
                    if is_byte ":" d then
                      match parse_value n r' with
                      | None => None
                      | Some (v, r2) =>
                          match skip_space r2 with
                          | EmptyString => None
                          | String e r3 =>
                              if is_byte "," e then parse_members n ((key, v) :: acc) r3
                              else if is_byte "}" e
                              then Some (Object (rev ((key, v) :: acc)), r3)
                              else None
                          end
                      end
                    else None
                end
            end
          else None
      end
  end.

(** The value a text encodes, with fuel enough for every text. *)
Definition parse (text : string) : option value :=
  match parse_value (2 * String.length text + 2)%nat text with
  | Some (v, _) => Some v
  | None => None
  end.

(** **** Unquoting a string literal *)

Definition hex_value (c : ascii) : N :=
  (if is_digit c then byte_code c - 48
   else if byte_in 97 102 c then byte_code c - 87
   else byte_code c - 55)%N.

(** [getu4], after the [\u]: the code unit of four hexadecimal digits. *)
Definition getu4 (s : string) : option (N * string) :=
  match s with
  | String a (String b (String c (String d rest))) =>
      if is_hex a && is_hex b && is_hex c && is_hex d
      then Some (hex_value a * 4096 + hex_value b * 256 + hex_value c * 16 + hex_value d, rest)%N
      else None
  | _ => None
  end.

(** [utf8.EncodeRune], for a rune that is no surrogate. *)
Definition EncodeRune (r : N) : string :=
  (if r <? 128 then String (byte_of r) ""
   else if r <? 2048 then
     String (byte_of (192 + r / 64)) (String (byte_of (128 + r mod 64)) "")
   else if r <? 65536 then
     String (byte_of (224 + r / 4096))
       (String (byte_of (128 + (r / 64) mod 64)) (String (byte_of (128 + r mod 64)) ""))
   else
     String (byte_of (240 + r / 262144))
       (String (byte_of (128 + (r / 4096) mod 64))
          (String (byte_of (128 + (r / 64) mod 64)) (String (byte_of (128 + r mod 64)) ""))))%N.

Definition ReplacementChar : N := 65533.   (* U+FFFD *)

Definition IsSurrogate (r : N) : bool := ((55296 <=? r) && (r <? 57344))%N.

(** [utf16.DecodeRune]. *)
Definition utf16_DecodeRune (r1 r2 : N) : N :=
  (if (55296 <=? r1) && (r1 <? 56320) && (56320 <=? r2) && (r2 <? 57344)
   then (r1 - 55296) * 1024 + (r2 - 56320) + 65536
   else ReplacementChar)%N.

Definition cont (lo hi : N) (s : string) : option string :=
  match s with
  | String c s' => if byte_in lo hi c then Some s' else None
  | EmptyString => None
  end.

(** The number of bytes of the well-formed UTF-8 sequence at the head of
    [s]; 0 when the head is ill-formed ([utf8.DecodeRune] then yields
    [RuneError] of width 1). *)
Definition utf8_width (s : string) : nat :=
  match s with
  | EmptyString => 0%nat
  | String c s1 =>
      let n := byte_code c in
      let two lo hi : nat :=
        match cont lo hi s1 with Some _ => 2%nat | None => 0%nat end in
      let three lo hi : nat :=
        match cont lo hi s1 with
        | Some s2 => match cont 128%N 191%N s2 with Some _ => 3%nat | None => 0%nat end
        | None => 0%nat
        end in
      let four lo hi : nat :=
        match cont lo hi s1 with
        | Some s2 =>
            match cont 128%N 191%N s2 with
            | Some s3 => match cont 128%N 191%N s3 with Some _ => 4%nat | None => 0%nat end
            | None => 0%nat
            end
        | None => 0%nat
        end in
      if (n <? 128)%N then 1%nat
      else if (n <? 194)%N then 0%nat
      else if (n <? 224)%N then two 128%N 191%N
      else if (n =? 224)%N then three 160%N 191%N
      else if (n =? 237)%N then three 128%N 159%N
      else if (n <? 240)%N then three 128%N 191%N
      else if (n =? 240)%N then four 144%N 191%N
      else if (n <? 244)%N then four 128%N 191%N
      else if (n =? 244)%N then four 128%N 143%N
      else 0%nat
  end.

Fixpoint string_take (n : nat) (s : string) : string :=
  match n, s with
  | S n', String c s' => String c (string_take n' s')
  | _, _ => EmptyString
  end.

Fixpoint string_drop (n : nat) (s : string) : string :=
  match n, s with
  | S n', String _ s' => string_drop n' s'
  | _, _ => s
  end.

Definition unescape (c : ascii) : ascii :=
  if is_byte "b" c then byte_of 8
  else if is_byte "f" c then byte_of 12
  else if is_byte "n" c then byte_of 10
  else if is_byte "r" c then byte_of 13
  else if is_byte "t" c then byte_of 9
  else c.

(** [unquote], on the bytes between the quotes of a literal the scanner has
    accepted: escapes are decoded, ill-formed UTF-8 is replaced by U+FFFD. *)
Fixpoint unquote_loop (fuel : nat) (s : string) : string :=
  match fuel with
  | O => EmptyString
  | S n =>
      match s with
      | EmptyString => EmptyString
      | String c r =>
          if is_byte backslash c then
            match r with
            | EmptyString => EmptyString
            | String d r' =>
                if is_byte "u" d then
                  match getu4 r' with
                  | None => EmptyString
                  | Some (rr, r2) =>
                      if IsSurrogate rr then
                        let pair :=
                          match r2 with
                          | String b (String u r3) =>
                              if is_byte backslash b && is_byte "u" u
                              then getu4 r3 else None
                          | _ => None
                          end in
                        match pair with
                        | Some (rr1, r4) =>
                            if (utf16_DecodeRune rr rr1 =? ReplacementChar)%N
                            then EncodeRune ReplacementChar +:+ unquote_loop n r2
                            else EncodeRune (utf16_DecodeRune rr rr1) +:+ unquote_loop n r4
                        | None => EncodeRune ReplacementChar +:+ unquote_loop n r2
                        end
                      else EncodeRune rr +:+ unquote_loop n r2
                  end
                else String (unescape d) (unquote_loop n r')
            end
          else if (byte_code c <? 128)%N then String c (unquote_loop n r)
          else
            match utf8_width s with
            | O => EncodeRune ReplacementChar +:+ unquote_loop n r
            | w => string_take w s +:+ unquote_loop n (string_drop w s)
            end
      end
  end.

Definition unquote (raw : string) : string := unquote_loop (String.length raw) raw.

(** **** Storing into the Go types of [Results]

    Each function stores the JSON value [v] into a Go variable whose
    current content is [old] and returns the new content.  A value of the
    wrong kind leaves the variable as it is and is recorded as an
    [UnmarshalTypeError]; decoding goes on, and the first error recorded is
    the one [Decode] returns.  [null] resets a slice or a map to nil and
    leaves a string, a bool or a struct alone. *)

Definition first_error (e1 e2 : option error) : option error :=
  match e1 with Some _ => e1 | None => e2 end.

Definition type_error (v : value) : error :=
  UnmarshalTypeError
    match v with
    | Null => "null" | Bool _ => "bool" | Number _ => "number"
    | Str _ => "string" | Array _ => "array" | Object _ => "object"
    end.

Definition store_string (v : value) (old : string) : string * option error :=
  match v with
  | Null => (old, None)
  | Str raw => (unquote raw, None)
  | _ => (old, Some (type_error v))
  end.

Definition store_bool (v : value) (old : bool) : bool * option error :=
  match v with
  | Null => (old, None)
  | Bool b => (b, None)
  | _ => (old, Some (type_error v))
  end.

(** The elements of a JSON array, stored one by one into the elements the
    slice already has, or into zero values beyond them. *)
Fixpoint store_elems {A} (store : value -> A -> A * option error) (zero : A)
    (elems : list value) (old : list A) : list A * option error :=
  match elems with
  | [] => ([], None)
  | e :: elems' =>
      let '(x, err1) := store e (hd zero old) in
      let '(xs, err2) := store_elems store zero elems' (tl old) in
      (x :: xs, first_error err1 err2)
  end.

Definition store_slice {A} (store : value -> A -> A * option error) (zero : A)
    (v : value) (old : list A) : list A * option error :=
  match v with
  | Null => ([], None)
  | Array elems => store_elems store zero elems old
  | _ => (old, Some (type_error v))
  end.

(** A JSON object into a [map[string]A]: every member is decoded into a
    fresh zero value and then put in the map. *)
Definition store_map {A} (store : value -> A -> A * option error) (zero : A)
    (v : value) (old : gmap string A) : gmap string A * option error :=
  match v with
  | Null => (∅, None)
  | Object members =>
      foldl (fun acc kv =>
               let '(x, err1) := store kv.2 zero in
               (<[unquote kv.1 := x]> acc.1, first_error acc.2 err1))
            (old, None) members
  | _ => (old, Some (type_error v))
  end.

Definition to_upper (c : ascii) : ascii :=
  if byte_in 97 122 c then byte_of (byte_code c - 32) else c.

(** [foldName]: the name with every rune replaced by the least rune of
    its set under simple case folding.  An ASCII letter goes to its upper
    case.  Two runes outside ASCII fold to an ASCII letter: U+017F (the
    long s, bytes C5 BF) to [S] and U+212A (the Kelvin sign, bytes E2 84
    AA) to [K].  Every other rune outside ASCII folds to a rune outside
    ASCII and is left as it is here: against the names of the fields, which
    are ASCII, it makes no difference which one. *)
Fixpoint foldName (s : string) : string :=
  match s with
  | EmptyString => EmptyString
  | String c s1 =>
      if (byte_code c <? 128)%N then String (to_upper c) (foldName s1)
      else
        match s1 with
        | EmptyString => String c EmptyString
        | String d s2 =>
            if ((byte_code c =? 197) && (byte_code d =? 191))%N
            then String "S" (foldName s2)
            else
              match s2 with
              | EmptyString => String c (foldName s1)
              | String e s3 =>
                  if ((byte_code c =? 226) && (byte_code d =? 132)
                      && (byte_code e =? 170))%N
                  then String "K" (foldName s3)
                  else String c (foldName s1)
              end
        end
  end.

(** A key names a struct field when it is the field's JSON name or folds
    to the same name as it: letter case apart, with the long s for an [s]
    and the Kelvin sign for a [k]. *)
Definition names_field (key field : string) : bool :=
  String.eqb (foldName key) (foldName field).

(** A JSON object into a struct: [store_member] stores the member whose
    key names a field and skips any other. *)
Definition store_struct {T} (store_member : string -> value -> T -> T * option error)
    (v : value) (old : T) : T * option error :=
  match v with
  | Null => (old, None)
  | Object members =>
      foldl (fun acc kv =>
               let '(x, err1) := store_member (unquote kv.1) kv.2 acc.1 in
               (x, first_error acc.2 err1))
            (old, None) members
  | _ => (old, Some (type_error v))
  end.

Definition store_Binding : value -> Binding -> Binding * option error :=
  store_struct (fun key v b =>
    if names_field key "Type" then
      let '(x, e) := store_string v (Type_ b) in
      ({| Type_ := x; Value := Value b; Lang := Lang b; DataType := DataType b |}, e)
    else if names_field key "Value" then
      let '(x, e) := store_string v (Value b) in
      ({| Type_ := Type_ b; Value := x; Lang := Lang b; DataType := DataType b |}, e)
    else if names_field key "xml:lang" then
      let '(x, e) := store_string v (Lang b) in
      ({| Type_ := Type_ b; Value := Value b; Lang := x; DataType := DataType b |}, e)
    else if names_field key "DataType" then
      let '(x, e) := store_string v (DataType b) in
      ({| Type_ := Type_ b; Value := Value b; Lang := Lang b; DataType := x |}, e)
    else (b, None)).

Definition store_header : value -> header -> header * option error :=
  store_struct (fun key v h =>
    if names_field key "Link" then
      let '(x, e) := store_slice store_string "" v (Link h) in
      ({| Link := x; Vars := Vars h |}, e)
    else if names_field key "Vars" then
      let '(x, e) := store_slice store_string "" v (Vars h) in
      ({| Link := Link h; Vars := x |}, e)
    else (h, None)).

Definition store_results : value -> results -> results * option error :=
  store_struct (fun key v r =>
    if names_field key "Distinct" then
      let '(x, e) := store_bool v (Distinct r) in
      ({| Distinct := x; Ordered := Ordered r; results_Bindings := results_Bindings r |}, e)
    else if names_field key "Ordered" then
      let '(x, e) := store_bool v (Ordered r) in
      ({| Distinct := Distinct r; Ordered := x; results_Bindings := results_Bindings r |}, e)
    else if names_field key "Bindings" then
      let '(x, e) :=
        store_slice (store_map store_Binding Binding_zero) ∅ v (results_Bindings r) in
      ({| Distinct := Distinct r; Ordered := Ordered r; results_Bindings := x |}, e)
    else (r, None)).

Definition store_Results : value -> Results -> Results * option error :=
  store_struct (fun key v r =>
    if names_field key "Head" then
      let '(x, e) := store_header v (Head r) in
      ({| Head := x; Results_results := Results_results r |}, e)
    else if names_field key "Results" then
      let '(x, e) := store_results v (Results_results r) in
      ({| Head := Head r; Results_results := x |}, e)
    else (r, None)).

(** [d.unmarshal(v)] for [v *Results]: the text is one the scanner has
    accepted, so that reading it again cannot fail (the source panics if
    it does). *)
Definition unmarshal (text : string) (res : Results) : Results * option error :=
  match parse text with
  | Some v => store_Results v res
  | None => (res, Some SyntaxError)
  end.

(** [Decoder.Decode], as the first call on a new decoder of [r]: it reads
    the next JSON-encoded value from its input and stores it in [res]. *)
Definition Decode (r : Reader) (res : Results) : Results * option error :=
  match readValue r with
  | Err e => (res, Some e)
  | Ok (text, _) => unmarshal text res
  end.

End json.

(** [ParseJSON] takes an application/sparql-results+json response and
    parses it into a Results struct.  The source returns [&res] together
    with the error. *)
Definition ParseJSON (r : Reader) : Results * option error :=
  json.Decode r Results_zero.

(** ** The three operations of the repository client (repo.go) *)

(** [http.Request] and [http.Response], the parts the client touches. *)
Record Request : Type := {
  Method : string;
  URL : string;
  Header : gmap string string;
  RequestBody : string
}.

Record Response : Type := {
  Status : string;       (* the status line, e.g. "200 OK" *)
  StatusCode : Z;
  Body : Reader
}.

Definition ct : string := "Content-Type".
Definition cl : string := "Content-Length".
Definition rb : string := String.append "Response body: " (String (byte_of 10) "").
Definition readFailMsg : string := "Failed to read response body".
Definition ctvalue : string := "application/x-www-form-urlencoded".
Definition StatusOK : Z := 200.

(** [req.Header.Set(key, value)], for a key in canonical form. *)
Definition Header_Set (key val : string) (req : Request) : Request :=
  {| Method := Method req; URL := URL req;
     Header := <[key := val]> (Header req); RequestBody := RequestBody req |}.

(** The text the three operations put after the status line of a response
    that is not 200:
    [b, err := io.ReadAll(resp.Body)], then [readFailMsg] if [err != nil],
    else [rb + string(b)] if [strings.TrimSpace(string(b)) != ""]. *)
Definition failure_msg (resp : Response) : string :=
  let '(b, err) := ReadAll (Body resp) in
  match err with
  | Some _ => readFailMsg
  | None => if decide (strings.TrimSpace b ≠ "") then rb +:+ b else ""
  end.

Section Operations.

(** The collaborators outside the package: form encoding ([net/url]), the
    HTTP exchange ([net/http]) and the Turtle decoder of the RDF package. *)
Variable QueryEscape : string -> string.
Variable http_NewRequest : string -> string -> string -> result Request.
Variable client_Do : Client -> Request -> result Response.
Variable Triple : Type.
Variable Turtle_DecodeAll : Reader -> result (list Triple).

(** The request every operation sends: a POST of the encoded form [b]. *)
Definition post (r : Repo) (b accept : string) : result Response :=
  match http_NewRequest "POST" (endpoint r) b with
  | Err err => Err err
  | Ok req =>
      let req := Header_Set ct ctvalue req in
      let req := Header_Set cl (pretty (String.length b)) req in
      let req := Header_Set "Accept" accept req in
      client_Do (client r) req
  end.

(** [Query] performs a SPARQL HTTP request to the Repo, and returns the
    parsed application/sparql-results+json response. *)
Definition Query (r : Repo) (q : string) : result Results :=
  let b := "query=" +:+ QueryEscape q in
  match post r b "application/sparql-results+json" with
  | Err err => Err err
  | Ok resp =>
      if decide (StatusCode resp ≠ StatusOK) then
        Err (fmtError ("Query: SPARQL request failed: %s. " +:+ failure_msg resp)
                      [Status resp])
      else
        match ParseJSON (Body resp) with
        | (_, Some err) => Err err
        | (results, None) => Ok results
        end
  end.

Definition Update (r : Repo) (q : string) : result string :=
  let b := "update=" +:+ QueryEscape q in
  match post r b "application/sparql-results+json" with
  | Err err => Err err
  | Ok resp =>
      if decide (StatusCode resp ≠ StatusOK) then
        Err (fmtError ("Query: SPARQL request failed: %s. " +:+ failure_msg resp)
                      [Status resp])
      else Ok "OK"
  end.

(** [Construct] performs a SPARQL HTTP request to the Repo, and returns the
    result triples. *)
Definition Construct (r : Repo) (q : string) : result (list Triple) :=
  let b := "format=" +:+ QueryEscape "text/turtle" +:+ "&query=" +:+ QueryEscape q in
  match post r b "text/turtle" with
  | Err err => Err err
  | Ok resp =>
      if decide (StatusCode resp ≠ StatusOK) then
        Err (fmtError ("Construct: SPARQL request failed: %s. " +:+ failure_msg resp)
                      [Status resp])
      else Turtle_DecodeAll (Body resp)
  end.

(** The three operations under one name, to state what they share: the
    form and the [Accept] header each one posts, the word its error message
    starts with, and the error it returns, if any. *)
Inductive operation : Type := OpQuery | OpUpdate | OpConstruct.

Definition form_of (op : operation) (q : string) : string :=
  match op with
  | OpQuery => "query=" +:+ QueryEscape q
  | OpUpdate => "update=" +:+ QueryEscape q
  | OpConstruct => "format=" +:+ QueryEscape "text/turtle" +:+ "&query=" +:+ QueryEscape q
  end.

Definition accept_of (op : operation) : string :=
  match op with
  | OpQuery | OpUpdate => "application/sparql-results+json"
  | OpConstruct => "text/turtle"
  end.

Definition label_of (op : operation) : string :=
  match op with
  | OpQuery | OpUpdate => "Query"
  | OpConstruct => "Construct"
  end.

Definition error_of {A} (res : result A) : option error :=
  match res with Ok _ => None | Err e => Some e end.

Definition failure_of (op : operation) (r : Repo) (q : string) : option error :=
  match op with
  | OpQuery => error_of (Query r q)
  | OpUpdate => error_of (Update r q)
  | OpConstruct => error_of (Construct r q)
  end.

End Operations.

(** ** The term constructors of [github.com/knakk/rdf]

    Modelled from the spec: the RDF package is not among the sources of the
    repository.  The spec gives the terms (an IRI, a blank node by its
    label, a literal with a string value and a language tag, a typed
    literal with a string value and a datatype IRI) and says that an
    invalid IRI and an invalid blank node label are refused.  What the
    constructors refuse is taken from the package's documentation:
    [NewIRI] refuses the empty string and the characters up to the space
    and [<>{}|^`], the double quote and the backslash; [NewBlank] refuses a
    label that is blank; [NewLangLiteral] "fails if the language tag is not
    well-formed": letters, then at most one ['-'] followed by letters and
    digits, no ['-'] first or last. *)
Module rdf.

Record IRI : Type := { iri_str : string }.
Record Blank : Type := { blank_id : string }.
Record Literal : Type := {
  lit_str : string;
  lit_lang : string;       (* empty for a typed literal *)
  lit_DataType : IRI
}.

Definition iri_byte_ok (c : ascii) : bool :=
  negb ((byte_code c <=? 32)%N ||
        is_byte "<" c || is_byte ">" c || is_byte quote c || is_byte "{" c ||
        is_byte "}" c || is_byte "|" c || is_byte "^" c || is_byte "`" c ||
        is_byte backslash c).

Fixpoint string_forall (p : ascii -> bool) (s : string) : bool :=
  match s with
  | EmptyString => true
  | String c s' => p c && string_forall p s'
  end.

Definition NewIRI (iri : string) : result IRI :=
  if decide (String.length iri = 0%nat) then Err (errorString "empty IRI")
  else if string_forall iri_byte_ok iri then Ok {| iri_str := iri |}
  else Err (errorString "disallowed character").

Definition NewBlank (id : string) : result Blank :=
  if decide (String.length (strings.TrimSpace id) = 0%nat)
  then Err (errorString "blank id")
  else Ok {| blank_id := id |}.

Definition is_letter (c : ascii) : bool := byte_in 97 122 c || byte_in 65 90 c.

(** The loop of [NewLangLiteral] over the tag: [afterDash] tells whether
    the ['-'] has been seen. *)
Fixpoint lang_bytes_ok (afterDash : bool) (lang : string) : bool :=
  match lang with
  | EmptyString => true
  | String r lang' =>
      if is_letter r then lang_bytes_ok afterDash lang'
      else if is_byte "-" r then
        if afterDash then false else lang_bytes_ok true lang'
      else if is_digit r then
        if afterDash then lang_bytes_ok afterDash lang' else false
      else false
  end.

Fixpoint last_byte (s : string) : option ascii :=
  match s with
  | EmptyString => None
  | String c EmptyString => Some c
  | String _ s' => last_byte s'
  end.

Definition lang_tag_ok (lang : string) : bool :=
  match lang with
  | EmptyString => false
  | String c _ =>
      negb (is_byte "-" c) && lang_bytes_ok false lang &&
      match last_byte lang with Some d => negb (is_byte "-" d) | None => false end
  end.

Definition rdfLangString : IRI :=
  {| iri_str := "http://www.w3.org/1999/02/22-rdf-syntax-ns#langString" |}.

(** [termFromJSON] calls it with a tag that is not empty. *)
Definition NewLangLiteral (v lang : string) : result Literal :=
  if lang_tag_ok lang
  then Ok {| lit_str := v; lit_lang := lang; lit_DataType := rdfLangString |}
  else Err (errorString "invalid language tag").

Definition NewTypedLiteral (v : string) (dt : IRI) : Literal :=
  {| lit_str := v; lit_lang := ""; lit_DataType := dt |}.

End rdf.

#[global] Instance knakk_rdf : RdfPackage := {|
  IRI := rdf.IRI;
  Blank := rdf.Blank;
  Literal := rdf.Literal;
  IRI_zero := {| rdf.iri_str := "" |};
  NewIRI := rdf.NewIRI;
  NewBlank := rdf.NewBlank;
  NewLangLiteral := rdf.NewLangLiteral;
  NewTypedLiteral := rdf.NewTypedLiteral
|}.

(** A language-tagged literal and a typed literal of the package, as terms. *)
Definition LangLiteral (v lang : string) : @Term knakk_rdf :=
  TermLiteral {| rdf.lit_str := v; rdf.lit_lang := lang;
                 rdf.lit_DataType := rdf.rdfLangString |}.

Definition TypedLiteral (v datatype : string) : @Term knakk_rdf :=
  TermLiteral {| rdf.lit_str := v; rdf.lit_lang := "";
                 rdf.lit_DataType := {| rdf.iri_str := datatype |} |}.

(** ** Notions the properties are stated with *)

Section MaterializationNotions.
Context `{RdfPackage}.

(** The term of a binding when [termFromJSON] succeeds on it. *)
Definition term_of (b : Binding) : option Term := ok_value (termFromJSON b).

(** The bindings of a row that materialize, each with its term. *)
Definition materialized (s : gmap string Binding) : gmap string Term :=
  omap term_of s.

(** The terms variable [v] gets from the rows, in row order: the rows that
    do not bind [v], or whose binding fails to materialize, give none. *)
Definition terms_of (v : string) (rs : list (gmap string Binding)) : list Term :=
  omap (fun s : gmap string Binding => term_of (s !!! v)) rs.

End MaterializationNotions.

(** A binding whose kind is none of the four known ones. *)
Definition unknown_kind (b : Binding) : Prop :=
  Type_ b ≠ "uri" ∧ Type_ b ≠ "literal" ∧ Type_ b ≠ "typed-literal" ∧ Type_ b ≠ "bnode".

(** The result [r] with other solution rows. *)
Definition with_rows (r : Results) (rs : list (gmap string Binding)) : Results :=
  {| Head := Head r;
     Results_results :=
       {| Distinct := Distinct (Results_results r);
          Ordered := Ordered (Results_results r);
          results_Bindings := rs |} |}.

(** The result [r] without the binding of variable [k] in row [i]. *)
Definition without_binding (r : Results) (i : nat) (k : string) : Results :=
  with_rows r (alter (delete k) i (rows r)).

(** A well-formed result declares every variable once. *)
Definition well_formed (r : Results) : Prop := NoDup (Vars (Head r)).

(** The number of times [v] is declared in the head. *)
Definition declared_times (v : string) (vars : list string) : nat :=
  length (filter (fun x => x = v) vars).

(** [strings.Contains]. *)
Fixpoint Contains (s substr : string) : bool :=
  match json.strip_prefix substr s with
  | Some _ => true
  | None =>
      match s with
      | EmptyString => false
      | String _ s' => Contains s' substr
      end
  end.

Fixpoint no_percent (s : string) : bool :=
  match s with
  | EmptyString => true
  | String c s' => negb (is_byte "%" c) && no_percent s'
  end.

(** An endpoint that answers every request with the response [resp]. *)
Definition stub_NewRequest (method url body : string) : result Request :=
  Ok {| Method := method; URL := url; Header := ∅; RequestBody := body |}.

Definition stub_Do (resp : Response) (c : Client) (req : Request) : result Response :=
  Ok resp.

Definition stub_DecodeAll (r : Reader) : result (list unit) := Ok [].

Definition stub_Repo : Repo :=
  {| endpoint := "http://localhost:3030/ds/sparql";
     client := {| Transport := DefaultTransport; client_Timeout := 0 |} |}.

(** An option that always fails. *)
Definition failing_option (msg : string) : RepoOption :=
  fun r => (r, Some (errorString msg)).

(** What holds of a scanner while [readValue] runs it: no error has been
    recorded, the state after the top-level value is entered with [endTop]
    set, and the state after a ['['] is entered with the array on the
    stack. *)
Definition scanner_ok (s : json.scanner) : Prop :=
  json.err s = false
  ∧ (json.step s = json.EndTop -> json.endTop s = true)
  ∧ (json.step s = json.BeginValueOrEmpty -> json.parseState s ≠ []).

(** Case analysis on one step of the scanner. *)
Ltac scan_unfold :=
  unfold json.scan_step, json.stateBeginValueOrEmpty, json.stateBeginValue,
    json.stateBeginStringOrEmpty, json.stateBeginString, json.stateInString,
    json.stateInStringEsc, json.stateHex, json.stateNeg, json.state1, json.state0,
    json.stateDot, json.stateDot0, json.stateE, json.stateESign, json.stateE0,
    json.stateLit, json.stateEndValue, json.stateEndTop, json.pushParseState,
    json.popParseState, json.error_, json.set_step, json.set_parseState in *.

Ltac scan_split :=
  repeat match goal with
    | |- context [match ?ps with [] => _ | _ :: _ => _ end] => destruct ps
    | |- context [match ?p with json.parseObjectKey => _ | _ => _ end] => destruct p
    | |- context [if ?b then _ else _] => destruct b eqn:?
    end.

(** A scanner in state [st] with [ps] on its stack, no error recorded and
    the top-level value not yet ended. *)
Definition cfg (st : json.step_fn) (ps : list json.parse_state) : json.scanner :=
  {| json.step := st; json.parseState := ps; json.err := false; json.endTop := false |}.

(** The scanner after the bracket that closes the top-level value. *)
Definition top_done : json.scanner :=
  {| json.step := json.EndTop; json.parseState := []; json.err := false;
     json.endTop := true |}.

(** From [sc] on, the scanner reads [s] without an error and takes the end
    of input as the end of the value. *)
Definition accepts (sc : json.scanner) (s : string) : Prop :=
  match json.scan_all sc s with
  | Some sf => json.eof sf = json.scanEnd
  | None => False
  end.

(** The states inside a string, but for the one after a backslash. *)
Definition string_state (st : json.step_fn) : Prop :=
  st = json.InString ∨ st = json.InStringEscU ∨ st = json.InStringEscU1
  ∨ st = json.InStringEscU12 ∨ st = json.InStringEscU123.

(** Case analysis on a test of the scanner, the outcome recorded in every
    hypothesis. *)
Tactic Notation "test_on" constr(b) "as" ident(E) :=
  destruct b eqn:E;
  repeat match goal with
    | H : context [b] |- _ =>
        tryif constr_eq H E then fail else rewrite E in H
    end;
  simpl in *.

(** The states inside a number: those a number can end in, and the
    others. *)
Definition final_number_state (st : json.step_fn) : Prop :=
  st = json.St1 ∨ st = json.St0 ∨ st = json.Dot0 ∨ st = json.E0.

Definition inner_number_state (st : json.step_fn) : Prop :=
  st = json.Neg ∨ st = json.Dot ∨ st = json.StE ∨ st = json.ESign.

Definition number_state (st : json.step_fn) : Prop :=
  final_number_state st ∨ inner_number_state st.

(** The states that skip white space and stay as they are. *)
Definition skipping (st : json.step_fn) (ps : list json.parse_state) : Prop :=
  st = json.BeginValue ∨ st = json.BeginValueOrEmpty ∨ st = json.BeginString
  ∨ st = json.BeginStringOrEmpty ∨ (st = json.EndValue ∧ ps ≠ []).

(** Bindings and a result to evaluate the definitions on. *)
Definition example_uri : Binding :=
  {| Type_ := "uri"; Value := "http://example.org/x"; Lang := ""; DataType := "" |}.

Definition example_unknown : Binding :=
  {| Type_ := "foo"; Value := "v"; Lang := ""; DataType := "" |}.

Definition example_plain : Binding :=
  {| Type_ := "literal"; Value := "hello"; Lang := ""; DataType := "" |}.

Definition example_lang : Binding :=
  {| Type_ := "literal"; Value := "hi"; Lang := "en"; DataType := "" |}.

Definition example_bad_lang : Binding :=
  {| Type_ := "literal"; Value := "hi"; Lang := "-"; DataType := "" |}.

Definition example_row : gmap string Binding :=
  {[ "x" := example_uri; "y" := example_unknown ]}.

Definition example_result : Results :=
  {| Head := {| Link := []; Vars := ["x"; "y"] |};
     Results_results :=
       {| Distinct := false; Ordered := false;
          results_Bindings := [example_row; {[ "x" := example_plain ]}] |} |}.

(** Responses of a failing endpoint: with a body, with an empty body, and
    with a body that holds a ['%']. *)
Definition response_500 (body : string) : Response :=
  {| Status := "500 Internal Server Error"; StatusCode := 500; Body := NewReader body |}.

Definition stub_Query (resp : Response) : result Results :=
  Query (fun s => s) stub_NewRequest (stub_Do resp) stub_Repo "ASK {}".

(** A JSON text written with ['] where JSON has the double quote, and a
    response document of a SPARQL endpoint. *)
Fixpoint json_text (s : string) : string :=
  match s with
  | EmptyString => EmptyString
  | String c s' => String (if is_byte "'" c then quote else c) (json_text s')
  end.

Definition example_document : string :=
  json_text
    ("{'head': {'vars': ['x', 'y']}, 'results': {'bindings': [" +:+
     "{'x': {'type': 'uri', 'value': 'http://example.org/x'}," +:+
     " 'y': {'type': 'literal', 'value': 'hi', 'xml:lang': 'en'}}," +:+
     "{'x': {'type': 'typed-literal', 'value': '42'," +:+
     " 'datatype': 'http://www.w3.org/2001/XMLSchema#integer'}}]}} ").

Definition example_typed : Binding :=
  {| Type_ := "typed-literal"; Value := "42"; Lang := "";
     DataType := "http://www.w3.org/2001/XMLSchema#integer" |}.

Definition example_document_result : Results :=
  {| Head := {| Link := []; Vars := ["x"; "y"] |};
     Results_results :=
       {| Distinct := false; Ordered := false;
          results_Bindings :=
            [ {[ "x" := example_uri; "y" := example_lang ]};
              {[ "x" := example_typed ]} ] |} |}.

(** ** The search helpers (sparql.go) *)

(** [FindObjectValueByPredicate]: the first row whose binding of ["p"] has
    a value that contains [needle], or an empty map. *)
Fixpoint FindObjectValueByPredicate (needle : string)
    (haystack : list (gmap string Binding)) : gmap string Binding :=
  match haystack with
  | [] => ∅
  | term :: haystack' =>
      match term !! "p" with
      | Some val =>
          if Contains (Value val) needle then term
          else FindObjectValueByPredicate needle haystack'
      | None => FindObjectValueByPredicate needle haystack'
      end
  end.

(** [FindObjectValueBySpecifiedPredicate]: the same search on the binding
    of the variable [predicate]. *)
Fixpoint FindObjectValueBySpecifiedPredicate (needle predicate : string)
    (haystack : list (gmap string Binding)) : gmap string Binding :=
  match haystack with
  | [] => ∅
  | term :: haystack' =>
      match term !! predicate with
      | Some val =>
          if Contains (Value val) needle then term
          else FindObjectValueBySpecifiedPredicate needle predicate haystack'
      | None => FindObjectValueBySpecifiedPredicate needle predicate haystack'
      end
  end.

(** The row [term] binds [predicate] to a value that contains [needle]. *)
Definition matches (needle predicate : string) (term : gmap string Binding) : Prop :=
  exists val, term !! predicate = Some val ∧ Contains (Value val) needle = true.

#[global] Instance matches_dec needle predicate term : Decision (matches needle predicate term).
Proof.
  unfold matches. destruct (term !! predicate) as [val|].
  - destruct (Contains (Value val) needle) eqn:E.
    + left. by exists val.
    + right. intros (v & [= <-] & Hv). congruence.
  - right. by intros (v & Hv & _).
Defined.

(** The rows of [results] that bind [needle] to a binding of value [val]. *)
Definition group_of (needle val : string) (results : list (gmap string Binding))
    : list (gmap string Binding) :=
  filter (fun term => Value <$> term !! needle = Some val) results.

(** The rows of [results] that bind [needle]. *)
Definition binding_rows (needle : string) (results : list (gmap string Binding))
    : list (gmap string Binding) :=
  filter (fun term => is_Some (term !! needle)) results.

(** The rows of all the groups of a grouping, one group after the other. *)
Definition grouped_rows (m : gmap string (list (gmap string Binding)))
    : list (gmap string Binding) :=
  concat (map_to_list m).*2.

(** ** Notions for the further properties of materialization *)

(** The binding [b] with other fields. *)
Definition with_DataType (b : Binding) (datatype : string) : Binding :=
  {| Type_ := Type_ b; Value := Value b; Lang := Lang b; DataType := datatype |}.

Definition with_Lang (b : Binding) (lang : string) : Binding :=
  {| Type_ := Type_ b; Value := Value b; Lang := lang; DataType := DataType b |}.

(** ** The options of the package (repo.go) *)

(** The two options the package provides, by name. *)
Inductive package_option : Type :=
  | UseDigestAuth (username password : string)
  | UseTimeout (t : Z).

Definition option_of (o : package_option) : RepoOption :=
  match o with
  | UseDigestAuth username password => DigestAuth username password
  | UseTimeout t => Timeout t
  end.

(** The client [c] after the writes of the options [os], one after the
    other. *)
Definition configure_step (c : Client) (o : package_option) : Client :=
  match o with
  | UseDigestAuth username password =>
      {| Transport := DigestTransport username password;
         client_Timeout := client_Timeout c |}
  | UseTimeout t => {| Transport := Transport c; client_Timeout := t |}
  end.

Definition configured (c : Client) (os : list package_option) : Client :=
  foldl configure_step c os.

(** The transport of the last [DigestAuth] among [os], the timeout of the
    last [Timeout]. *)
Definition last_Transport (os : list package_option) : option RoundTripper :=
  last (omap (fun o => match o with
                       | UseDigestAuth username password =>
                           Some (DigestTransport username password)
                       | UseTimeout _ => None
                       end) os).

Definition last_Timeout (os : list package_option) : option Z :=
  last (omap (fun o => match o with
                       | UseDigestAuth _ _ => None
                       | UseTimeout t => Some t
                       end) os).

(** ** Repository construction on the shared client

    [NewRepo] stores the pointer [http.DefaultClient] in the [Repo], and
    the options of the package write through it.  Here the clients live on
    a heap and a [Repo] holds an address. *)
Module shared.

(** [Repo]; [client] is a [*http.Client]: an address, or nil. *)
Record Repo : Type := {
  endpoint : string;
  client : option N
}.

(** The zero value [Repo{}]. *)
Definition Repo_zero : Repo := {| endpoint := ""; client := None |}.

(** The state the package reads and writes: the clients on the heap and
    the variable [http.DefaultClient]. *)
Record World : Type := {
  clients : N -> Client;
  DefaultClient : option N
}.

(** A call returns, or panics (on a nil pointer). *)
Inductive outcome (A : Type) : Type :=
  | Returns (a : A)
  | Panics.
Arguments Returns {A} a.
Arguments Panics {A}.

(** [*p = c] *)
Definition write (a : N) (c : Client) (w : World) : World :=
  {| clients := fun a' => if decide (a' = a) then c else clients w a';
     DefaultClient := DefaultClient w |}.

(** A functional option, [func(r *Repo) error]. *)
Abbreviation RepoOption := (Repo -> World -> outcome (Repo * World * option error)).

(** [SetOption] takes one or more option function and applies them in order
    to Repo. *)
Fixpoint SetOption (options : list RepoOption) (r : Repo) (w : World)
    : outcome (Repo * World * option error) :=
  match options with
  | [] => Returns (r, w, None)
  | opt :: options' =>
      match opt r w with
      | Panics => Panics
      | Returns (r', w', Some err) => Returns (r', w', Some err)
      | Returns (r', w', None) => SetOption options' r' w'
      end
  end.

(** [NewRepo] creates a new representation of a RDF repository. *)
Definition NewRepo (addr : string) (options : list RepoOption) (w : World)
    : outcome (Repo * World * option error) :=
  let r := {| endpoint := addr; client := DefaultClient w |} in
  SetOption options r w.

(** [DigestAuth]: [r.client.Transport = digest.NewTransport(username, password)]. *)
Definition DigestAuth (username password : string) : RepoOption :=
  fun r w =>
    match client r with
    | None => Panics
    | Some a =>
        Returns (r,
                 write a {| Transport := DigestTransport username password;
                            client_Timeout := client_Timeout (clients w a) |} w,
                 None)
    end.

(** [Timeout]: [r.client.Timeout = t]. *)
Definition Timeout (t : Z) : RepoOption :=
  fun r w =>
    match client r with
    | None => Panics
    | Some a =>
        Returns (r,
                 write a {| Transport := Transport (clients w a); client_Timeout := t |} w,
                 None)
    end.

Definition option_of (o : package_option) : RepoOption :=
  match o with
  | UseDigestAuth username password => DigestAuth username password
  | UseTimeout t => Timeout t
  end.

(** The client a [Repo] uses, [*r.client]. *)
Definition client_of (r : Repo) (w : World) : option Client :=
  clients w <$> client r.

End shared.

(** ** The request of an operation *)

(** The request an operation hands to the client: the request
    [http.NewRequest] has built, with the three headers set. *)
Definition with_headers (b accept : string) (req : Request) : Request :=
  Header_Set "Accept" accept
    (Header_Set cl (pretty (String.length b)) (Header_Set ct ctvalue req)).

(** ** Form encoding (package net/url)

    The package belongs to Go's standard library, not to the repository;
    the model follows the library.  The three operations encode their form
    with [url.Values.Encode], which escapes keys and values with
    [QueryEscape]; [QueryUnescape] and [ParseQuery] are what the receiver of
    the form reads it with. *)
Module url.

(** [shouldEscape(c, encodeQueryComponent)]. *)
Definition shouldEscape (c : ascii) : bool :=
  if byte_in 97 122 c || byte_in 65 90 c || byte_in 48 57 c then false
  else if is_byte "-" c || is_byte "_" c || is_byte "." c || is_byte "~" c then false
  else true.

(** [upperhex[n]], for [n] below 16. *)
Definition upperhex (n : N) : ascii :=
  match String.get (N.to_nat n) "0123456789ABCDEF" with
  | Some c => c
  | None => byte_of 0
  end.

(** [QueryEscape] escapes the string so it can be safely placed inside a
    URL query. *)
Fixpoint QueryEscape (s : string) : string :=
  match s with
  | EmptyString => EmptyString
  | String c s' =>
      if is_byte " " c then String "+" (QueryEscape s')
      else if shouldEscape c then
        String "%" (String (upperhex (byte_code c / 16))
                      (String (upperhex (byte_code c mod 16)) (QueryEscape s')))
      else String c (QueryEscape s')
  end.

Definition ishex (c : ascii) : bool :=
  byte_in 48 57 c || byte_in 97 102 c || byte_in 65 70 c.

Definition unhex (c : ascii) : N :=
  (if byte_in 48 57 c then byte_code c - 48
   else if byte_in 97 102 c then byte_code c - 97 + 10
   else if byte_in 65 70 c then byte_code c - 65 + 10
   else 0)%N.

Inductive error : Type :=
  | EscapeError (s : string)      (* invalid URL escape *)
  | SemicolonError.               (* invalid semicolon separator in query *)

(** [QueryUnescape] does the inverse transformation of [QueryEscape]; it
    returns an error if any ['%'] is not followed by two hexadecimal
    digits. *)
Fixpoint QueryUnescape (s : string) : error + string :=
  match s with
  | EmptyString => inr EmptyString
  | String c s' =>
      if is_byte "%" c then
        match s' with
        | String h (String l s'') =>
            if ishex h && ishex l then
              match QueryUnescape s'' with
              | inr t => inr (String (byte_of (unhex h * 16 + unhex l)) t)
              | inl e => inl e
              end
            else inl (EscapeError (String c (String h (String l EmptyString))))
        | _ => inl (EscapeError s)
        end
      else
        match QueryUnescape s' with
        | inr t => inr (String (if is_byte "+" c then " "%char else c) t)
        | inl e => inl e
        end
  end.

(** [strings.Cut(s, sep)] for a separator of one byte: the text before the
    first [sep] and the text after it; all of [s] and nothing when [sep]
    does not occur. *)
Fixpoint Cut (sep : ascii) (s : string) : string * string :=
  match s with
  | EmptyString => (EmptyString, EmptyString)
  | String c s' =>
      if is_byte sep c then (EmptyString, s')
      else let '(before, after) := Cut sep s' in (String c before, after)
  end.

(** The loop of [parseQuery]. *)
Fixpoint parseQuery (fuel : nat) (m : gmap string (list string)) (err : option error)
    (query : string) : gmap string (list string) * option error :=
  match fuel with
  | O => (m, err)
  | S fuel' =>
      if decide (query = "") then (m, err)
      else
        let '(key, query') := Cut "&" query in
        if Contains key ";" then parseQuery fuel' m (Some SemicolonError) query'
        else if decide (key = "") then parseQuery fuel' m err query'
        else
          let '(key, value) := Cut "=" key in
          match QueryUnescape key with
          | inl err1 =>
              parseQuery fuel' m (match err with None => Some err1 | _ => err end) query'
          | inr key =>
              match QueryUnescape value with
              | inl err1 =>
                  parseQuery fuel' m (match err with None => Some err1 | _ => err end)
                             query'
              | inr value => parseQuery fuel' (<[key := m !!! key ++ [value]]> m) err query'
              end
          end
  end.

(** [ParseQuery] parses the URL-encoded query string and returns a map
    listing the values specified for each key, with the first error if
    any. *)
Definition ParseQuery (query : string) : gmap string (list string) * option error :=
  parseQuery (S (String.length query)) ∅ None query.

End url.

(** The byte [c] occurs in [s]. *)
Fixpoint has_byte (c : ascii) (s : string) : bool :=
  match s with
  | EmptyString => false
  | String d s' => is_byte c d || has_byte c s'
  end.

(** The bytes [QueryEscape] writes. *)
Definition form_byte (c : ascii) : bool :=
  negb (url.shouldEscape c) || is_byte "%" c || is_byte "+" c.

(** ** Notions for the further properties of decoding *)

(** The scanner is inside the top-level object or array. *)
Definition inside (s : json.scanner) : Prop :=
  scanner_ok s ∧ json.parseState s ≠ [] ∧ json.step s ≠ json.EndTop.

#[global] Instance opcode_eq_dec : EqDecision json.opcode.
Proof. solve_decision. Defined.

(** An error of storing a value: none, or a mismatch of types. *)
Definition type_error_or_none (e : option error) : Prop :=
  e = None ∨ exists v, e = Some (json.type_error v).

(** Values to evaluate the further definitions on. *)
Definition example_world : shared.World :=
  {| shared.clients := fun _ => {| Transport := DefaultTransport; client_Timeout := 0 |};
     shared.DefaultClient := Some 0%N |}.

Definition response_200 (body : string) : Response :=
  {| Status := "200 OK"; StatusCode := 200; Body := NewReader body |}.

(** A client whose every exchange fails. *)
Definition refusing_Do (c : Client) (req : Request) : result Response :=
  Err (errorString "connection refused").

(** * Properties *)

(** ** Term materialization *)

Section MaterializationFacts.
Context `{RdfPackage}.

Lemma termFromJSON_unknown (b : Binding) :
  unknown_kind b -> termFromJSON b = Err (errorString "unknown term type").
Proof.
  intros (Huri & Hlit & Htyped & Hbnode). unfold termFromJSON.
  repeat case_decide; congruence.
Qed.

Lemma Binding_zero_unknown : unknown_kind Binding_zero.
Proof. repeat split; discriminate. Qed.

Lemma term_of_unknown (b : Binding) : unknown_kind b -> term_of b = None.
Proof. intros Hb. unfold term_of. by rewrite termFromJSON_unknown. Qed.

(** For a literal binding [termFromJSON] hands back what the constructor of
    the package returns. *)
Lemma termFromJSON_literal (b : Binding) :
  Type_ b = "literal" ->
  termFromJSON b =
    if decide (Lang b ≠ "")
    then result_map TermLiteral (NewLangLiteral (Value b) (Lang b))
    else Ok (TermLiteral (NewTypedLiteral (Value b) xsdString)).
Proof.
  intros Hk. unfold termFromJSON. rewrite Hk.
  repeat case_decide; done.
Qed.

(** *** One row of [Solutions] *)

Lemma Solutions_step_lookup (sol : gmap string Term) (k k' : string) (b : Binding) :
  Solutions_step sol (k, b) !! k' =
    if decide (k = k')
    then match term_of b with Some t => Some t | None => sol !! k' end
    else sol !! k'.
Proof.
  unfold Solutions_step, term_of, ok_value. simpl.
  destruct (termFromJSON b); case_decide; simplify_map_eq; done.
Qed.

Lemma foldl_Solutions_step_lookup (kvs : list (string * Binding)) :
  NoDup kvs.*1 ->
  forall (acc : gmap string Term) (k : string),
    foldl Solutions_step acc kvs !! k =
      match (list_to_map kvs : gmap string Binding) !! k with
      | Some b => match term_of b with Some t => Some t | None => acc !! k end
      | None => acc !! k
      end.
Proof.
  induction kvs as [|[k0 b0] kvs IH]; intros Hnd acc k; simpl.
  - by rewrite lookup_empty.
  - apply NoDup_cons in Hnd as [Hk0 Hnd].
    rewrite (IH Hnd), Solutions_step_lookup.
    destruct (decide (k0 = k)) as [->|Hne].
    + rewrite lookup_insert_eq.
      by rewrite (not_elem_of_list_to_map_1 _ _ Hk0).
    + by rewrite lookup_insert_ne.
Qed.

(** In whatever order the entries of a row are visited, the loop leaves
    exactly the bindings that materialize. *)
Lemma solution_of_materialized (kvs : list (string * Binding)) (s : gmap string Binding) :
  kvs ≡ₚ map_to_list s -> solution_of kvs = materialized s.
Proof.
  intros Hp.
  assert (Hnd : NoDup kvs.*1).
  { rewrite Hp. apply NoDup_fst_map_to_list. }
  assert (Hs : (list_to_map kvs : gmap string Binding) = s).
  { rewrite (list_to_map_proper kvs (map_to_list s) Hnd Hp).
    apply list_to_map_to_list. }
  apply map_eq. intros k. unfold solution_of, materialized.
  rewrite (foldl_Solutions_step_lookup _ Hnd), Hs, lookup_omap, lookup_empty.
  destruct (s !! k) as [b|]; simpl; [|done]. by destruct (term_of b).
Qed.

Lemma foldl_snoc_map {A B} (f : A -> B) (l : list A) (acc : list B) :
  foldl (fun rs x => rs ++ [f x]) acc l = acc ++ map f l.
Proof.
  revert acc. induction l as [|x l IH]; intros acc; simpl.
  - by rewrite app_nil_r.
  - rewrite IH. by rewrite <- app_assoc.
Qed.

Lemma Solutions_in_map (schedule : list (list (string * Binding))) :
  Solutions_in schedule = map solution_of schedule.
Proof. unfold Solutions_in. by rewrite foldl_snoc_map. Qed.

(** Under every admissible schedule [Solutions] returns, row by row, the
    bindings that materialize. *)
Lemma Solutions_in_spec (r : Results) (schedule : list (list (string * Binding))) :
  range_schedule r schedule -> Solutions_in schedule = materialized <$> rows r.
Proof.
  unfold range_schedule. rewrite Solutions_in_map.
  induction 1 as [|kvs s sch rs Hp _ IH]; simpl; [done|].
  by rewrite IH, (solution_of_materialized _ _ Hp).
Qed.

Lemma canonical_schedule (r : Results) : range_schedule r (map_to_list <$> rows r).
Proof.
  unfold range_schedule. induction (rows r) as [|s rs IH]; simpl; constructor; auto.
Qed.

Lemma Solutions_spec (r : Results) : Solutions r = materialized <$> rows r.
Proof. apply Solutions_in_spec, canonical_schedule. Qed.

End MaterializationFacts.

Section BindingsFacts.
Context `{RdfPackage}.

Lemma terms_of_cons (v : string) (s : gmap string Binding) (rs : list (gmap string Binding)) :
  terms_of v (s :: rs) = option_list (term_of (s !!! v)) ++ terms_of v rs.
Proof. unfold terms_of. simpl. by destruct (term_of (s !!! v)). Qed.

Lemma length_terms_of (v : string) (rs : list (gmap string Binding)) :
  (length (terms_of v rs) <= length rs)%nat.
Proof.
  induction rs as [|s rs IH]; [done|]. 
  rewrite terms_of_cons, length_app. simpl.
  destruct (term_of (s !!! v)); simpl; lia.
Qed.

Lemma Bindings_step_total (v : string) (rb : gmap string (list Term))
    (s : gmap string Binding) (k : string) :
  Bindings_step v rb s !!! k =
    if decide (k = v) then (rb !!! v) ++ option_list (term_of (s !!! v)) else rb !!! k.
Proof.
  unfold Bindings_step, term_of, ok_value.
  destruct (termFromJSON (s !!! v)); case_decide; subst; simpl.
  - by rewrite lookup_total_insert_eq.
  - by rewrite lookup_total_insert_ne.
  - by rewrite app_nil_r.
  - done.
Qed.

Lemma foldl_Bindings_step_total (v : string) (rs : list (gmap string Binding))
    (rb : gmap string (list Term)) (k : string) :
  foldl (Bindings_step v) rb rs !!! k =
    if decide (k = v) then (rb !!! v) ++ terms_of v rs else rb !!! k.
Proof.
  revert rb. induction rs as [|s rs IH]; intros rb; cbn [foldl].
  - case_decide; subst; [by rewrite app_nil_r | done].
  - rewrite IH, !Bindings_step_total, terms_of_cons.
    repeat case_decide; try done. by rewrite app_assoc.
Qed.

Lemma declared_times_cons (v x : string) (vars : list string) :
  declared_times v (x :: vars) =
    if decide (x = v) then S (declared_times v vars) else declared_times v vars.
Proof. unfold declared_times. rewrite filter_cons. by case_decide. Qed.

Lemma foldl_vars_total (rs : list (gmap string Binding)) (vars : list string)
    (rb : gmap string (list Term)) (v : string) :
  foldl (fun rb v => foldl (Bindings_step v) rb rs) rb vars !!! v =
    (rb !!! v) ++ mjoin (replicate (declared_times v vars) (terms_of v rs)).
Proof.
  revert rb. induction vars as [|x vars IH]; intros rb; cbn [foldl].
  - by rewrite app_nil_r.
  - rewrite IH, foldl_Bindings_step_total, declared_times_cons.
    repeat case_decide; subst; try done. simpl. by rewrite <- app_assoc.
Qed.

(** The sequence [Bindings] gives a variable: the terms of its bindings
    that materialize, in row order, once for every time the variable is
    declared. *)
Lemma Bindings_total (r : Results) (v : string) :
  Bindings r !!! v =
    mjoin (replicate (declared_times v (Vars (Head r))) (terms_of v (rows r))).
Proof. unfold Bindings. by rewrite foldl_vars_total, lookup_total_empty. Qed.

Lemma declared_times_not_elem_of (v : string) (vars : list string) :
  v ∉ vars -> declared_times v vars = 0%nat.
Proof.
  induction vars as [|x vars IH]; intros Hv; [done|].
  rewrite declared_times_cons. apply not_elem_of_cons in Hv as [Hne Hv].
  case_decide; [congruence | auto].
Qed.

Lemma declared_times_NoDup (v : string) (vars : list string) :
  NoDup vars -> (declared_times v vars <= 1)%nat.
Proof.
  induction 1 as [|x vars Hx _ IH]; [cbn; lia|].
  rewrite declared_times_cons. case_decide; [subst|done].
  by rewrite declared_times_not_elem_of.
Qed.

Lemma declared_times_elem_of (v : string) (vars : list string) :
  v ∈ vars -> (1 <= declared_times v vars)%nat.
Proof.
  induction 1 as [x vars|x y vars _ IH]; rewrite declared_times_cons;
    case_decide; try done; lia.
Qed.

Lemma Bindings_step_dom (v : string) (rb : gmap string (list Term)) (s : gmap string Binding) :
  dom (Bindings_step v rb s) ⊆ {[v]} ∪ dom rb.
Proof.
  unfold Bindings_step. destruct (termFromJSON (s !!! v)); [|set_solver].
  rewrite dom_insert_L. set_solver.
Qed.

Lemma foldl_Bindings_step_dom (v : string) (rs : list (gmap string Binding))
    (rb : gmap string (list Term)) :
  dom (foldl (Bindings_step v) rb rs) ⊆ {[v]} ∪ dom rb.
Proof.
  revert rb. induction rs as [|s rs IH]; intros rb; simpl; [set_solver|].
  pose proof (IH (Bindings_step v rb s)). pose proof (Bindings_step_dom v rb s).
  set_solver.
Qed.

Lemma Bindings_dom (r : Results) : dom (Bindings r) ⊆ list_to_set (Vars (Head r)).
Proof.
  unfold Bindings.
  assert (Hgen : forall vars (rb : gmap string (list Term)),
    dom (foldl (fun rb v => foldl (Bindings_step v) rb (rows r)) rb vars)
      ⊆ dom rb ∪ list_to_set vars).
  { induction vars as [|x vars IH]; intros rb; simpl; [set_solver|].
    pose proof (IH (foldl (Bindings_step x) rb (rows r))).
    pose proof (foldl_Bindings_step_dom x (rows r) rb). set_solver. }
  pose proof (Hgen (Vars (Head r)) ∅) as Hd. rewrite dom_empty_L in Hd. set_solver.
Qed.

Lemma size_list_to_set_le (vars : list string) :
  (size (list_to_set vars : gset string) <= length vars)%nat.
Proof.
  induction vars as [|x vars IH].
  - by rewrite list_to_set_nil, size_empty.
  - rewrite list_to_set_cons. cbn [length].
    destruct (decide (x ∈ (list_to_set vars : gset string))) as [Hin|Hout].
    + assert ({[x]} ∪ list_to_set vars = (list_to_set vars : gset string)) as ->
        by set_solver.
      lia.
    + rewrite size_union by set_solver. rewrite size_singleton. lia.
Qed.

(** Removing a binding of unknown kind from its row changes no step of
    [Bindings]. *)
Lemma Bindings_step_delete_unknown (v k : string) (rb : gmap string (list Term))
    (s : gmap string Binding) (b : Binding) :
  s !! k = Some b -> unknown_kind b ->
  Bindings_step v rb (delete k s) = Bindings_step v rb s.
Proof.
  intros Hs Hb. unfold Bindings_step.
  destruct (decide (v = k)) as [->|Hne].
  - rewrite lookup_total_delete_eq.
    rewrite (lookup_total_correct _ _ _ Hs).
    rewrite (termFromJSON_unknown b Hb).
    change (@inhabitant Binding _) with Binding_zero.
    by rewrite (termFromJSON_unknown Binding_zero Binding_zero_unknown).
  - by rewrite lookup_total_delete_ne.
Qed.

Lemma materialized_delete_unknown (k : string) (s : gmap string Binding) (b : Binding) :
  s !! k = Some b -> unknown_kind b -> materialized (delete k s) = materialized s.
Proof.
  intros Hs Hb. unfold materialized. apply map_eq. intros k'.
  rewrite !lookup_omap. destruct (decide (k' = k)) as [->|Hne].
  - rewrite lookup_delete_eq, Hs. simpl. by rewrite term_of_unknown.
  - by rewrite lookup_delete_ne.
Qed.

End BindingsFacts.

Section MaterializationClaims.
Context `{RdfPackage}.

Lemma with_rows_rows (r : Results) : with_rows r (rows r) = r.
Proof. by destruct r as [h [d o bs]]. Qed.

Lemma foldl_Bindings_step_alter (v k : string) (b : Binding) (rs : list (gmap string Binding)) :
  unknown_kind b ->
  forall (i : nat) (s : gmap string Binding) (rb : gmap string (list Term)),
    rs !! i = Some s -> s !! k = Some b ->
    foldl (Bindings_step v) rb (alter (delete k) i rs) = foldl (Bindings_step v) rb rs.
Proof.
  intros Hb. induction rs as [|s0 rs IH]; intros i s rb Hi Hs; [done|].
  destruct i as [|i]; simpl in *.
  - injection Hi as ->. by rewrite (Bindings_step_delete_unknown v k rb s b).
  - by rewrite (IH i s).
Qed.

Lemma Bindings_with_rows_ext (r : Results) (rs1 rs2 : list (gmap string Binding)) :
  (forall v (rb : gmap string (list Term)),
     foldl (Bindings_step v) rb rs1 = foldl (Bindings_step v) rb rs2) ->
  Bindings (with_rows r rs1) = Bindings (with_rows r rs2).
Proof.
  intros Hext. unfold Bindings.
  change (rows (with_rows r rs1)) with rs1.
  change (rows (with_rows r rs2)) with rs2.
  change (Vars (Head (with_rows r rs1))) with (Vars (Head r)).
  change (Vars (Head (with_rows r rs2))) with (Vars (Head r)).
  generalize (∅ : gmap string (list Term)).
  induction (Vars (Head r)) as [|v vars IH]; intros rb; [done|].
  cbn [foldl]. rewrite Hext. apply IH.
Qed.

Lemma Bindings_without_unknown (r : Results) (i : nat) (s : gmap string Binding)
    (k : string) (b : Binding) :
  unknown_kind b -> rows r !! i = Some s -> s !! k = Some b ->
  Bindings (without_binding r i k) = Bindings r.
Proof.
  intros Hb Hi Hs. unfold without_binding.
  rewrite <- (with_rows_rows r) at 3.
  apply Bindings_with_rows_ext. intros v rb.
  by apply (foldl_Bindings_step_alter v k b (rows r) Hb i s rb).
Qed.

Lemma materialized_without_unknown (rs : list (gmap string Binding)) (i : nat)
    (s : gmap string Binding) (k : string) (b : Binding) :
  unknown_kind b -> rs !! i = Some s -> s !! k = Some b ->
  materialized <$> alter (delete k) i rs = materialized <$> rs.
Proof.
  intros Hb Hi Hs. apply list_eq. intros j.
  rewrite !list_lookup_fmap, list_lookup_alter.
  case_decide; [subst j|done].
  rewrite Hi. simpl. by rewrite (materialized_delete_unknown k s b).
Qed.

(** C2.  A binding whose kind is none of "uri", "literal",
    "typed-literal", "bnode" fails [termFromJSON] with the unknown-term-kind
    error.  In a result that holds such a binding (variable [k] of row
    [i]) both bulk methods return a value, they have no error to return:
    the row's solution lacks [k] and keeps every binding of the row that
    materializes; [Solutions] and [Bindings] return what they return for
    the result without that one binding; and every binding of the row that
    materializes for a declared variable is among that variable's terms. *)
Theorem unknown_kind_strict_alone_lenient_in_bulk
    (b : Binding) (r : Results) (i : nat) (s : gmap string Binding) (k : string) :
  unknown_kind b -> rows r !! i = Some s -> s !! k = Some b ->
  termFromJSON b = Err (errorString "unknown term type")
  ∧ (forall schedule, range_schedule r schedule ->
       exists sol, Solutions_in schedule !! i = Some sol
         ∧ sol !! k = None
         ∧ forall k' b' t, s !! k' = Some b' -> termFromJSON b' = Ok t ->
                           sol !! k' = Some t)
  ∧ (forall schedule schedule',
       range_schedule r schedule ->
       range_schedule (without_binding r i k) schedule' ->
       Solutions_in schedule = Solutions_in schedule')
  ∧ Bindings r = Bindings (without_binding r i k)
  ∧ (forall v b' t, v ∈ Vars (Head r) -> s !! v = Some b' -> termFromJSON b' = Ok t ->
                    t ∈ Bindings r !!! v).
Proof.
  intros Hb Hi Hs. split; [by apply termFromJSON_unknown|]. repeat split.
  - intros schedule Hsch. exists (materialized s).
    rewrite (Solutions_in_spec r schedule Hsch), list_lookup_fmap, Hi.
    split; [done|]. unfold materialized. split.
    + by rewrite lookup_omap, Hs; simpl; rewrite term_of_unknown.
    + intros k' b' t Hk' Ht. rewrite lookup_omap, Hk'. simpl.
      unfold term_of. by rewrite Ht.
  - intros schedule schedule' Hsch Hsch'.
    rewrite (Solutions_in_spec r schedule Hsch).
    rewrite (Solutions_in_spec _ schedule' Hsch').
    unfold without_binding, rows at 1. simpl.
    symmetry. by apply (materialized_without_unknown _ i s k b).
  - symmetry. by apply (Bindings_without_unknown r i s k b).
  - intros v b' t Hv Hsv Ht. rewrite Bindings_total.
    pose proof (declared_times_elem_of v _ Hv) as Hn.
    destruct (declared_times v (Vars (Head r))) as [|n]; [lia|]. simpl.
    apply elem_of_app. left. unfold terms_of. apply list_elem_of_omap.
    exists s. split; [by eapply list_elem_of_lookup_2|].
    rewrite (lookup_total_correct _ _ _ Hsv). unfold term_of. by rewrite Ht.
Qed.

(** C3.  [Solutions] emits exactly one mapping per solution row, in the
    order of the rows, whatever the order in which the entries of each row
    are visited: the mapping of row [i] holds the bindings of that row that
    materialize and no other key, also when some of them fail. *)
Theorem Solutions_one_mapping_per_row (r : Results)
    (schedule : list (list (string * Binding))) :
  range_schedule r schedule ->
  length (Solutions_in schedule) = length (rows r)
  ∧ forall i s, rows r !! i = Some s ->
      exists sol, Solutions_in schedule !! i = Some sol
        ∧ (forall k, sol !! k = s !! k ≫= term_of)
        ∧ dom sol ⊆ dom s.
Proof.
  intros Hsch. rewrite (Solutions_in_spec r schedule Hsch). split.
  - by rewrite length_fmap.
  - intros i s Hi. exists (materialized s).
    rewrite list_lookup_fmap, Hi. split; [done|]. split.
    + intros k. unfold materialized. by rewrite lookup_omap.
    + apply dom_omap_subseteq.
Qed.

(** C4.  For a well-formed result (every variable declared once) with N
    declared variables and M rows, [Bindings] returns a mapping with at
    most N keys, and the sequence of every key has at most M terms. *)
Theorem Bindings_size_bounds (r : Results) :
  well_formed r ->
  (size (Bindings r) <= length (Vars (Head r)))%nat
  ∧ forall v ts, Bindings r !! v = Some ts -> (length ts <= length (rows r))%nat.
Proof.
  intros Hwf. split.
  - rewrite <- size_dom.
    etrans; [apply subseteq_size, Bindings_dom | apply size_list_to_set_le].
  - intros v ts Hv. apply lookup_total_correct in Hv. subst ts.
    rewrite Bindings_total.
    pose proof (declared_times_NoDup v _ Hwf) as Hn.
    pose proof (length_terms_of v (rows r)) as Hl.
    destruct (declared_times v (Vars (Head r))) as [|[|n]]; simpl; [lia| |lia].
    rewrite app_nil_r. lia.
Qed.

(** C8.  Two calls in a row of [Bindings] return equal maps, two calls in a
    row of [Solutions] return equal slices, also when the two calls visit
    the entries of the rows in different orders, and after each call the
    result is the one it was before. *)
Theorem materialization_repeatable (r : Results)
    (schedule1 schedule2 : list (list (string * Binding))) :
  range_schedule r schedule1 ->
  range_schedule (call_Solutions schedule1 r).2 schedule2 ->
  (call_Bindings r).1 = (call_Bindings (call_Bindings r).2).1
  ∧ (call_Bindings r).2 = r
  ∧ (call_Bindings (call_Bindings r).2).2 = r
  ∧ (call_Solutions schedule1 r).1 = (call_Solutions schedule2 (call_Solutions schedule1 r).2).1
  ∧ (call_Solutions schedule1 r).2 = r
  ∧ (call_Solutions schedule2 (call_Solutions schedule1 r).2).2 = r.
Proof.
  intros H1 H2. simpl in *. repeat split.
  by rewrite (Solutions_in_spec r schedule1 H1), (Solutions_in_spec r schedule2 H2).
Qed.

(** Without the well-formedness of C4 the bound on the sequences fails: a
    variable declared twice gets every term twice. *)
Lemma Bindings_variable_declared_twice (r : Results) (v : string) :
  declared_times v (Vars (Head r)) = 2%nat ->
  Bindings r !!! v = terms_of v (rows r) ++ terms_of v (rows r).
Proof. intros Hn. rewrite Bindings_total, Hn. simpl. by rewrite app_nil_r. Qed.

End MaterializationClaims.

(** ** Materialization on the RDF package as modelled *)

(** C1, as the code has it.  For a binding of kind "literal" with a
    language tag that is not empty, [termFromJSON] returns what
    [rdf.NewLangLiteral] returns for the binding's value and tag, whatever
    the implementation of the package; with the package as modelled this is
    the language-tagged literal with that value and tag when the package
    accepts the tag, and no term but the package's error when it does not.
    With an empty tag it returns the typed literal with datatype
    http://www.w3.org/2001/XMLSchema#string and the binding's value, and
    never fails. *)
Theorem literal_binding_materializes (b : Binding) :
  Type_ b = "literal" ->
  (forall package : RdfPackage,
     Lang b ≠ "" ->
     @termFromJSON package b
       = result_map TermLiteral (NewLangLiteral (Value b) (Lang b)))
  ∧ (Lang b ≠ "" -> rdf.lang_tag_ok (Lang b) = true ->
     @termFromJSON knakk_rdf b = Ok (LangLiteral (Value b) (Lang b)))
  ∧ (Lang b ≠ "" -> rdf.lang_tag_ok (Lang b) = false ->
     is_Ok (@termFromJSON knakk_rdf b) = false)
  ∧ (Lang b = "" ->
     @termFromJSON knakk_rdf b = Ok (TypedLiteral (Value b) xsd_string_iri)).
Proof.
  intros Hk. split.
  { intros package Hl. rewrite (termFromJSON_literal b Hk). by case_decide. }
  rewrite (termFromJSON_literal b Hk). repeat split.
  - intros Hl Hok. case_decide; [|done]. simpl. unfold rdf.NewLangLiteral.
    by rewrite Hok.
  - intros Hl Hbad. case_decide; [|done]. simpl. unfold rdf.NewLangLiteral.
    by rewrite Hbad.
  - intros Hl. case_decide; [done|]. reflexivity.
Qed.

Lemma literal_binding_materializes_witness :
  Type_ example_lang = "literal"
  ∧ @termFromJSON knakk_rdf example_lang = Ok (LangLiteral "hi" "en")
  ∧ Type_ example_plain = "literal"
  ∧ @termFromJSON knakk_rdf example_plain
      = Ok (TypedLiteral "hello" "http://www.w3.org/2001/XMLSchema#string").
Proof.
  split; [reflexivity|]. split.
  - apply (proj2 (literal_binding_materializes example_lang eq_refl));
      [discriminate|reflexivity].
  - split; [reflexivity|].
    apply (proj2 (literal_binding_materializes example_plain eq_refl)); reflexivity.
Defined.

(** C1 as stated fails: a literal binding whose language tag is not empty
    and not well-formed does not materialize. *)
Lemma malformed_language_tag_fails :
  Type_ example_bad_lang = "literal"
  ∧ Lang example_bad_lang ≠ ""
  ∧ is_Ok (@termFromJSON knakk_rdf example_bad_lang) = false.
Proof. split; [reflexivity|]. split; [discriminate|reflexivity]. Qed.

(** The bindings of the spec's examples. *)
Example uri_binding_materializes :
  @termFromJSON knakk_rdf example_uri
    = Ok (TermIRI {| rdf.iri_str := "http://example.org/x" |}).
Proof. reflexivity. Qed.

Example typed_literal_binding_materializes :
  @termFromJSON knakk_rdf example_typed
    = Ok (TypedLiteral "42" "http://www.w3.org/2001/XMLSchema#integer").
Proof. reflexivity. Qed.

Lemma example_unknown_kind : unknown_kind example_unknown.
Proof. repeat split; discriminate. Qed.

Lemma unknown_kind_strict_alone_lenient_in_bulk_witness :
  unknown_kind example_unknown
  ∧ rows example_result !! 0%nat = Some example_row
  ∧ example_row !! "y" = Some example_unknown
  ∧ @termFromJSON knakk_rdf example_unknown = Err (errorString "unknown term type")
  ∧ @Bindings knakk_rdf example_result
      = @Bindings knakk_rdf (without_binding example_result 0 "y").
Proof.
  pose proof (@unknown_kind_strict_alone_lenient_in_bulk knakk_rdf
                example_unknown example_result 0%nat example_row "y"
                example_unknown_kind eq_refl eq_refl) as (Hsingle & _ & _ & Hbulk & _).
  split; [exact example_unknown_kind|]. repeat split; assumption.
Defined.

Lemma Solutions_one_mapping_per_row_witness :
  @range_schedule example_result (map_to_list <$> rows example_result)
  ∧ length (@Solutions knakk_rdf example_result) = 2%nat.
Proof.
  split; [apply canonical_schedule|].
  apply (@Solutions_one_mapping_per_row knakk_rdf example_result
           (map_to_list <$> rows example_result) (canonical_schedule example_result)).
Defined.

Lemma example_result_well_formed : well_formed example_result.
Proof.
  unfold well_formed. simpl.
  apply (bool_decide_unpack (NoDup ["x"; "y"])). vm_compute. exact I.
Qed.

Lemma Bindings_size_bounds_witness :
  well_formed example_result
  ∧ (size (@Bindings knakk_rdf example_result) <= 2)%nat.
Proof.
  split; [exact example_result_well_formed|].
  apply (@Bindings_size_bounds knakk_rdf example_result example_result_well_formed).
Defined.

Lemma materialization_repeatable_witness :
  @range_schedule example_result (map_to_list <$> rows example_result)
  ∧ (@call_Bindings knakk_rdf example_result).2 = example_result
  ∧ (@call_Solutions knakk_rdf (map_to_list <$> rows example_result) example_result).2
      = example_result.
Proof.
  pose proof (@materialization_repeatable knakk_rdf example_result
                (map_to_list <$> rows example_result)
                (map_to_list <$> rows example_result)
                (canonical_schedule example_result)
                (canonical_schedule example_result)) as (_ & Hb & _ & _ & Hs & _).
  split; [apply canonical_schedule|]. split; assumption.
Defined.

(** ** Lookup helpers *)

(** C9.  [ListOfSubjects] returns the grouping [ListOf] returns for the
    variable name "s". *)
Theorem ListOfSubjects_is_ListOf_s (results : list (gmap string Binding)) :
  ListOfSubjects results = ListOf results "s".
Proof.
  unfold ListOfSubjects, ListOf.
  generalize (∅ : gmap string (list (gmap string Binding))).
  induction results as [|term results IH]; intros toReturn; [reflexivity|].
  cbn [foldl]. rewrite IH. reflexivity.
Qed.

(** C10.  [GetValue] returns the empty string for no rows, and for any
    other sequence the value the first row binds to the needle, or the
    empty string when the first row does not bind it; the rows after the
    first play no part. *)
Theorem GetValue_first_row (needle : string) :
  GetValue needle [] = ""
  ∧ forall (term : gmap string Binding) (rest : list (gmap string Binding)),
      GetValue needle (term :: rest) =
        match term !! needle with
        | Some val => Value val
        | None => ""
        end.
Proof. split; [reflexivity|]. intros term rest. reflexivity. Qed.

(** ** Repository construction *)

Lemma applied_cons (opt : RepoOption) (options : list RepoOption) (r : Repo) :
  applied (opt :: options) r = applied options (opt r).1.
Proof. reflexivity. Qed.

Lemma SetOption_all_succeed (options : list RepoOption) :
  forall r : Repo,
    (forall n opt, options !! n = Some opt ->
                   (opt (applied (take n options) r)).2 = None) ->
    SetOption options r = (applied options r, None).
Proof.
  induction options as [|opt options IH]; intros r Hall; [reflexivity|].
  pose proof (Hall 0%nat opt eq_refl) as H0. simpl in H0.
  cbn [SetOption]. rewrite applied_cons.
  destruct (opt r) as [r' err] eqn:Hopt. simpl in *. subst err.
  apply IH. intros n opt' Hn.
  specialize (Hall (S n) opt' Hn). simpl in Hall. by rewrite Hopt in Hall.
Qed.

Lemma SetOption_first_failure (options : list RepoOption) :
  forall (r : Repo) (n : nat) (opt : RepoOption) (e : error),
    options !! n = Some opt ->
    (forall m opt', (m < n)%nat -> options !! m = Some opt' ->
                    (opt' (applied (take m options) r)).2 = None) ->
    (opt (applied (take n options) r)).2 = Some e ->
    SetOption options r = (applied (take (S n) options) r, Some e).
Proof.
  induction options as [|opt0 options IH]; intros r n opt e Hn Hbefore Hfail; [done|].
  destruct n as [|n]; simpl in Hn.
  - injection Hn as ->. simpl in Hfail. cbn [SetOption take]. rewrite applied_cons.
    destruct (opt r) as [r' err]. simpl in *. by subst err.
  - pose proof (Hbefore 0%nat opt0 ltac:(lia) eq_refl) as H0. simpl in H0.
    cbn [SetOption]. change (take (S (S n)) (opt0 :: options)) with (opt0 :: take (S n) options).
    rewrite applied_cons.
    destruct (opt0 r) as [r' err] eqn:Hopt. simpl in *. subst err.
    apply (IH r' n opt e Hn).
    + intros m opt' Hm Hopt'.
      specialize (Hbefore (S m) opt' ltac:(lia) Hopt'). simpl in Hbefore.
      by rewrite Hopt in Hbefore.
    + by rewrite Hopt in Hfail.
Qed.

(** C7.  [NewRepo] applies the options in the order given, each to the
    [Repo] the ones before it have left.  When every option returns no
    error, [NewRepo] returns no error, with all options applied.  When the
    option at position [n] is the first to return an error, [NewRepo]
    returns that error, with exactly the options up to position [n]
    applied: what follows position [n] has no part in the result. *)
Theorem NewRepo_options_in_order_fail_fast
    (DefaultClient : Client) (addr : string) (options : list RepoOption) :
  let r0 := {| endpoint := addr; client := DefaultClient |} in
  ((forall n opt, options !! n = Some opt ->
                  (opt (applied (take n options) r0)).2 = None) ->
   NewRepo DefaultClient addr options = (applied options r0, None))
  ∧ (forall n opt e,
       options !! n = Some opt ->
       (forall m opt', (m < n)%nat -> options !! m = Some opt' ->
                       (opt' (applied (take m options) r0)).2 = None) ->
       (opt (applied (take n options) r0)).2 = Some e ->
       NewRepo DefaultClient addr options = (applied (take (S n) options) r0, Some e)
       ∧ forall later,
           NewRepo DefaultClient addr (take (S n) options ++ later)
             = NewRepo DefaultClient addr options).
Proof.
  intros r0. split.
  - intros Hall. by apply SetOption_all_succeed.
  - intros n opt e Hn Hbefore Hfail.
    assert (Hres : NewRepo DefaultClient addr options
                   = (applied (take (S n) options) r0, Some e))
      by (by apply (SetOption_first_failure options r0 n opt e)).
    split; [exact Hres|]. intros later. rewrite Hres.
    assert (Hlen : (n < length options)%nat) by (by eapply lookup_lt_Some).
    assert (Hlt : (length (take (S n) options) = S n)%nat)
      by (apply length_take_le; lia).
    unfold NewRepo. fold r0.
    rewrite (SetOption_first_failure (take (S n) options ++ later) r0 n opt e).
    + rewrite take_app_le by lia.
      by rewrite take_take, Nat.min_id.
    + rewrite lookup_app_l by lia.
      rewrite lookup_take_lt by lia. done.
    + intros m opt' Hm Hopt'.
      rewrite lookup_app_l in Hopt' by lia.
      rewrite lookup_take_lt in Hopt' by lia.
      rewrite take_app_le by lia.
      rewrite take_take, Nat.min_l by lia. by apply Hbefore.
    + rewrite take_app_le by lia.
      rewrite take_take, Nat.min_l by lia. done.
Qed.

Lemma NewRepo_options_in_order_fail_fast_witness :
  NewRepo (client stub_Repo) "http://localhost:3030/ds/sparql"
          [Timeout 5; failing_option "refused"; Timeout 7]
  = ({| endpoint := "http://localhost:3030/ds/sparql";
        client := {| Transport := DefaultTransport; client_Timeout := 5 |} |},
     Some (errorString "refused"))
  ∧ NewRepo (client stub_Repo) "http://localhost:3030/ds/sparql"
            [Timeout 5; DigestAuth "user" "secret"]
    = ({| endpoint := "http://localhost:3030/ds/sparql";
          client := {| Transport := DigestTransport "user" "secret";
                       client_Timeout := 5 |} |},
       None).
Proof.
  split.
  - apply (proj2 (NewRepo_options_in_order_fail_fast (client stub_Repo)
                    "http://localhost:3030/ds/sparql"
                    [Timeout 5; failing_option "refused"; Timeout 7])
                 1%nat (failing_option "refused") (errorString "refused")).
    + reflexivity.
    + intros [|[|m]] opt' Hm Hopt'; [|lia|lia].
      injection Hopt' as <-. reflexivity.
    + reflexivity.
  - apply (proj1 (NewRepo_options_in_order_fail_fast (client stub_Repo)
                    "http://localhost:3030/ds/sparql"
                    [Timeout 5; DigestAuth "user" "secret"])).
    intros [|[|n]] opt Hn; [| |done]; injection Hn as <-; reflexivity.
Defined.

(** ** Error messages of the three operations *)

Lemma append_cons (c : ascii) (s t : string) : String c s +:+ t = String c (s +:+ t).
Proof. reflexivity. Qed.

Lemma append_nil_r (s : string) : s +:+ "" = s.
Proof. induction s as [|c s IH]; [done|]. by rewrite append_cons, IH. Qed.

Lemma append_assoc (s1 s2 s3 : string) : (s1 +:+ s2) +:+ s3 = s1 +:+ s2 +:+ s3.
Proof. induction s1 as [|c s1 IH]; [done|]. by rewrite !append_cons, IH. Qed.

Lemma no_percent_app (s1 s2 : string) :
  no_percent (s1 +:+ s2) = no_percent s1 && no_percent s2.
Proof.
  induction s1 as [|c s1 IH]; [done|].
  rewrite append_cons. cbn [no_percent]. rewrite IH. by rewrite andb_assoc.
Qed.

(** Text without ['%'] is copied to the output as it is. *)
Lemma Sprintf_app_no_percent (pre rest : string) (a : list string) :
  no_percent pre = true ->
  fmt.Sprintf (pre +:+ rest) a = String.append pre <$> fmt.Sprintf rest a.
Proof.
  induction pre as [|c pre IH]; intros Hpre.
  - change ("" +:+ rest) with rest. by destruct (fmt.Sprintf rest a).
  - cbn [no_percent] in Hpre. apply andb_true_iff in Hpre as [Hc Hpre].
    apply negb_true_iff in Hc.
    rewrite append_cons. cbn [fmt.Sprintf]. rewrite Hc, (IH Hpre).
    by destruct (fmt.Sprintf rest a).
Qed.

Lemma Sprintf_no_percent (s : string) :
  no_percent s = true -> fmt.Sprintf s [] = Some s.
Proof.
  induction s as [|c s IH]; intros Hs; [done|].
  cbn [no_percent] in Hs. apply andb_true_iff in Hs as [Hc Hs].
  apply negb_true_iff in Hc. cbn [fmt.Sprintf]. by rewrite Hc, (IH Hs).
Qed.

(** The message of the error the operations build, when the text after the
    status line holds no ['%']. *)
Lemma failed_request_message (pre status msg : string) :
  no_percent pre = true -> no_percent msg = true ->
  fmt.Sprintf (pre +:+ "%s. " +:+ msg) [status] = Some (pre +:+ status +:+ ". " +:+ msg).
Proof.
  intros Hpre Hmsg. rewrite (Sprintf_app_no_percent pre _ _ Hpre).
  change (fmt.Sprintf ("%s. " +:+ msg) [status])
    with ((fun out => status +:+ out) <$> fmt.Sprintf (". " +:+ msg) []).
  rewrite Sprintf_no_percent; [done|].
  rewrite no_percent_app. by rewrite Hmsg.
Qed.

Section OperationFacts.
Variable QueryEscape : string -> string.
Variable http_NewRequest : string -> string -> string -> result Request.
Variable client_Do : Client -> Request -> result Response.
Variable Triple : Type.
Variable Turtle_DecodeAll : Reader -> result (list Triple).

(** On a response that is not 200 each operation returns the error built
    from the status line and [failure_msg]. *)
Lemma failure_of_non_200 (op : operation) (r : Repo) (q : string) (resp : Response) :
  post http_NewRequest client_Do r (form_of QueryEscape op q) (accept_of op) = Ok resp ->
  StatusCode resp ≠ StatusOK ->
  failure_of QueryEscape http_NewRequest client_Do Triple Turtle_DecodeAll op r q
    = Some (fmtError (label_of op +:+ ": SPARQL request failed: %s. " +:+ failure_msg resp)
                     [Status resp]).
Proof.
  intros Hpost Hcode.
  destruct op; simpl in *; unfold Query, Update, Construct;
    rewrite Hpost; by case_decide.
Qed.

(** C6, as the code has it.  When the exchange of [Query], [Update] or
    [Construct] yields a response whose status is not 200, the operation
    fails, and the message of its error is the operation's label ("Query"
    for [Query] and [Update], "Construct" for [Construct]), the text
    ": SPARQL request failed: ", the status line, ". " and then: "Failed to
    read response body" when reading the body failed; nothing when the body
    was read and is empty or white space only; "Response body: ", a line
    break and the body's raw text when the body was read, is not blank and
    holds no ['%']. *)
Theorem non_200_error_message (op : operation) (r : Repo) (q : string) (resp : Response) :
  post http_NewRequest client_Do r (form_of QueryEscape op q) (accept_of op) = Ok resp ->
  StatusCode resp ≠ StatusOK ->
  exists e,
    failure_of QueryEscape http_NewRequest client_Do Triple Turtle_DecodeAll op r q = Some e
    ∧ (read_err (Body resp) ≠ None ->
       Error_text e = Some (label_of op +:+ ": SPARQL request failed: " +:+ Status resp
                            +:+ ". " +:+ "Failed to read response body"))
    ∧ (read_err (Body resp) = None ->
       strings.TrimSpace (data (Body resp)) = "" ->
       Error_text e = Some (label_of op +:+ ": SPARQL request failed: " +:+ Status resp
                            +:+ ". "))
    ∧ (read_err (Body resp) = None ->
       strings.TrimSpace (data (Body resp)) ≠ "" ->
       no_percent (data (Body resp)) = true ->
       Error_text e = Some (label_of op +:+ ": SPARQL request failed: " +:+ Status resp
                            +:+ ". " +:+ rb +:+ data (Body resp))).
Proof.
  intros Hpost Hcode. eexists. split; [by apply failure_of_non_200|].
  assert (Hfmt : forall msg, no_percent msg = true ->
    fmt.Sprintf (label_of op +:+ ": SPARQL request failed: %s. " +:+ msg) [Status resp]
    = Some (label_of op +:+ ": SPARQL request failed: " +:+ Status resp +:+ ". " +:+ msg)).
  { intros msg Hmsg.
    pose proof (failed_request_message (label_of op +:+ ": SPARQL request failed: ")
                  (Status resp) msg) as Hm.
    rewrite !append_assoc in Hm. apply Hm; [by destruct op|done]. }
  unfold failure_msg, ReadAll. simpl. repeat split.
  - intros Herr. destruct (read_err (Body resp)); [|done]. by apply Hfmt.
  - intros Herr Hblank. rewrite Herr. case_decide; [done|].
    rewrite (Hfmt "" eq_refl). by rewrite !append_nil_r.
  - intros Herr Hbody Hpct. rewrite Herr. case_decide; [|done].
    apply Hfmt. rewrite no_percent_app. by rewrite Hpct.
Qed.

End OperationFacts.

Lemma non_200_error_message_witness :
  exists e,
    error_of (stub_Query (response_500 "Internal error")) = Some e
    ∧ Error_text e
      = Some ("Query: SPARQL request failed: 500 Internal Server Error. "
              +:+ rb +:+ "Internal error").
Proof.
  destruct (non_200_error_message (fun s => s) stub_NewRequest
              (stub_Do (response_500 "Internal error")) unit stub_DecodeAll
              OpQuery stub_Repo "ASK {}" (response_500 "Internal error")
              eq_refl ltac:(discriminate))
    as (e & He & _ & _ & Hbody).
  exists e. split; [exact He|].
  apply Hbody; [reflexivity|discriminate|reflexivity].
Defined.

(** C6 as stated fails: with a body that was read and is empty the message
    ends after the status line; it holds no indicator that the body could
    not be read. *)
Lemma empty_body_gets_no_indicator :
  ReadAll (Body (response_500 "")) = ("", None)
  ∧ exists e msg,
      stub_Query (response_500 "") = Err e
      ∧ Error_text e = Some msg
      ∧ msg = "Query: SPARQL request failed: 500 Internal Server Error. "
      ∧ Contains msg readFailMsg = false.
Proof.
  split; [reflexivity|].
  eexists _, _. split; [reflexivity|]. split; [reflexivity|]. split; reflexivity.
Qed.

(** The body's text is part of the format string: a ['%'] in it is read as
    a formatting directive, and the message does not hold the raw text. *)
Lemma percent_in_body_is_formatted :
  exists e msg,
    stub_Query (response_500 "disk 100%") = Err e
    ∧ Error_text e = Some msg
    ∧ msg = "Query: SPARQL request failed: 500 Internal Server Error. "
            +:+ rb +:+ "disk 100%!(NOVERB)".
Proof. eexists _, _. split; [reflexivity|]. split; reflexivity. Qed.

(** ** Decoding the response *)

Lemma reset_ok : scanner_ok json.reset.
Proof. repeat split; discriminate. Qed.

(** A step that neither ends the value nor fails keeps the scanner in
    order. *)
Lemma scan_step_ok (s : json.scanner) (c : ascii) :
  scanner_ok s ->
  (json.scan_step s c).2 ≠ json.scanEnd ->
  (json.scan_step s c).2 ≠ json.scanError ->
  scanner_ok (json.scan_step s c).1.
Proof.
  destruct s as [st ps e t]. unfold scanner_ok. simpl. intros (-> & Htop & Harr).
  destruct st; scan_unfold; simpl in *; scan_split; simpl; intros Hend Herr;
    try done; repeat split; try done; auto.
Qed.

(** The states in which a step can say that the value has ended before the
    byte it was given. *)
Lemma scan_step_end_states (s : json.scanner) (c : ascii) :
  scanner_ok s -> (json.scan_step s c).2 = json.scanEnd ->
  json.step s = json.EndTop
  ∨ (json.parseState s = []
     ∧ (json.step s = json.EndValue ∨ json.step s = json.St1 ∨ json.step s = json.St0
        ∨ json.step s = json.Dot0 ∨ json.step s = json.E0)).
Proof.
  destruct s as [st ps e t]. unfold scanner_ok. simpl. intros (-> & Htop & Harr).
  destruct st; scan_unfold; simpl in *; scan_split; simpl; intros Hend;
    try done; auto 10; by destruct Harr.
Qed.

(** When a step says that the value has ended before the byte it was
    given, the end of input ends it as well. *)
Lemma scan_step_end_eof (s : json.scanner) (c : ascii) :
  scanner_ok s -> (json.scan_step s c).2 = json.scanEnd -> json.eof s = json.scanEnd.
Proof.
  intros Hok Hend. destruct (scan_step_end_states s c Hok Hend) as [Htop|[Hps Hst]];
    destruct Hok as (Herr & Hendtop & _);
    destruct s as [st ps e t]; simpl in *; subst.
  - rewrite (Hendtop eq_refl). reflexivity.
  - destruct Hst as [->|[->|[->|[->| ->]]]]; by destruct t.
Qed.

Lemma stateEndValue_space_end (s : json.scanner) :
  (json.stateEndValue s " ").2 = json.scanEnd -> json.parseState s = [].
Proof. destruct s as [st [|p ps] e t]; [done|]. by destruct p. Qed.

(** A step that closes an object or an array records no error, and sets
    [endTop] when it empties the stack. *)
Lemma scan_step_closed (s : json.scanner) (c : ascii) :
  scanner_ok s ->
  (json.scan_step s c).2 = json.scanEndObject ∨ (json.scan_step s c).2 = json.scanEndArray ->
  json.err (json.scan_step s c).1 = false
  ∧ (json.parseState (json.scan_step s c).1 = [] ->
     json.endTop (json.scan_step s c).1 = true).
Proof.
  destruct s as [st ps e t]. unfold scanner_ok. simpl. intros (-> & Htop & Harr).
  destruct st; scan_unfold; simpl in *; scan_split; simpl; intros [Hop|Hop];
    try done.
Qed.

(** When a closing bracket completes the top-level value, the scanner is
    at the end of a valid text. *)
Lemma scan_step_closed_eof (s : json.scanner) (c : ascii) :
  scanner_ok s ->
  (json.scan_step s c).2 = json.scanEndObject ∨ (json.scan_step s c).2 = json.scanEndArray ->
  (json.stateEndValue (json.scan_step s c).1 " ").2 = json.scanEnd ->
  json.eof (json.scan_step s c).1 = json.scanEnd.
Proof.
  intros Hok Hop Hend. destruct (scan_step_closed s c Hok Hop) as [Herr Htop].
  apply stateEndValue_space_end in Hend. unfold json.eof.
  by rewrite Herr, (Htop Hend).
Qed.

(** What the loop of [readValue] cuts off the stream is a prefix of the
    stream and a valid JSON text. *)
Lemma readValue_loop_framed (buf : string) :
  forall (s : json.scanner) (text rest : string),
    scanner_ok s ->
    json.readValue_loop s buf = json.Framed text rest ->
    buf = text +:+ rest
    ∧ exists s', json.scan_all s text = Some s' ∧ json.eof s' = json.scanEnd.
Proof.
  induction buf as [|c buf IH]; intros s text rest Hok Hloop; [done|].
  cbn [json.readValue_loop] in Hloop.
  destruct (json.scan_step s c) as [s1 op] eqn:Hstep.
  assert (Hnext : op ≠ json.scanEnd -> op ≠ json.scanError -> scanner_ok s1).
  { intros H1 H2. pose proof (scan_step_ok s c Hok) as H. rewrite Hstep in H.
    by apply H. }
  assert (Hrec : forall text' rest',
    op ≠ json.scanEnd -> op ≠ json.scanError ->
    json.readValue_loop s1 buf = json.Framed text' rest' ->
    String c buf = String c text' +:+ rest'
    ∧ exists s', json.scan_all s (String c text') = Some s' ∧ json.eof s' = json.scanEnd).
  { intros text' rest' H1 H2 Hl.
    destruct (IH s1 text' rest' (Hnext H1 H2) Hl) as (-> & s' & Hall & Heof).
    split; [done|]. exists s'. split; [|done].
    cbn [json.scan_all]. rewrite Hstep. by destruct op. }
  assert (Hclosed :
    op = json.scanEndObject ∨ op = json.scanEndArray ->
    (json.stateEndValue s1 " ").2 = json.scanEnd ->
    String c buf = String c "" +:+ buf
    ∧ exists s', json.scan_all s (String c "") = Some s' ∧ json.eof s' = json.scanEnd).
  { intros Hop Hend. split; [done|]. exists s1. split.
    - cbn [json.scan_all]. rewrite Hstep. by destruct Hop as [-> | ->].
    - pose proof (scan_step_closed_eof s c Hok) as H. rewrite Hstep in H.
      by apply H. }
  destruct op; try discriminate;
    try (destruct (json.readValue_loop s1 buf) as [text' rest'| |sf] eqn:Hl;
         try discriminate; injection Hloop as <- <-; by apply Hrec).
  + destruct (json.stateEndValue s1 " ") as [s2 op2] eqn:Hev.
    destruct op2;
      try (destruct (json.readValue_loop s1 buf) as [text' rest'| |sf] eqn:Hl;
           try discriminate; injection Hloop as <- <-; by apply Hrec).
    injection Hloop as <- <-. apply Hclosed; [by left|done].
  + destruct (json.stateEndValue s1 " ") as [s2 op2] eqn:Hev.
    destruct op2;
      try (destruct (json.readValue_loop s1 buf) as [text' rest'| |sf] eqn:Hl;
           try discriminate; injection Hloop as <- <-; by apply Hrec).
    injection Hloop as <- <-. apply Hclosed; [by right|done].
  + injection Hloop as <- <-. split; [done|]. exists s. split; [done|].
    apply (scan_step_end_eof s c Hok). by rewrite Hstep.
Qed.

(** When the loop of [readValue] comes to the end of the bytes, the scanner
    has read them all without an error. *)
Lemma readValue_loop_ended (buf : string) :
  forall (s sf : json.scanner),
    scanner_ok s ->
    json.readValue_loop s buf = json.InputEnded sf ->
    json.scan_all s buf = Some sf ∧ scanner_ok sf.
Proof.
  induction buf as [|c buf IH]; intros s sf Hok Hloop.
  - by injection Hloop as <-.
  - cbn [json.readValue_loop] in Hloop. cbn [json.scan_all].
    pose proof (scan_step_ok s c Hok) as Hnext.
    destruct (json.scan_step s c) as [s1 op]. simpl in Hnext.
    assert (Hrec : op ≠ json.scanEnd -> op ≠ json.scanError ->
                   json.readValue_loop s1 buf = json.InputEnded sf ->
                   json.scan_all s1 buf = Some sf ∧ scanner_ok sf).
    { intros H1 H2 Hl. apply (IH s1 sf); [by apply Hnext|done]. }
    destruct op; try discriminate;
      try (destruct (json.readValue_loop s1 buf) as [text' rest'| |sf'] eqn:Hl;
           try discriminate; injection Hloop as ->; by apply Hrec).
    + destruct (json.stateEndValue s1 " ") as [s2 op2].
      destruct op2; try discriminate;
        destruct (json.readValue_loop s1 buf) as [text' rest'| |sf'] eqn:Hl;
        try discriminate; injection Hloop as ->; by apply Hrec.
    + destruct (json.stateEndValue s1 " ") as [s2 op2].
      destruct op2; try discriminate;
        destruct (json.readValue_loop s1 buf) as [text' rest'| |sf'] eqn:Hl;
        try discriminate; injection Hloop as ->; by apply Hrec.
Qed.


Lemma append_nil_r_eq (s : string) : s = s +:+ "".
Proof. by rewrite append_nil_r. Qed.

(** What [readValue] returns is a prefix of the stream and a valid JSON
    text. *)
Lemma readValue_valid_prefix (r : Reader) (text rest : string) :
  json.readValue r = Ok (text, rest) ->
  data r = text +:+ rest ∧ json.Valid text = true.
Proof.
  unfold json.readValue. intros Hrv.
  destruct (json.readValue_loop json.reset (data r)) as [text' rest'| |sf] eqn:Hloop.
  - injection Hrv as <- <-.
    destruct (readValue_loop_framed _ _ _ _ reset_ok Hloop) as (Hd & s' & Hall & Heof).
    split; [done|]. unfold json.Valid. by rewrite Hall, Heof.
  - discriminate.
  - destruct (read_err r); [discriminate|].
    destruct (readValue_loop_ended _ _ _ reset_ok Hloop) as [Hall Hok].
    destruct (json.scan_step sf " ") as [s1 op] eqn:Hstep.
    assert (Hend : op = json.scanEnd -> json.eof sf = json.scanEnd).
    { intros ->. apply (scan_step_end_eof sf " " Hok). by rewrite Hstep. }
    destruct op; try (by destruct (json.nonSpace (data r))).
    injection Hrv as <- <-. split; [apply append_nil_r_eq|].
    unfold json.Valid. by rewrite Hall, Hend.
Qed.

(** The errors of [readValue]. *)
Lemma readValue_errors (r : Reader) (e : error) :
  json.readValue r = Err e ->
  e = SyntaxError ∨ e = ErrUnexpectedEOF ∨ e = EOF ∨ read_err r = Some e.
Proof.
  unfold json.readValue.
  destruct (json.readValue_loop json.reset (data r)) as [text rest| |sf];
    [discriminate| |].
  - intros [= <-]. by left.
  - destruct (read_err r) as [e'|].
    + intros [= <-]. by right; right; right.
    + destruct (json.scan_step sf " ") as [s1 op].
      destruct op; try discriminate;
        destruct (json.nonSpace (data r)); intros [= <-]; auto.
Qed.

(** *** The loop of [readValue], a part of the stream at a time *)

(** One round of the loop of [readValue], when the step neither ends the
    value nor fails. *)
Lemma readValue_loop_cons (s : json.scanner) (c : ascii) (buf : string) :
  (json.scan_step s c).2 ≠ json.scanEnd ->
  (json.scan_step s c).2 ≠ json.scanError ->
  json.readValue_loop s (String c buf)
  = if decide (((json.scan_step s c).2 = json.scanEndObject
                ∨ (json.scan_step s c).2 = json.scanEndArray)
               ∧ (json.stateEndValue (json.scan_step s c).1 " ").2 = json.scanEnd)
    then json.Framed (String c "") buf
    else match json.readValue_loop (json.scan_step s c).1 buf with
         | json.Framed value rest => json.Framed (String c value) rest
         | other => other
         end.
Proof.
  cbn [json.readValue_loop]. destruct (json.scan_step s c) as [s' op]. simpl.
  intros Hend Herr.
  destruct op; try done;
    try (rewrite decide_False by (intros [[?|?] _]; done); done);
    destruct (json.stateEndValue s' " ") as [s2 op2]; simpl;
    destruct op2;
    try (rewrite decide_False by (intros [_ ?]; done); done);
    rewrite decide_True by auto; done.
Qed.

(** The loop on a stream that goes on after [buf]: what it has cut off
    within [buf] stands, and so does an error of the scanner; at the end of
    [buf] it goes on with what follows, and the value holds [buf]. *)
Lemma readValue_loop_app (buf : string) :
  forall (s : json.scanner) (rest : string),
    json.readValue_loop s (buf +:+ rest)
    = match json.readValue_loop s buf with
      | json.Framed v r0 => json.Framed v (r0 +:+ rest)
      | json.ScanFailed => json.ScanFailed
      | json.InputEnded sf =>
          match json.readValue_loop sf rest with
          | json.Framed v r0 => json.Framed (buf +:+ v) r0
          | other => other
          end
      end.
Proof.
  induction buf as [|c buf IH]; intros s rest.
  { change ("" +:+ rest) with rest. cbn [json.readValue_loop].
    by destruct (json.readValue_loop s rest). }
  rewrite append_cons. cbn [json.readValue_loop].
  destruct (json.scan_step s c) as [s1 op].
  assert (Hrec :
    match json.readValue_loop s1 (buf +:+ rest) with
    | json.Framed value rest0 => json.Framed (String c value) rest0
    | other => other
    end
    = match
        match json.readValue_loop s1 buf with
        | json.Framed value rest0 => json.Framed (String c value) rest0
        | other => other
        end
      with
      | json.Framed v r0 => json.Framed v (r0 +:+ rest)
      | json.ScanFailed => json.ScanFailed
      | json.InputEnded sf =>
          match json.readValue_loop sf rest with
          | json.Framed v r0 => json.Framed (String c buf +:+ v) r0
          | other => other
          end
      end).
  { rewrite IH. destruct (json.readValue_loop s1 buf) as [v r0| |sf]; try done.
    destruct (json.readValue_loop sf rest); by rewrite ?append_cons. }
  destruct op; try (by rewrite ?append_cons); try exact Hrec;
    destruct (json.stateEndValue s1 " ") as [s2 op2]; destruct op2;
    try done; exact Hrec.
Qed.

(** On white space alone the scanner stays at the start of a value. *)
Lemma readValue_loop_blank (buf : string) :
  json.nonSpace buf = false ->
  json.readValue_loop json.reset buf = json.InputEnded json.reset.
Proof.
  induction buf as [|c buf IH]; [done|].
  cbn [json.nonSpace json.readValue_loop]. destruct (json.isSpace c) eqn:Hc; [|done].
  intros Hbuf. unfold json.reset at 1, json.scan_step, json.stateBeginValue. simpl.
  rewrite Hc. fold json.reset. by rewrite (IH Hbuf).
Qed.

Lemma nonSpace_skip_space (buf rest : string) :
  json.nonSpace buf = true ->
  exists c s, json.skip_space buf = String c s
    ∧ json.skip_space (buf +:+ rest) = json.skip_space buf +:+ rest.
Proof.
  induction buf as [|d buf IH]; [done|].
  rewrite append_cons. cbn [json.nonSpace json.skip_space].
  destruct (json.isSpace d); [done|]. intros _. exists d, buf.
  by rewrite append_cons.
Qed.

Lemma length_append (s t : string) :
  String.length (s +:+ t) = (String.length s + String.length t)%nat.
Proof. induction s as [|c s IH]; [done|]. rewrite append_cons. simpl. by rewrite IH. Qed.



(** *** Inside the top-level object or array *)

(** A step inside the top-level object or array does not end the value
    before its byte, and it leaves the scanner inside, unless the byte is
    the bracket that closes the top-level value. *)
Lemma scan_step_inside (s : json.scanner) (c : ascii) :
  inside s ->
  (json.scan_step s c).2 ≠ json.scanEnd
  ∧ ((json.scan_step s c).2 = json.scanError
     ∨ inside (json.scan_step s c).1
     ∨ (((json.scan_step s c).2 = json.scanEndObject
         ∨ (json.scan_step s c).2 = json.scanEndArray)
        ∧ json.parseState (json.scan_step s c).1 = [])).
Proof.
  intros (Hok & Hps & Htop).
  assert (Hend : (json.scan_step s c).2 ≠ json.scanEnd).
  { intros Hend. by destruct (scan_step_end_states s c Hok Hend) as [?|[? _]]. }
  split; [done|].
  assert (Hdec : (json.scan_step s c).2 = json.scanError
                 ∨ (json.scan_step s c).2 ≠ json.scanError)
    by (destruct (json.scan_step s c).2; auto).
  destruct Hdec as [|Herr]; [by left|].
  right. pose proof (scan_step_ok s c Hok Hend Herr) as Hok'.
  assert (Hstack :
    (json.parseState (json.scan_step s c).1 ≠ []
     ∧ json.step (json.scan_step s c).1 ≠ json.EndTop)
    ∨ (((json.scan_step s c).2 = json.scanEndObject
        ∨ (json.scan_step s c).2 = json.scanEndArray)
       ∧ json.parseState (json.scan_step s c).1 = [])).
  { clear Hok Hok' Hend. revert Herr.
    destruct s as [st [|p ps] e t]; [done|]. simpl in Htop. clear Hps.
    destruct st; try done; scan_unfold; simpl in *; scan_split; simpl; intros Herr;
      try done; auto. }
  destruct Hstack as [[H1 H2]|H]; [left|by right]. done.
Qed.

(** Inside, the flag of the end of the top-level value stays down. *)
Lemma scan_step_inside_flag (s : json.scanner) (c : ascii) :
  inside s -> json.endTop s = false ->
  inside (json.scan_step s c).1 -> json.endTop (json.scan_step s c).1 = false.
Proof.
  intros (_ & Hps & Htop) Hflag. unfold inside.
  destruct s as [st [|p ps] e t]; [done|]. simpl in Htop, Hflag. subst t. clear Hps.
  destruct st; try done; scan_unfold; simpl in *; scan_split; simpl;
    intros (_ & H1 & H2); try done.
Qed.


(** Started inside, the loop of [readValue] that comes to the end of the
    bytes is inside still. *)
Lemma readValue_loop_inside_ended (buf : string) :
  forall (s sf : json.scanner),
    inside s -> json.endTop s = false ->
    json.readValue_loop s buf = json.InputEnded sf ->
    inside sf ∧ json.endTop sf = false.
Proof.
  induction buf as [|c buf IH]; intros s sf Hin Hflag Hloop.
  - by injection Hloop as <-.
  - destruct (scan_step_inside s c Hin) as [Hend Hcases].
    assert (Herr : (json.scan_step s c).2 ≠ json.scanError).
    { intros Herr. revert Hloop. cbn [json.readValue_loop].
      destruct (json.scan_step s c) as [s' op]. simpl in Herr. by subst op. }
    rewrite (readValue_loop_cons s c _ Hend Herr) in Hloop.
    case_decide as Hended; [done|].
    destruct Hcases as [?|[Hin'|[Hop Hps]]]; [done| |].
    + destruct (json.readValue_loop (json.scan_step s c).1 buf) as [v0 r0| |sf0] eqn:Hrec;
        try done.
      injection Hloop as ->.
      apply (IH _ sf Hin' (scan_step_inside_flag s c Hin Hflag Hin') Hrec).
    + destruct Hended. split; [done|].
      destruct (json.scan_step s c).1 as [st ps e t]. simpl in Hps. by subst ps.
Qed.

Lemma reset_open_bracket (c : ascii) :
  c = "{"%char ∨ c = "["%char ->
  (json.scan_step json.reset c).2 ≠ json.scanEnd
  ∧ (json.scan_step json.reset c).2 ≠ json.scanError
  ∧ (json.scan_step json.reset c).2 ≠ json.scanEndObject
  ∧ (json.scan_step json.reset c).2 ≠ json.scanEndArray
  ∧ inside (json.scan_step json.reset c).1
  ∧ json.endTop (json.scan_step json.reset c).1 = false.
Proof.
  intros [-> | ->]; vm_compute; repeat split; try discriminate; auto.
Qed.

(** The same from the start of the stream, for a stream whose first byte
    after white space opens an object or an array. *)
Lemma readValue_loop_reset_ended (buf : string) :
  forall (c : ascii) (s : string) (sf : json.scanner),
    json.skip_space buf = String c s -> c = "{"%char ∨ c = "["%char ->
    json.readValue_loop json.reset buf = json.InputEnded sf ->
    inside sf ∧ json.endTop sf = false.
Proof.
  induction buf as [|d buf IH]; intros c s sf Hskip Hc Hloop; [done|].
  cbn [json.skip_space] in Hskip. destruct (json.isSpace d) eqn:Hd.
  - assert (Hstep : json.scan_step json.reset d = (json.reset, json.scanSkipSpace)).
    { unfold json.reset at 1, json.scan_step, json.stateBeginValue. simpl.
      by rewrite Hd. }
    rewrite readValue_loop_cons in Hloop by (by rewrite Hstep).
    rewrite decide_False in Hloop by (rewrite Hstep; by intros [[?|?] _]).
    rewrite Hstep in Hloop. cbn [fst] in Hloop.
    destruct (json.readValue_loop json.reset buf) as [v0 r0| |sf0] eqn:Hrec; try done.
    injection Hloop as ->. by apply (IH c s sf).
  - injection Hskip as -> _.
    destruct (reset_open_bracket c Hc) as (Hend & Herr & Hobj & Harr & Hin & Hflag).
    rewrite readValue_loop_cons in Hloop by done.
    rewrite decide_False in Hloop by (by intros [[?|?] _]).
    destruct (json.readValue_loop (json.scan_step json.reset c).1 buf)
      as [v0 r0| |sf0] eqn:Hrec; try done.
    injection Hloop as ->.
    by apply (readValue_loop_inside_ended buf _ sf Hin Hflag).
Qed.

(** An object or an array that [readValue] reads to its last byte is cut
    off by the loop at that byte: the closing bracket ends it, not the end
    of input. *)
Lemma bracket_value_framed (text : string) (c : ascii) (s : string) :
  json.skip_space text = String c s -> c = "{"%char ∨ c = "["%char ->
  json.readValue (NewReader text) = Ok (text, ""%string) ->
  json.readValue_loop json.reset text = json.Framed text "".
Proof.
  intros Hskip Hc. unfold json.readValue. simpl.
  destruct (json.readValue_loop json.reset text) as [v r0| |sf] eqn:Hloop; [|done|].
  - by intros [= -> ->].
  - destruct (readValue_loop_reset_ended _ _ _ _ Hskip Hc Hloop) as [Hin _].
    destruct (scan_step_inside sf " " Hin) as [Hend _].
    destruct (json.scan_step sf " ") as [s1 op]. simpl in Hend.
    destruct op; try done; by destruct (json.nonSpace text).
Qed.


(** *** The second reading cannot fail

    [unmarshal] reads again the bytes the scanner has accepted.  The source
    panics if that second reading fails; it does not, and the branch of
    [json.unmarshal] for it is never taken on what [readValue] has cut off
    the stream. *)

Section Adequacy.

(** Acceptance, a byte at a time. *)
Lemma accepts_cons sc c s :
  accepts sc (String c s) ->
  (json.scan_step sc c).2 ≠ json.scanError ∧ accepts (json.scan_step sc c).1 s.
Proof.
  unfold accepts. cbn [json.scan_all].
  destruct (json.scan_step sc c) as [sc' op]. simpl.
  destruct op; try done.
Qed.

Lemma is_byte_true x c : is_byte x c = true -> c = x.
Proof. unfold is_byte. apply Ascii.eqb_eq. Qed.

(** Facts about the byte classes. *)
Lemma hex_facts c :
  is_hex c = true -> is_byte quote c = false ∧ is_byte backslash c = false.
Proof. destruct c as [[] [] [] [] [] [] [] []]; vm_compute; intros; try done. Qed.

Lemma number_byte_cases c :
  json.number_byte c = true ->
  c = "-"%char ∨ c = "+"%char ∨ c = "."%char ∨ c = "e"%char ∨ c = "E"%char
  ∨ c = "0"%char ∨ is_digit19 c = true.
Proof. destruct c as [[] [] [] [] [] [] [] []]; vm_compute; intros; auto 10; done. Qed.

Lemma digit19_facts c :
  is_digit19 c = true ->
  is_digit c = true ∧ is_byte "0" c = false ∧ is_byte "." c = false
  ∧ is_byte "e" c = false ∧ is_byte "E" c = false ∧ is_byte "+" c = false
  ∧ is_byte "-" c = false ∧ json.isSpace c = false ∧ is_byte ":" c = false
  ∧ is_byte "," c = false ∧ is_byte "}" c = false ∧ is_byte "]" c = false.
Proof. destruct c as [[] [] [] [] [] [] [] []]; vm_compute; intros; try done. Qed.

Lemma not_number_byte_facts c :
  json.number_byte c = false ->
  is_digit c = false ∧ is_digit19 c = false ∧ is_byte "0" c = false
  ∧ is_byte "." c = false ∧ is_byte "e" c = false ∧ is_byte "E" c = false
  ∧ is_byte "+" c = false ∧ is_byte "-" c = false.
Proof. destruct c as [[] [] [] [] [] [] [] []]; vm_compute; intros; try done. Qed.

Lemma accepts_same_step sc1 sc2 c s :
  json.scan_step sc1 c = json.scan_step sc2 c ->
  accepts sc1 (String c s) -> accepts sc2 (String c s).
Proof. unfold accepts. cbn [json.scan_all]. by intros ->. Qed.

(** Once an error is recorded nothing is accepted. *)
Lemma accepts_StError ps t s :
  ¬ accepts {| json.step := json.StError; json.parseState := ps; json.err := true;
               json.endTop := t |} s.
Proof. destruct s as [|c s]; unfold accepts, json.eof; simpl; [discriminate|tauto]. Qed.

Lemma accepts_nil_string_state ps st : string_state st -> ¬ accepts (cfg st ps) "".
Proof.
  intros [->|[->|[->|[->| ->]]]]; unfold accepts; simpl; unfold json.eof; simpl;
    discriminate.
Qed.

(** The scanner leaves a string where the second reading does. *)
Lemma string_sim ps :
  forall (n : nat) (s : string) (st : json.step_fn),
    (String.length s <= n)%nat -> string_state st -> accepts (cfg st ps) s ->
    exists raw r, json.string_body s = Some (raw, r)
      ∧ accepts (cfg json.EndValue ps) r
      ∧ (String.length r < String.length s)%nat.
Proof.
  induction n as [|n IH]; intros s st Hlen Hst Hacc;
    (destruct s as [|c s]; [by destruct (accepts_nil_string_state ps st Hst)|]).
  { simpl in Hlen. lia. }
  simpl in Hlen. apply accepts_cons in Hacc as [Hne Hacc].
  destruct Hst as [->|Hhex].
  - (* InString *)
    unfold cfg, json.scan_step, json.stateInString in *. simpl in Hne, Hacc.
    cbn [json.string_body].
    test_on (is_byte quote c) as Equote.
    { exists ""%string, s. (split; [done|]); split; [done|simpl; lia]. }
    test_on (is_byte backslash c) as Eback.
    { destruct s as [|d s].
      { exfalso. revert Hacc. unfold accepts, json.eof. simpl. discriminate. }
      apply accepts_cons in Hacc as [Hne' Hacc].
      unfold json.scan_step, json.stateInStringEsc in *. simpl in Hne', Hacc.
      test_on (is_byte "b" d || is_byte "f" d || is_byte "n" d || is_byte "r" d
               || is_byte "t" d || is_byte backslash d || is_byte "/" d
               || is_byte quote d) as Eesc.
      - destruct (IH s json.InString ltac:(simpl in *; lia) ltac:(by left) Hacc)
          as (raw & r & -> & Hr & Hl).
        eexists _, r. (split; [done|]); split; [done|simpl; lia].
      - test_on (is_byte "u" d) as Eu; [|done].
        destruct (IH s json.InStringEscU ltac:(simpl in *; lia)
                    ltac:(by right; left) Hacc) as (raw & r & -> & Hr & Hl).
        eexists _, r. (split; [done|]); split; [done|simpl; lia]. }
    test_on (byte_code c <? 32)%N as Ectl; [done|].
    destruct (IH s json.InString ltac:(lia) ltac:(by left) Hacc)
      as (raw & r & -> & Hr & Hl).
    eexists _, r. (split; [done|]); split; [done|simpl; lia].
  - (* inside a \u escape *)
    assert (Hstep : exists next,
      string_state next
      ∧ json.scan_step (cfg st ps) c = json.stateHex next (cfg st ps) c).
    { destruct Hhex as [->|[->|[->| ->]]]; eexists; (split; [|reflexivity]);
        unfold string_state; auto 10. }
    destruct Hstep as (next & Hnext & Hstep). rewrite Hstep in Hne, Hacc.
    unfold json.stateHex in *.
    test_on (is_hex c) as Ehex; [|done].
    destruct (hex_facts c Ehex) as [Equote Eback].
    destruct (IH s next ltac:(lia) Hnext Hacc) as (raw & r & Hbody & Hr & Hl).
    rewrite Equote, Eback, Hbody.
    eexists _, r. (split; [done|]); split; [done|simpl; lia].
Qed.

(** The states inside [true], [false] and [null]. *)
Lemma lit_sim ps st e next s :
  (forall c, json.scan_step (cfg st ps) c = json.stateLit e next (cfg st ps) c) ->
  accepts (cfg st ps) s -> exists s', s = String e s' ∧ accepts (cfg next ps) s'.
Proof.
  intros Hstep Hacc. destruct s as [|c s].
  - exfalso. revert Hacc. unfold accepts, json.eof. cbn [json.scan_all cfg json.err json.endTop].
    rewrite (Hstep " "%char). unfold json.stateLit. by destruct (is_byte e " ").
  - apply accepts_cons in Hacc as [Hne Hacc]. rewrite Hstep in Hne, Hacc.
    unfold json.stateLit in *.
    destruct (is_byte e c) eqn:E; [|done].
    apply is_byte_true in E as ->. by exists s.
Qed.

Lemma true_sim ps s :
  accepts (cfg json.StT ps) s ->
  exists r, json.strip_prefix "rue" s = Some r ∧ accepts (cfg json.EndValue ps) r
    ∧ (String.length r < String.length s)%nat.
Proof.
  intros H.
  apply (lit_sim ps _ "r" json.Tr) in H as (s1 & -> & H); [|done].
  apply (lit_sim ps _ "u" json.Tru) in H as (s2 & -> & H); [|done].
  apply (lit_sim ps _ "e" json.EndValue) in H as (s3 & -> & H); [|done].
  exists s3. (split; [done|]); split; [done|simpl; lia].
Qed.

Lemma false_sim ps s :
  accepts (cfg json.StF ps) s ->
  exists r, json.strip_prefix "alse" s = Some r ∧ accepts (cfg json.EndValue ps) r
    ∧ (String.length r < String.length s)%nat.
Proof.
  intros H.
  apply (lit_sim ps _ "a" json.Fa) in H as (s1 & -> & H); [|done].
  apply (lit_sim ps _ "l" json.Fal) in H as (s2 & -> & H); [|done].
  apply (lit_sim ps _ "s" json.Fals) in H as (s3 & -> & H); [|done].
  apply (lit_sim ps _ "e" json.EndValue) in H as (s4 & -> & H); [|done].
  exists s4. (split; [done|]); split; [done|simpl; lia].
Qed.

Lemma null_sim ps s :
  accepts (cfg json.StN ps) s ->
  exists r, json.strip_prefix "ull" s = Some r ∧ accepts (cfg json.EndValue ps) r
    ∧ (String.length r < String.length s)%nat.
Proof.
  intros H.
  apply (lit_sim ps _ "u" json.Nu) in H as (s1 & -> & H); [|done].
  apply (lit_sim ps _ "l" json.Nul) in H as (s2 & -> & H); [|done].
  apply (lit_sim ps _ "l" json.EndValue) in H as (s3 & -> & H); [|done].
  exists s3. (split; [done|]); split; [done|simpl; lia].
Qed.

(** The scanner leaves a number where the second reading does: the first
    byte that cannot be part of a number. *)
Lemma stateEndValue_any_step ps st c :
  json.stateEndValue (cfg st ps) c = json.stateEndValue (cfg json.EndValue ps) c.
Proof. by destruct ps as [|[] ps]. Qed.

Lemma number_end_step ps st c :
  final_number_state st -> json.number_byte c = false ->
  json.scan_step (cfg st ps) c = json.scan_step (cfg json.EndValue ps) c.
Proof.
  intros Hst Hc.
  destruct (not_number_byte_facts c Hc) as (E1 & E2 & E3 & E4 & E5 & E6 & E7 & E8).
  destruct Hst as [->|[->|[->| ->]]];
    unfold json.scan_step, cfg, json.step, json.state1, json.state0, json.stateDot0,
      json.stateE0;
    rewrite ?E1, ?E4, ?E5, ?E6; simpl; apply (stateEndValue_any_step ps).
Qed.

Lemma number_eof ps st :
  final_number_state st -> accepts (cfg st ps) "" -> accepts (cfg json.EndValue ps) "".
Proof.
  intros [->|[->|[->| ->]]]; unfold accepts, json.eof; simpl;
    by destruct ps as [|[] ps].
Qed.

Lemma inner_number_eof ps st : inner_number_state st -> ¬ accepts (cfg st ps) "".
Proof. intros [->|[->|[->| ->]]]; unfold accepts, json.eof; simpl; discriminate. Qed.

Lemma inner_number_step ps st c :
  inner_number_state st -> json.number_byte c = false ->
  (json.scan_step (cfg st ps) c).2 = json.scanError.
Proof.
  intros Hst Hc.
  destruct (not_number_byte_facts c Hc) as (E1 & E2 & E3 & E4 & E5 & E6 & E7 & E8).
  destruct Hst as [->|[->|[->| ->]]];
    unfold json.scan_step, cfg, json.step, json.stateNeg, json.stateDot, json.stateE,
      json.stateESign;
    by rewrite ?E1, ?E2, ?E3, ?E7, ?E8.
Qed.

Lemma endValue_number_byte ps st c s :
  json.number_byte c = true ->
  (json.stateEndValue (cfg st ps) c).2 ≠ json.scanError ->
  ¬ accepts (json.stateEndValue (cfg st ps) c).1 s.
Proof.
  intros Hc.
  assert (Hfacts : json.isSpace c = false ∧ is_byte ":" c = false
    ∧ is_byte "," c = false ∧ is_byte "}" c = false ∧ is_byte "]" c = false).
  { revert Hc. destruct c as [[] [] [] [] [] [] [] []]; vm_compute; intros; try done. }
  destruct Hfacts as (E1 & E2 & E3 & E4 & E5).
  destruct ps as [|[] ps]; unfold json.stateEndValue, json.stateEndTop, cfg; simpl;
    rewrite ?E1, ?E2, ?E3, ?E4, ?E5; simpl; try done.
  intros _. apply accepts_StError.
Qed.

Local Arguments json.stateEndValue : simpl never.

Lemma number_byte_step ps st c s :
  number_state st -> json.number_byte c = true -> accepts (cfg st ps) (String c s) ->
  exists st', number_state st' ∧ accepts (cfg st' ps) s.
Proof.
  intros Hst Hc Hacc. apply accepts_cons in Hacc as [Hne Hacc].
  assert (Hend : forall st0,
    (json.stateEndValue (cfg st0 ps) c).2 ≠ json.scanError ->
    ¬ accepts (json.stateEndValue (cfg st0 ps) c).1 s).
  { intros st0. by apply endValue_number_byte. }
  assert (Hcases : (c = "-" ∨ c = "+" ∨ c = "." ∨ c = "e" ∨ c = "E" ∨ c = "0")%char
                   ∨ is_digit19 c = true).
  { destruct (number_byte_cases c Hc) as [?|[?|[?|[?|[?|[?|?]]]]]]; auto 10. }
  unfold number_state, final_number_state, inner_number_state.
  destruct Hcases as [Hcases|Hd].
  - destruct Hcases as [->|[->|[->|[->|[->| ->]]]]];
      destruct Hst as [[->|[->|[->| ->]]]|[->|[->|[->| ->]]]];
      unfold cfg, json.scan_step in *; simpl in Hne, Hacc; try done;
      try (by destruct (Hend _ Hne Hacc));
      eexists; (split; [|exact Hacc]); auto 10.
  - destruct (digit19_facts c Hd) as (E1 & E2 & E3 & E4 & E5 & E6 & E7 & _).
    destruct Hst as [[->|[->|[->| ->]]]|[->|[->|[->| ->]]]];
      unfold cfg, json.scan_step, json.state1, json.state0, json.stateDot0, json.stateE0,
        json.stateNeg, json.stateDot, json.stateE, json.stateESign in *;
      simpl in Hne, Hacc; rewrite ?Hd, ?E1, ?E2, ?E3, ?E4, ?E5, ?E6, ?E7 in Hne, Hacc;
      simpl in Hne, Hacc; try done;
      try (by destruct (Hend _ Hne Hacc));
      eexists; (split; [|exact Hacc]); auto 10.
Qed.

Lemma number_sim ps :
  forall (s : string) (st : json.step_fn),
    number_state st -> accepts (cfg st ps) s ->
    accepts (cfg json.EndValue ps) (json.number_lit s).2
    ∧ (String.length (json.number_lit s).2 <= String.length s)%nat.
Proof.
  induction s as [|c s IH]; intros st Hst Hacc.
  - split; [|done]. destruct Hst as [Hst|Hst].
    + by apply (number_eof ps st).
    + by destruct (inner_number_eof ps st Hst).
  - cbn [json.number_lit]. destruct (json.number_byte c) eqn:Hc.
    + destruct (number_byte_step ps st c s Hst Hc Hacc) as (st' & Hst' & Hacc').
      destruct (IH st' Hst' Hacc') as [Hr Hl].
      destruct (json.number_lit s) as [lit rest]. simpl in *. split; [done|lia].
    + split; [|done]. destruct Hst as [Hst|Hst].
      * apply (accepts_same_step (cfg st ps)); [|done]. by apply number_end_step.
      * apply accepts_cons in Hacc as [Hne _].
        by rewrite (inner_number_step ps st c Hst Hc) in Hne.
Qed.

(** White space between the tokens. *)
Lemma skip_space_accepts st ps :
  skipping st ps ->
  forall s, accepts (cfg st ps) s -> accepts (cfg st ps) (json.skip_space s).
Proof.
  intros Hst. induction s as [|c s IH]; [done|].
  cbn [json.skip_space]. destruct (json.isSpace c) eqn:Hc; [|done].
  intros Hacc. apply IH. apply accepts_cons in Hacc as [_ Hacc]. revert Hacc.
  destruct Hst as [->|[->|[->|[->|[-> Hps]]]]];
    unfold cfg, json.scan_step, json.stateBeginValue, json.stateBeginValueOrEmpty,
      json.stateBeginString, json.stateBeginStringOrEmpty, json.stateEndValue;
    simpl; rewrite ?Hc; try done.
  by destruct ps as [|p ps].
Qed.

Lemma skip_space_length s : (String.length (json.skip_space s) <= String.length s)%nat.
Proof.
  induction s as [|c s IH]; [done|]. cbn [json.skip_space].
  destruct (json.isSpace c); simpl; lia.
Qed.

Lemma skip_space_head s c s' : json.skip_space s = String c s' -> json.isSpace c = false.
Proof.
  induction s as [|d s IH]; [done|]. cbn [json.skip_space].
  destruct (json.isSpace d) eqn:Hd; [done|]. by intros [= <- _].
Qed.

Lemma skipping_nil st ps : skipping st ps -> ¬ accepts (cfg st ps) "".
Proof.
  intros [->|[->|[->|[->|[-> Hps]]]]]; unfold accepts, json.eof; simpl; try discriminate.
  by destruct ps as [|[] ps].
Qed.

(** What the scanner has accepted up to the next token. *)
Lemma next_token st ps s :
  skipping st ps -> accepts (cfg st ps) s ->
  exists c s', json.skip_space s = String c s' ∧ json.isSpace c = false
    ∧ accepts (cfg st ps) (String c s')
    ∧ (String.length s' < String.length s)%nat.
Proof.
  intros Hst Hacc. pose proof (skip_space_accepts st ps Hst s Hacc) as Hacc'.
  pose proof (skip_space_length s) as Hl.
  destruct (json.skip_space s) as [|c s'] eqn:Hs.
  - by destruct (skipping_nil st ps Hst).
  - exists c, s'. repeat split; [by apply (skip_space_head s c s')|done|simpl in Hl; lia].
Qed.

(** Opening and closing an object or an array. *)
Lemma accepts_top_done r : accepts top_done r -> accepts (cfg json.EndValue []) r.
Proof. destruct r as [|c r]; [done|]. by apply accepts_same_step. Qed.

Lemma accepts_pop st p ps r :
  accepts (json.popParseState (cfg st (p :: ps))) r -> accepts (cfg json.EndValue ps) r.
Proof. destruct ps as [|q ps]; [apply accepts_top_done|done]. Qed.

Lemma accepts_push st0 st p ps ok s :
  ok ≠ json.scanError ->
  (json.pushParseState (json.set_step (cfg st0 ps) st) p ok).2 ≠ json.scanError ->
  accepts (json.pushParseState (json.set_step (cfg st0 ps) st) p ok).1 s ->
  accepts (cfg st (p :: ps)) s.
Proof.
  unfold json.pushParseState.
  destruct (N.of_nat _ <=? json.maxNestingDepth)%N; [done|].
  intros _ Hne. by destruct Hne.
Qed.

(** One step of the scanner, in a hypothesis. *)
Ltac scanner_step Hne Hacc :=
  apply accepts_cons in Hacc as [Hne Hacc];
  unfold cfg, json.scan_step, json.stateBeginValue, json.stateBeginString,
    json.stateEndValue in Hne, Hacc;
  simpl in Hne, Hacc.

Local Arguments json.popParseState : simpl never.
Local Arguments json.pushParseState : simpl never.

(** The scanner and the second reading agree: what the scanner accepts
    from the start of a value, of the elements of an array and of the
    members of an object, the second reading reads, given fuel for it. *)
Lemma parse_sim :
  forall n : nat,
    (forall s ps, (2 * String.length s + 2 <= n)%nat ->
       accepts (cfg json.BeginValue ps) s ->
       exists v r, json.parse_value n s = Some (v, r)
         ∧ accepts (cfg json.EndValue ps) r
         ∧ (String.length r < String.length s)%nat)
    ∧ (forall s ps acc, (2 * String.length s + 3 <= n)%nat ->
       accepts (cfg json.BeginValue (json.parseArrayValue :: ps)) s ->
       exists v r, json.parse_elems n acc s = Some (v, r)
         ∧ accepts (cfg json.EndValue ps) r
         ∧ (String.length r < String.length s)%nat)
    ∧ (forall s ps acc, (2 * String.length s + 3 <= n)%nat ->
       accepts (cfg json.BeginString (json.parseObjectKey :: ps)) s ->
       exists v r, json.parse_members n acc s = Some (v, r)
         ∧ accepts (cfg json.EndValue ps) r
         ∧ (String.length r < String.length s)%nat).
Proof.
  induction n as [|n (IHv & IHe & IHm)].
  { repeat split; intros; lia. }
  split; [|split].
  - intros s ps Hn Hacc.
    destruct (next_token json.BeginValue ps s ltac:(by left) Hacc)
      as (c & s' & Hs & Hc & Hacc' & Hl).
    cbn [json.parse_value]. rewrite Hs.
    scanner_step Hne Hacc'. rewrite Hc in Hne, Hacc'.
    destruct (is_byte "{" c) eqn:Eobj.
    { apply accepts_push in Hacc'; [|done|done].
      destruct (next_token json.BeginStringOrEmpty (json.parseObjectKey :: ps) s'
                  ltac:(by right; right; right; left) Hacc')
        as (d & s'' & Hs' & Hd & Hacc'' & Hl').
      rewrite Hs'. destruct (is_byte "}" d) eqn:Eclose.
      - apply is_byte_true in Eclose as ->.
        apply accepts_cons in Hacc'' as [_ Hacc''].
        apply (accepts_pop json.BeginStringOrEmpty json.parseObjectValue) in Hacc''.
        eexists _, s''. (split; [done|]); split; [done|lia].
      - apply (accepts_same_step _ (cfg json.BeginString (json.parseObjectKey :: ps)))
          in Hacc''.
        2: { unfold cfg, json.scan_step, json.stateBeginStringOrEmpty,
               json.stateBeginString. simpl. by rewrite Hd, Eclose. }
        destruct (IHm (String d s'') ps [] ltac:(simpl in *; lia) Hacc'')
          as (v & r & -> & Hr & Hlr).
        exists v, r. (split; [done|]); split; [done|simpl in *; lia]. }
    destruct (is_byte "[" c) eqn:Earr.
    { apply accepts_push in Hacc'; [|done|done].
      destruct (next_token json.BeginValueOrEmpty (json.parseArrayValue :: ps) s'
                  ltac:(by right; left) Hacc')
        as (d & s'' & Hs' & Hd & Hacc'' & Hl').
      rewrite Hs'. destruct (is_byte "]" d) eqn:Eclose.
      - apply is_byte_true in Eclose as ->.
        apply accepts_cons in Hacc'' as [_ Hacc''].
        apply (accepts_pop json.BeginValueOrEmpty json.parseArrayValue) in Hacc''.
        eexists _, s''. (split; [done|]); split; [done|lia].
      - apply (accepts_same_step _ (cfg json.BeginValue (json.parseArrayValue :: ps)))
          in Hacc''.
        2: { unfold cfg, json.scan_step, json.stateBeginValueOrEmpty,
               json.stateBeginValue. simpl. by rewrite Hd, Eclose. }
        destruct (IHe (String d s'') ps [] ltac:(simpl in *; lia) Hacc'')
          as (v & r & -> & Hr & Hlr).
        exists v, r. (split; [done|]); split; [done|simpl in *; lia]. }
    destruct (is_byte quote c) eqn:Equote.
    { destruct (string_sim ps (String.length s') s' json.InString ltac:(lia)
                  ltac:(by left) Hacc') as (raw & r & -> & Hr & Hlr).
      eexists _, r. (split; [done|]); split; [done|lia]. }
    destruct (is_byte "t" c) eqn:Et.
    { apply is_byte_true in Et as ->. simpl in Hacc'.
      destruct (true_sim ps s' Hacc') as (r & -> & Hr & Hlr).
      eexists _, r. (split; [done|]); split; [done|lia]. }
    destruct (is_byte "f" c) eqn:Ef.
    { apply is_byte_true in Ef as ->. simpl in Hacc'.
      destruct (false_sim ps s' Hacc') as (r & -> & Hr & Hlr).
      eexists _, r. (split; [done|]); split; [done|lia]. }
    destruct (is_byte "n" c) eqn:En.
    { apply is_byte_true in En as ->. simpl in Hacc'.
      destruct (null_sim ps s' Hacc') as (r & -> & Hr & Hlr).
      eexists _, r. (split; [done|]); split; [done|lia]. }
    assert (Hnum : json.number_byte c = true
                   ∧ exists st, number_state st ∧ accepts (cfg st ps) s').
    { unfold number_state, final_number_state, inner_number_state.
      destruct (is_byte "-" c) eqn:Eneg.
      { apply is_byte_true in Eneg as ->. split; [done|]. eexists. split; [|exact Hacc'].
        auto 10. }
      destruct (is_byte "0" c) eqn:Ezero.
      { apply is_byte_true in Ezero as ->. split; [done|]. eexists. split; [|exact Hacc'].
        auto 10. }
      destruct (is_digit19 c) eqn:Edigit; [|done].
      split.
      - destruct (digit19_facts c Edigit) as (E1 & _). unfold json.number_byte.
        by rewrite E1.
      - eexists. split; [|exact Hacc']. auto 10. }
    destruct Hnum as (Hnb & st & Hst & Hnumacc).
    destruct (number_sim ps s' st Hst Hnumacc) as [Hr Hlr].
    cbn [json.number_lit]. rewrite Hnb.
    destruct (json.number_lit s') as [lit rest]. simpl in Hr, Hlr.
    eexists _, rest. (split; [done|]); split; [done|lia].
  - intros s ps acc Hn Hacc. cbn [json.parse_elems].
    destruct (IHv s (json.parseArrayValue :: ps) ltac:(lia) Hacc) as (v & r & -> & Hr & Hlr).
    destruct (next_token json.EndValue (json.parseArrayValue :: ps) r
                ltac:(by right; right; right; right) Hr)
      as (c & r' & Hs & Hc & Hacc' & Hl).
    rewrite Hs. scanner_step Hne Hacc'. rewrite Hc in Hne, Hacc'.
    destruct (is_byte "," c) eqn:Ecomma.
    + destruct (IHe r' ps (v :: acc) ltac:(lia) Hacc') as (v' & r2 & -> & Hr2 & Hl2).
      exists v', r2. (split; [done|]); split; [done|lia].
    + destruct (is_byte "]" c) eqn:Eclose; [|done].
      apply (accepts_pop json.EndValue json.parseArrayValue) in Hacc'.
      eexists _, r'. (split; [done|]); split; [done|lia].
  - intros s ps acc Hn Hacc. cbn [json.parse_members].
    destruct (next_token json.BeginString (json.parseObjectKey :: ps) s
                ltac:(by right; right; left) Hacc)
      as (c & s' & Hs & Hc & Hacc' & Hl).
    rewrite Hs. scanner_step Hne Hacc'. rewrite Hc in Hne, Hacc'.
    destruct (is_byte quote c) eqn:Equote; [|done].
    destruct (string_sim (json.parseObjectKey :: ps) (String.length s') s' json.InString
                ltac:(lia) ltac:(by left) Hacc') as (key & r & -> & Hr & Hlr).
    destruct (next_token json.EndValue (json.parseObjectKey :: ps) r
                ltac:(by right; right; right; right) Hr)
      as (d & r' & Hs' & Hd & Hacc2 & Hl2).
    rewrite Hs'. scanner_step Hne2 Hacc2. rewrite Hd in Hne2, Hacc2.
    destruct (is_byte ":" d) eqn:Ecolon; [|done].
    destruct (IHv r' (json.parseObjectValue :: ps) ltac:(lia) Hacc2)
      as (v & r2 & -> & Hr2 & Hlr2).
    destruct (next_token json.EndValue (json.parseObjectValue :: ps) r2
                ltac:(by right; right; right; right) Hr2)
      as (e & r3 & Hs3 & He & Hacc3 & Hl3).
    rewrite Hs3. scanner_step Hne3 Hacc3. rewrite He in Hne3, Hacc3.
    destruct (is_byte "," e) eqn:Ecomma.
    + destruct (IHm r3 ps ((key, v) :: acc) ltac:(lia) Hacc3) as (v' & r4 & -> & Hr4 & Hl4).
      exists v', r4. (split; [done|]); split; [done|lia].
    + destruct (is_byte "}" e) eqn:Eclose; [|done].
      apply (accepts_pop json.EndValue json.parseObjectValue) in Hacc3.
      eexists _, r3. (split; [done|]); split; [done|lia].
Qed.

(** Every text the scanner accepts is read by the second reading. *)
Lemma Valid_parse (text : string) :
  json.Valid text = true -> is_Some (json.parse text).
Proof.
  unfold json.Valid, json.parse. intros Hv.
  assert (Hacc : accepts (cfg json.BeginValue []) text).
  { unfold accepts. change (cfg json.BeginValue []) with json.reset.
    destruct (json.scan_all json.reset text) as [sf|]; [|done].
    unfold json.eof in *. destruct (json.err sf); [done|].
    destruct (json.endTop sf); [done|].
    by destruct (json.endTop (json.scan_step sf " ").1). }
  destruct (parse_sim (2 * String.length text + 2)) as (Hval & _).
  destruct (Hval text [] ltac:(lia) Hacc) as (v & r & -> & _). by exists v.
Qed.

(** On a text the scanner accepts, [unmarshal] stores the value the text
    encodes. *)
Lemma unmarshal_accepted (text : string) (res : Results) :
  json.Valid text = true ->
  exists v, json.parse text = Some v ∧ json.unmarshal text res = json.store_Results v res.
Proof.
  intros Hv. destruct (Valid_parse text Hv) as [v Hp]. exists v.
  unfold json.unmarshal. by rewrite Hp.
Qed.

End Adequacy.




(** A response document decodes to its variables and rows; on the decoded
    result every binding materializes. *)
Example ParseJSON_example_document :
  json.Valid example_document = true
  ∧ ParseJSON (NewReader example_document) = (example_document_result, None).
Proof. split; [vm_compute; reflexivity|]. vm_compute. reflexivity. Qed.

Example Bindings_example_document :
  @Bindings knakk_rdf example_document_result !! "x"
    = Some [TermIRI {| rdf.iri_str := "http://example.org/x" |};
            TypedLiteral "42" "http://www.w3.org/2001/XMLSchema#integer"]
  ∧ @Bindings knakk_rdf example_document_result !! "y"
    = Some [LangLiteral "hi" "en"].
Proof. split; reflexivity. Qed.


(** An error of the reader counts when the bytes end before the value
    does, and a number may go on: it is returned then, also after bytes
    that are a JSON text.  After the bracket that closes an object the
    value has ended, and the error is not looked at. *)
Example reader_error_at_the_end_of_the_bytes (e : error) :
  ParseJSON {| data := "12"; read_err := Some e |} = (Results_zero, Some e)
  ∧ ParseJSON {| data := "{}"; read_err := Some e |} = (Results_zero, None)
  ∧ ParseJSON (NewReader "12") = (Results_zero, Some (UnmarshalTypeError "number")).
Proof. repeat split; reflexivity. Qed.

(** The keys that name a field: letter case apart, and with the long s
    (U+017F) for an [s] and the Kelvin sign (U+212A) for a [k]. *)
Example keys_that_name_a_field :
  json.names_field "RESULTS" "Results" = true
  ∧ json.names_field "reſultſ" "Results" = true
  ∧ json.names_field "linK" "Link" = true
  ∧ json.names_field "XML:Lang" "xml:lang" = true
  ∧ json.names_field "result" "Results" = false.
Proof. repeat split; reflexivity. Qed.

(** * Further properties *)

(** ** strings.Contains *)

Lemma strip_prefix_spec (p s r : string) :
  json.strip_prefix p s = Some r <-> s = p +:+ r.
Proof.
  revert s. induction p as [|a p IH]; intros s.
  - change ("" +:+ r) with r. destruct s; simpl; split; congruence.
  - destruct s as [|c s]; simpl.
    + split; [done|]. rewrite append_cons. done.
    + rewrite append_cons. destruct (Ascii.eqb a c) eqn:E.
      * apply Ascii.eqb_eq in E as ->. rewrite IH. split; congruence.
      * apply Ascii.eqb_neq in E. split; [done|]. congruence.
Qed.

(** [strings.Contains] reports whether [substr] is within [s]. *)
Lemma Contains_spec (s substr : string) :
  Contains s substr = true <-> exists pre post, s = pre +:+ substr +:+ post.
Proof.
  induction s as [|c s IH].
  - cbn [Contains]. destruct (json.strip_prefix substr "") as [r|] eqn:E.
    + apply strip_prefix_spec in E. split; [|done]. intros _. by exists ""%string, r.
    + split; [done|]. intros (pre & post & Hs).
      destruct pre; [|by rewrite append_cons in Hs].
      apply (proj2 (strip_prefix_spec substr "" post)) in Hs. congruence.
  - cbn [Contains]. destruct (json.strip_prefix substr (String c s)) as [r|] eqn:E.
    + apply strip_prefix_spec in E. split; [|done]. intros _. by exists ""%string, r.
    + rewrite IH. split.
      * intros (pre & post & ->). exists (String c pre), post. by rewrite append_cons.
      * intros (pre & post & Hs). destruct pre as [|d pre].
        -- apply (proj2 (strip_prefix_spec substr (String c s) post)) in Hs.
           congruence.
        -- rewrite append_cons in Hs. injection Hs as -> ->. by exists pre, post.
Qed.

(** ** The search helpers *)

Lemma Find_cons_match needle predicate term haystack :
  matches needle predicate term ->
  FindObjectValueBySpecifiedPredicate needle predicate (term :: haystack) = term.
Proof. intros (val & Hval & Hc). cbn [FindObjectValueBySpecifiedPredicate]. by rewrite Hval, Hc. Qed.

Lemma Find_cons_no_match needle predicate term haystack :
  ¬ matches needle predicate term ->
  FindObjectValueBySpecifiedPredicate needle predicate (term :: haystack)
  = FindObjectValueBySpecifiedPredicate needle predicate haystack.
Proof.
  intros Hno. cbn [FindObjectValueBySpecifiedPredicate].
  destruct (term !! predicate) as [val|] eqn:Hval; [|done].
  destruct (Contains (Value val) needle) eqn:Hc; [|done].
  destruct Hno. by exists val.
Qed.

Lemma matches_nonempty needle predicate term : matches needle predicate term -> term ≠ ∅.
Proof. intros (val & Hval & _) ->. by rewrite lookup_empty in Hval. Qed.

Lemma Find_no_match needle predicate haystack :
  (forall t, t ∈ haystack -> ¬ matches needle predicate t) ->
  FindObjectValueBySpecifiedPredicate needle predicate haystack = ∅.
Proof.
  induction haystack as [|term haystack IH]; intros Hno; [done|].
  rewrite Find_cons_no_match by (apply Hno; left).
  apply IH. intros t Ht. apply Hno. by right.
Qed.

Lemma Find_first needle predicate haystack :
  (exists i term, haystack !! i = Some term ∧ matches needle predicate term
     ∧ (forall j t, (j < i)%nat -> haystack !! j = Some t -> ¬ matches needle predicate t)
     ∧ FindObjectValueBySpecifiedPredicate needle predicate haystack = term)
  ∨ ((forall t, t ∈ haystack -> ¬ matches needle predicate t)
     ∧ FindObjectValueBySpecifiedPredicate needle predicate haystack = ∅).
Proof.
  induction haystack as [|term haystack IH].
  - right. split; [|done]. intros t Ht. by apply elem_of_nil in Ht.
  - destruct (decide (matches needle predicate term)) as [Hm|Hno].
    + left. exists 0%nat, term. split; [done|]. split; [done|]. split; [lia|].
      by apply Find_cons_match.
    + rewrite (Find_cons_no_match _ _ _ _ Hno).
      destruct IH as [(i & t & Hi & Hm & Hbefore & Hres)|[Hnone Hres]].
      * left. exists (S i), t. split; [done|]. split; [done|]. split; [|done].
        intros [|j] t' Hj Ht'; simpl in Ht'.
        -- by injection Ht' as <-.
        -- apply (Hbefore j); [lia|done].
      * right. split; [|done]. intros t [->|Ht]%elem_of_cons; [done|by apply Hnone].
Qed.

(** X1.  [FindObjectValueBySpecifiedPredicate] returns the first row, in
    the order of the rows, that binds [predicate] to a value containing
    [needle]: no row before it does.  When no row does, it returns an empty
    map. *)
Theorem FindObjectValueBySpecifiedPredicate_first_match
    (needle predicate : string) (haystack : list (gmap string Binding)) :
  (exists i term,
     haystack !! i = Some term
     ∧ (exists val pre post,
          term !! predicate = Some val ∧ Value val = pre +:+ needle +:+ post)
     ∧ (forall j t val, (j < i)%nat -> haystack !! j = Some t ->
          t !! predicate = Some val -> Contains (Value val) needle = false)
     ∧ FindObjectValueBySpecifiedPredicate needle predicate haystack = term)
  ∨ ((forall t val, t ∈ haystack -> t !! predicate = Some val ->
        Contains (Value val) needle = false)
     ∧ FindObjectValueBySpecifiedPredicate needle predicate haystack = ∅).
Proof.
  assert (Hno : forall t, ¬ matches needle predicate t ->
    forall val, t !! predicate = Some val -> Contains (Value val) needle = false).
  { intros t Hn val Hval. destruct (Contains (Value val) needle) eqn:E; [|done].
    destruct Hn. by exists val. }
  destruct (Find_first needle predicate haystack)
    as [(i & term & Hi & (val & Hval & Hc) & Hbefore & Hres)|[Hnone Hres]].
  - left. exists i, term. split; [done|]. split; [|split; [|done]].
    + apply Contains_spec in Hc as (pre & post & Hv). by exists val, pre, post.
    + intros j t v Hj Ht. apply Hno. by apply (Hbefore j).
  - right. split; [|done]. intros t val Ht. by apply Hno, Hnone.
Qed.

(** X2.  The empty map is an unambiguous "not found": the result of
    [FindObjectValueBySpecifiedPredicate] is empty exactly when no row
    binds [predicate] to a value containing [needle]; any other result is
    a row of [haystack] that does. *)
Theorem FindObjectValueBySpecifiedPredicate_not_found
    (needle predicate : string) (haystack : list (gmap string Binding)) :
  (FindObjectValueBySpecifiedPredicate needle predicate haystack = ∅
   <-> forall t, t ∈ haystack -> ¬ matches needle predicate t)
  ∧ (FindObjectValueBySpecifiedPredicate needle predicate haystack ≠ ∅ ->
     FindObjectValueBySpecifiedPredicate needle predicate haystack ∈ haystack
     ∧ matches needle predicate
         (FindObjectValueBySpecifiedPredicate needle predicate haystack)).
Proof.
  destruct (Find_first needle predicate haystack)
    as [(i & term & Hi & Hm & Hbefore & Hres)|[Hnone Hres]]; rewrite Hres.
  - split.
    + split.
      * intros ->. by destruct (matches_nonempty _ _ _ Hm).
      * intros Hnone. destruct (Hnone term); [by eapply list_elem_of_lookup_2|done].
    + intros _. split; [by eapply list_elem_of_lookup_2|done].
  - split; [done|]. by intros [].
Qed.

(** X3.  [FindObjectValueByPredicate] is the search of
    [FindObjectValueBySpecifiedPredicate] on the variable "p". *)
Theorem FindObjectValueByPredicate_is_specified_p
    (needle : string) (haystack : list (gmap string Binding)) :
  FindObjectValueByPredicate needle haystack
  = FindObjectValueBySpecifiedPredicate needle "p" haystack.
Proof.
  induction haystack as [|term haystack IH]; [done|].
  cbn [FindObjectValueByPredicate FindObjectValueBySpecifiedPredicate].
  by rewrite IH.
Qed.

Lemma Contains_empty (s : string) : Contains s "" = true.
Proof. by destruct s. Qed.

(** X4.  With the empty needle every bound value matches: the search
    returns the first row that binds [predicate], whatever it is bound
    to. *)
Theorem FindObjectValueBySpecifiedPredicate_empty_needle
    (predicate : string) (haystack : list (gmap string Binding)) :
  FindObjectValueBySpecifiedPredicate "" predicate haystack
  = hd ∅ (binding_rows predicate haystack).
Proof.
  unfold binding_rows. induction haystack as [|term haystack IH]; [done|].
  cbn [FindObjectValueBySpecifiedPredicate]. rewrite filter_cons.
  destruct (term !! predicate) as [val|] eqn:Hval.
  - rewrite Contains_empty. by rewrite decide_True.
  - rewrite decide_False; [done|]. by intros [? ?].
Qed.

(** X5.  [GetValue] reads the match off the row the search returns: on
    the row found, [GetValue predicate] is a value that contains [needle];
    on the empty map of a search that found nothing it is the empty
    string. *)
Theorem GetValue_of_found_row (needle predicate : string)
    (haystack : list (gmap string Binding)) :
  let found := FindObjectValueBySpecifiedPredicate needle predicate haystack in
  (found ≠ ∅ -> Contains (GetValue predicate [found]) needle = true)
  ∧ (found = ∅ -> GetValue predicate [found] = "").
Proof.
  intros found. split.
  - intros Hne. unfold found in *.
    destruct (Find_first needle predicate haystack)
      as [(i & term & Hi & (val & Hval & Hc) & _ & Hres)|[_ Hres]]; [|done].
    rewrite Hres. unfold GetValue. simpl. by rewrite Hval.
  - intros ->. done.
Qed.

(** ** Grouping *)

Lemma group_of_cons (needle val : string) (term : gmap string Binding)
    (results : list (gmap string Binding)) :
  group_of needle val (term :: results)
  = (if decide (Value <$> term !! needle = Some val) then [term] else [])
    ++ group_of needle val results.
Proof. unfold group_of. rewrite filter_cons. by case_decide. Qed.

(** One round of the loop of [ListOf] appends the row to the group of the
    value it binds, and leaves every other group alone. *)
Lemma ListOf_step_lookup (needle val : string)
    (toReturn : gmap string (list (gmap string Binding))) (term : gmap string Binding) :
  ListOf_step needle toReturn term !! val
  = if decide (Value <$> term !! needle = Some val)
    then Some (toReturn !!! val ++ [term])
    else toReturn !! val.
Proof.
  unfold ListOf_step. destruct (term !! needle) as [b|] eqn:Hb; simpl.
  - rewrite (lookup_total_correct _ _ _ Hb).
    set (toReturn1 := if decide (length (toReturn !!! Value b) < 1)%nat
                      then <[Value b := []]> toReturn else toReturn).
    assert (Hsame : toReturn1 !!! Value b = toReturn !!! Value b).
    { unfold toReturn1. case_decide as Hlen; [|done]. rewrite lookup_total_insert_eq.
      destruct (toReturn !!! Value b); [done|simpl in Hlen; lia]. }
    assert (Hother : Value b ≠ val -> toReturn1 !! val = toReturn !! val).
    { intros Hne. unfold toReturn1. case_decide; [by rewrite lookup_insert_ne|done]. }
    clearbody toReturn1. rewrite Hsame.
    destruct (decide (Value b = val)) as [<-|Hne].
    + rewrite decide_True by done. by rewrite lookup_insert_eq.
    + rewrite decide_False by congruence.
      rewrite lookup_insert_ne by done. by apply Hother.
  - try (rewrite decide_False by done); done.
Qed.

Lemma ListOf_step_lookup_total (needle val : string)
    (toReturn : gmap string (list (gmap string Binding))) (term : gmap string Binding) :
  ListOf_step needle toReturn term !!! val
  = toReturn !!! val
    ++ (if decide (Value <$> term !! needle = Some val) then [term] else []).
Proof.
  rewrite (lookup_total_alt (ListOf_step needle toReturn term)), ListOf_step_lookup.
  case_decide; [done|]. by rewrite app_nil_r, lookup_total_alt.
Qed.

Lemma foldl_ListOf_step_lookup (needle val : string) (results : list (gmap string Binding)) :
  forall toReturn : gmap string (list (gmap string Binding)),
    foldl (ListOf_step needle) toReturn results !! val
    = match group_of needle val results with
      | [] => toReturn !! val
      | g => Some (toReturn !!! val ++ g)
      end.
Proof.
  induction results as [|term results IH]; intros toReturn; [done|].
  cbn [foldl]. rewrite IH, group_of_cons, ListOf_step_lookup, ListOf_step_lookup_total.
  case_decide as Hv; simpl.
  - destruct (group_of needle val results); [done|]. by rewrite <- app_assoc.
  - by rewrite app_nil_r.
Qed.

Lemma ListOf_lookup (results : list (gmap string Binding)) (needle val : string) :
  ListOf results needle !! val
  = match group_of needle val results with [] => None | g => Some g end.
Proof.
  unfold ListOf. rewrite foldl_ListOf_step_lookup, lookup_empty, lookup_total_empty.
  reflexivity.
Qed.

Lemma ListOf_lookup_total (results : list (gmap string Binding)) (needle val : string) :
  ListOf results needle !!! val = group_of needle val results.
Proof.
  rewrite lookup_total_alt, ListOf_lookup. by destruct (group_of needle val results).
Qed.

(** X6.  [ListOf] groups the rows by the value they bind to [needle]: the
    group of [val] holds the rows that bind [needle] to a binding of value
    [val], all of them, in the order of the rows, and nothing else; a value
    no row binds has no group (no group is empty). *)
Theorem ListOf_groups (results : list (gmap string Binding)) (needle val : string) :
  ListOf results needle !! val
  = (if decide (group_of needle val results = []) then None
     else Some (group_of needle val results))
  ∧ (forall term, term ∈ group_of needle val results
       <-> term ∈ results ∧ exists b, term !! needle = Some b ∧ Value b = val)
  ∧ group_of needle val results `sublist_of` results.
Proof.
  split; [|split].
  - rewrite ListOf_lookup. by destruct (group_of needle val results).
  - intros term. unfold group_of. rewrite list_elem_of_filter. split.
    + intros [Hv Hin]. split; [done|].
      destruct (term !! needle) as [b|]; [|done]. injection Hv as <-. by exists b.
    + intros [Hin (b & Hb & <-)]. split; [|done]. by rewrite Hb.
  - apply sublist_filter.
Qed.

(** X7.  Grouping composes with concatenation: the group of a value in
    [ListOf] of two slices one after the other is its group in the first
    followed by its group in the second. *)
Theorem ListOf_app (results1 results2 : list (gmap string Binding)) (needle val : string) :
  ListOf (results1 ++ results2) needle !!! val
  = ListOf results1 needle !!! val ++ ListOf results2 needle !!! val.
Proof. rewrite !ListOf_lookup_total. unfold group_of. apply filter_app. Qed.

(** X8.  Every group of [ListOf] answers [GetValue] with its own key: the
    group is not empty, each of its rows binds [needle] to the key, and
    [GetValue needle] of the group is the key. *)
Theorem ListOf_group_GetValue (results : list (gmap string Binding)) (needle val : string)
    (group : list (gmap string Binding)) :
  ListOf results needle !! val = Some group ->
  group ≠ []
  ∧ (forall term, term ∈ group -> Value <$> term !! needle = Some val)
  ∧ GetValue needle group = val.
Proof.
  rewrite ListOf_lookup. intros Hg.
  assert (Hgroup : group = group_of needle val results ∧ group ≠ []).
  { destruct (group_of needle val results); [done|]. by injection Hg as <-. }
  destruct Hgroup as [-> Hne]. split; [done|].
  assert (Hall : forall term, term ∈ group_of needle val results ->
                              Value <$> term !! needle = Some val).
  { intros term. unfold group_of. rewrite list_elem_of_filter. tauto. }
  split; [done|].
  destruct (group_of needle val results) as [|term rest]; [done|].
  pose proof (Hall term ltac:(left)) as Hterm.
  unfold GetValue. rewrite decide_False by done.
  change ((term :: rest) !!! 0%nat) with term.
  destruct (term !! needle) as [b|]; [|done]. by injection Hterm.
Qed.

Lemma grouped_rows_insert (k : string) (g : list (gmap string Binding))
    (m : gmap string (list (gmap string Binding))) :
  grouped_rows (<[k := g]> m) ≡ₚ g ++ grouped_rows (delete k m).
Proof.
  unfold grouped_rows. rewrite <- insert_delete_eq.
  rewrite map_to_list_insert by apply lookup_delete_eq. done.
Qed.

Lemma grouped_rows_lookup_total (k : string) (m : gmap string (list (gmap string Binding))) :
  grouped_rows m ≡ₚ m !!! k ++ grouped_rows (delete k m).
Proof.
  rewrite lookup_total_alt. destruct (m !! k) as [g|] eqn:Hk; simpl.
  - rewrite <- grouped_rows_insert. by rewrite insert_id.
  - by rewrite delete_id.
Qed.

Lemma ListOf_step_grouped_rows (needle : string)
    (toReturn : gmap string (list (gmap string Binding))) (term : gmap string Binding) :
  grouped_rows (ListOf_step needle toReturn term)
  ≡ₚ grouped_rows toReturn ++ (if decide (is_Some (term !! needle)) then [term] else []).
Proof.
  unfold ListOf_step. destruct (term !! needle) as [b|] eqn:Hb.
  - replace (if decide (is_Some (Some b)) then [term] else []) with [term]
      by (by rewrite decide_True by eauto).
    simpl. rewrite (lookup_total_correct _ _ _ Hb).
    set (toReturn1 := if decide (length (toReturn !!! Value b) < 1)%nat
                      then <[Value b := []]> toReturn else toReturn).
    assert (Hsame : grouped_rows toReturn1 ≡ₚ grouped_rows toReturn).
    { unfold toReturn1. case_decide as Hlen; [|done].
      rewrite grouped_rows_insert, (grouped_rows_lookup_total (Value b) toReturn).
      destruct (toReturn !!! Value b); [done|simpl in Hlen; lia]. }
    rewrite <- Hsame. clearbody toReturn1.
    rewrite grouped_rows_insert, (grouped_rows_lookup_total (Value b) toReturn1).
    rewrite <- !app_assoc. apply Permutation_app_head, Permutation_app_comm.
  - rewrite decide_False by (by intros [? ?]). by rewrite app_nil_r.
Qed.

Lemma foldl_ListOf_step_grouped_rows (needle : string)
    (results : list (gmap string Binding)) :
  forall toReturn : gmap string (list (gmap string Binding)),
    grouped_rows (foldl (ListOf_step needle) toReturn results)
    ≡ₚ grouped_rows toReturn ++ binding_rows needle results.
Proof.
  induction results as [|term results IH]; intros toReturn.
  - by rewrite app_nil_r.
  - cbn [foldl]. rewrite IH, ListOf_step_grouped_rows.
    unfold binding_rows. rewrite filter_cons, <- app_assoc.
    apply Permutation_app_head. by case_decide.
Qed.

(** X9.  The groups of [ListOf] partition the rows that bind [needle]:
    taken together they hold exactly those rows, each as many times as it
    occurs among the rows, and the keys are exactly the values bound to
    [needle].  The rows that do not bind [needle] are in no group. *)
Theorem ListOf_partition (results : list (gmap string Binding)) (needle : string) :
  grouped_rows (ListOf results needle) ≡ₚ binding_rows needle results
  ∧ dom (ListOf results needle)
    = list_to_set (omap (fun term : gmap string Binding => Value <$> term !! needle) results).
Proof.
  split.
  - unfold ListOf. rewrite foldl_ListOf_step_grouped_rows. done.
  - apply set_eq. intros k. rewrite elem_of_dom, ListOf_lookup, elem_of_list_to_set.
    rewrite list_elem_of_omap. unfold group_of. split.
    + intros Hsome.
      destruct (filter _ results) as [|term rest] eqn:Hf; [by destruct Hsome|].
      assert (Hin : term ∈ filter (fun term : gmap string Binding =>
                                     Value <$> term !! needle = Some k) results)
        by (rewrite Hf; left).
      apply list_elem_of_filter in Hin as [Hv Hin]. by exists term.
    + intros (term & Hin & Hv).
      assert (Hin' : term ∈ filter (fun term : gmap string Binding =>
                                      Value <$> term !! needle = Some k) results)
        by (by apply list_elem_of_filter).
      destruct (filter _ results); [by apply elem_of_nil in Hin'|done].
Qed.

(** ** Materialization *)

Section MoreMaterialization.
Context `{RdfPackage}.

(** No round of [Bindings] stores an empty sequence. *)
Lemma Bindings_step_nonempty (v : string) (rb : gmap string (list Term))
    (s : gmap string Binding) :
  (forall k ts, rb !! k = Some ts -> ts ≠ []) ->
  forall k ts, Bindings_step v rb s !! k = Some ts -> ts ≠ [].
Proof.
  intros Hrb k ts. unfold Bindings_step.
  destruct (termFromJSON (s !!! v)) as [t|e]; [|apply Hrb].
  destruct (decide (k = v)) as [->|Hne].
  - rewrite lookup_insert_eq. intros [= <-]. by destruct (rb !!! v).
  - rewrite lookup_insert_ne by done. apply Hrb.
Qed.

Lemma Bindings_nonempty (r : Results) (k : string) (ts : list Term) :
  Bindings r !! k = Some ts -> ts ≠ [].
Proof.
  unfold Bindings. revert k ts.
  assert (Hrows : forall v rs (rb : gmap string (list Term)),
    (forall k ts, rb !! k = Some ts -> ts ≠ []) ->
    forall k ts, foldl (Bindings_step v) rb rs !! k = Some ts -> ts ≠ []).
  { intros v. induction rs as [|s rs IH]; intros rb Hrb; [done|].
    cbn [foldl]. by apply IH, Bindings_step_nonempty. }
  assert (Hvars : forall vars (rb : gmap string (list Term)),
    (forall k ts, rb !! k = Some ts -> ts ≠ []) ->
    forall k ts,
      foldl (fun rb v => foldl (Bindings_step v) rb (rows r)) rb vars !! k = Some ts ->
      ts ≠ []).
  { induction vars as [|x vars IH]; intros rb Hrb; [done|].
    cbn [foldl]. by apply IH, Hrows. }
  apply Hvars. intros k ts. by rewrite lookup_empty.
Qed.

Lemma Bindings_lookup_total (r : Results) (v : string) :
  Bindings r !! v = match Bindings r !!! v with [] => None | ts => Some ts end.
Proof.
  rewrite lookup_total_alt. destruct (Bindings r !! v) as [ts|] eqn:Hv; [|done].
  simpl. pose proof (Bindings_nonempty r v ts Hv). by destruct ts.
Qed.

Lemma Bindings_total_well_formed (r : Results) (v : string) :
  well_formed r ->
  Bindings r !!! v = if decide (v ∈ Vars (Head r)) then terms_of v (rows r) else [].
Proof.
  intros Hwf. rewrite Bindings_total. case_decide as Hv.
  - pose proof (declared_times_NoDup v _ Hwf). pose proof (declared_times_elem_of v _ Hv).
    destruct (declared_times v (Vars (Head r))) as [|[|n]]; [lia| |lia].
    simpl. by rewrite app_nil_r.
  - by rewrite declared_times_not_elem_of.
Qed.

(** A row that does not bind [v] gives [v] no term: the zero binding read
    from it has no known kind. *)
Lemma term_of_lookup_total (s : gmap string Binding) (v : string) :
  term_of (s !!! v) = s !! v ≫= term_of.
Proof.
  rewrite lookup_total_alt. destruct (s !! v); [done|]. simpl.
  change (@inhabitant Binding _) with Binding_zero.
  apply term_of_unknown, Binding_zero_unknown.
Qed.

Lemma terms_of_materialized (v : string) (rs : list (gmap string Binding)) :
  terms_of v rs
  = omap (fun solution : gmap string Term => solution !! v) (materialized <$> rs).
Proof.
  unfold terms_of. induction rs as [|s rs IH]; [done|].
  rewrite fmap_cons. cbn [omap list_omap]. rewrite <- IH.
  replace (materialized s !! v) with (term_of (s !!! v)); [done|].
  unfold materialized. by rewrite lookup_omap, term_of_lookup_total.
Qed.

(** X10.  For a result that declares every variable once, [Bindings] gives
    a declared variable the terms of its bindings that materialize, in row
    order.  A variable with no such term has no key at all (not an empty
    sequence), and neither has a variable the head does not declare. *)
Theorem Bindings_lookup (r : Results) (v : string) :
  well_formed r ->
  Bindings r !! v
  = if decide (v ∈ Vars (Head r) ∧ terms_of v (rows r) ≠ [])
    then Some (terms_of v (rows r)) else None.
Proof.
  intros Hwf. rewrite Bindings_lookup_total, (Bindings_total_well_formed r v Hwf).
  destruct (decide (v ∈ Vars (Head r))) as [Hv|Hv].
  - destruct (terms_of v (rows r)) as [|t ts] eqn:Hts.
    + rewrite decide_False; [done|]. by intros [_ ?].
    + by rewrite decide_True.
  - rewrite decide_False; [done|]. by intros [? _].
Qed.

(** X11.  [Bindings] is [Solutions] read by column: for a result that
    declares every variable once and a declared variable, the terms
    [Bindings] gives the variable are the terms the solutions bind it to,
    in the order of the solutions.  A variable bound in the rows but not
    declared in the head is in the solutions and not in [Bindings]. *)
Theorem Bindings_column_of_Solutions (r : Results)
    (schedule : list (list (string * Binding))) (v : string) :
  well_formed r -> range_schedule r schedule ->
  (v ∈ Vars (Head r) ->
   Bindings r !!! v
   = omap (fun solution : gmap string Term => solution !! v) (Solutions_in schedule))
  ∧ (v ∉ Vars (Head r) -> Bindings r !! v = None).
Proof.
  intros Hwf Hsch. split; intros Hv.
  - rewrite (Bindings_total_well_formed r v Hwf), decide_True by done.
    rewrite (Solutions_in_spec r schedule Hsch). apply terms_of_materialized.
  - rewrite Bindings_lookup_total, (Bindings_total_well_formed r v Hwf).
    by rewrite decide_False.
Qed.

(** X12.  [termFromJSON] reads only the fields of the binding's kind: for
    a "literal" the [DataType] plays no part (a literal that carries a
    datatype materializes as one that carries none), for a "typed-literal"
    the [Lang] plays none, for a "uri" and a "bnode" neither does. *)
Theorem termFromJSON_fields_of_kind (b : Binding) (datatype lang : string) :
  (Type_ b = "literal" -> termFromJSON (with_DataType b datatype) = termFromJSON b)
  ∧ (Type_ b = "typed-literal" -> termFromJSON (with_Lang b lang) = termFromJSON b)
  ∧ (Type_ b = "uri" ∨ Type_ b = "bnode" ->
     termFromJSON (with_DataType (with_Lang b lang) datatype) = termFromJSON b).
Proof.
  unfold termFromJSON, with_DataType, with_Lang. simpl.
  split; [|split].
  - intros ->. by repeat case_decide.
  - intros ->. by repeat case_decide.
  - intros [-> | ->]; by repeat case_decide.
Qed.

(** X13.  The term [termFromJSON] returns is of the binding's kind: a
    blank node for "bnode", an IRI for "uri", a literal for "literal" and
    "typed-literal"; no other kind yields a term. *)
Theorem termFromJSON_term_of_kind (b : Binding) (t : Term) :
  termFromJSON b = Ok t ->
  (Type_ b = "bnode" ∧ exists x, NewBlank (Value b) = Ok x ∧ t = TermBlank x)
  ∨ (Type_ b = "uri" ∧ exists i, NewIRI (Value b) = Ok i ∧ t = TermIRI i)
  ∨ (Type_ b = "literal" ∧ exists l, t = TermLiteral l)
  ∨ (Type_ b = "typed-literal"
     ∧ exists i, NewIRI (DataType b) = Ok i ∧ t = TermLiteral (NewTypedLiteral (Value b) i)).
Proof.
  unfold termFromJSON. repeat case_decide; try done.
  - destruct (NewBlank (Value b)) as [x|] eqn:E; [|done]. intros [= <-]. left. eauto.
  - destruct (NewIRI (Value b)) as [i|] eqn:E; [|done]. intros [= <-]. right; left. eauto.
  - destruct (NewLangLiteral (Value b) (Lang b)) as [l|]; [|done]. intros [= <-].
    right; right; left. eauto.
  - intros [= <-]. right; right; left. eauto.
  - destruct (NewIRI (DataType b)) as [i|] eqn:E; [|done]. intros [= <-].
    right; right; right. eauto.
Qed.

End MoreMaterialization.

(** ** The options of the package *)

Lemma configured_snoc (c : Client) (os : list package_option) (o : package_option) :
  configured c (os ++ [o]) = configure_step (configured c os) o.
Proof. unfold configured. by rewrite foldl_app. Qed.

Lemma SetOption_package_options (os : list package_option) :
  forall r : Repo,
    SetOption (option_of <$> os) r
    = ({| endpoint := endpoint r; client := configured (client r) os |}, None).
Proof.
  induction os as [|o os IH]; intros r.
  - by destruct r.
  - rewrite fmap_cons. cbn [SetOption].
    destruct o as [username password|t]; simpl; by rewrite IH.
Qed.

Lemma configured_fields (c : Client) (os : list package_option) :
  Transport (configured c os) = default (Transport c) (last_Transport os)
  ∧ client_Timeout (configured c os) = default (client_Timeout c) (last_Timeout os).
Proof.
  induction os as [|o os IH] using rev_ind; [done|].
  rewrite configured_snoc. unfold last_Transport, last_Timeout in *.
  rewrite !omap_app. destruct IH as [IH1 IH2].
  destruct o as [username password|t]; simpl;
    rewrite ?app_nil_r, ?last_snoc; simpl; done.
Qed.

(** X14.  The options of the package never fail and never touch the
    endpoint.  [NewRepo] with any sequence of [DigestAuth] and [Timeout]
    options returns no error and a [Repo] for the address given whose
    client has the transport of the last [DigestAuth] and the timeout of
    the last [Timeout] (those of [http.DefaultClient] when there is none):
    an earlier option of the same kind is overwritten, and the order
    between the two kinds is immaterial. *)
Theorem NewRepo_package_options
    (DefaultClient : Client) (addr : string) (os : list package_option) :
  NewRepo DefaultClient addr (option_of <$> os)
  = ({| endpoint := addr;
        client := {| Transport := default (Transport DefaultClient) (last_Transport os);
                     client_Timeout :=
                       default (client_Timeout DefaultClient) (last_Timeout os) |} |},
     None).
Proof.
  unfold NewRepo. rewrite SetOption_package_options. simpl.
  destruct (configured_fields DefaultClient os) as [<- <-].
  by destruct (configured DefaultClient os).
Qed.

(** X15.  Two calls of [SetOption] one after the other are one call with
    the options of both, as long as the first call returns no error; when
    it returns one, the call with the options of both returns the same
    error and the same [Repo], and applies none of the second. *)
Theorem SetOption_app (options1 options2 : list RepoOption) (r : Repo) :
  SetOption (options1 ++ options2) r
  = match SetOption options1 r with
    | (r', Some err) => (r', Some err)
    | (r', None) => SetOption options2 r'
    end.
Proof.
  revert r. induction options1 as [|opt options1 IH]; intros r; [done|].
  cbn [app SetOption]. destruct (opt r) as [r' [err|]]; [done|]. apply IH.
Qed.

(** The heap after the options [os] have written to the client at [a]. *)
Lemma shared_SetOption_package_options (a : N) (os : list package_option) :
  forall (r : shared.Repo) (w : shared.World),
    shared.client r = Some a ->
    exists w',
      shared.SetOption (shared.option_of <$> os) r w = shared.Returns (r, w', None)
      ∧ shared.DefaultClient w' = shared.DefaultClient w
      ∧ shared.clients w' a = configured (shared.clients w a) os
      ∧ forall a', a' ≠ a -> shared.clients w' a' = shared.clients w a'.
Proof.
  induction os as [|o os IH]; intros r w Hr.
  - exists w. by repeat split.
  - rewrite fmap_cons. cbn [shared.SetOption].
    set (w1 := shared.write a (configure_step (shared.clients w a) o) w).
    assert (Hstep : shared.option_of o r w = shared.Returns (r, w1, None)).
    { destruct o; simpl; unfold shared.DigestAuth, shared.Timeout; by rewrite Hr. }
    rewrite Hstep. destruct (IH r w1 Hr) as (w' & Hrun & Hdc & Ha & Hother).
    exists w'. split; [done|]. split; [done|]. split.
    + rewrite Ha. unfold w1. simpl. by rewrite decide_True.
    + intros a' Hne. rewrite (Hother a' Hne). unfold w1. simpl. by rewrite decide_False.
Qed.

(** X16.  [NewRepo] hands out [http.DefaultClient] itself, and the options
    of the package write to it: after [NewRepo] with [DigestAuth] and
    [Timeout] options the process-wide default client has their transport
    and timeout, and so has every [Repo] that holds the default client, as
    every [Repo] that [NewRepo] has returned before does.  No other client
    is written to. *)
Theorem NewRepo_configures_DefaultClient
    (w : shared.World) (a : N) (addr : string) (os : list package_option) :
  shared.DefaultClient w = Some a ->
  exists w',
    shared.NewRepo addr (shared.option_of <$> os) w
    = shared.Returns ({| shared.endpoint := addr; shared.client := Some a |}, w', None)
    ∧ shared.DefaultClient w' = Some a
    ∧ shared.clients w' a = configured (shared.clients w a) os
    ∧ (forall a', a' ≠ a -> shared.clients w' a' = shared.clients w a')
    ∧ (forall r0, shared.client r0 = Some a ->
         shared.client_of r0 w' = Some (configured (shared.clients w a) os)).
Proof.
  intros Hdc. unfold shared.NewRepo. rewrite Hdc.
  destruct (shared_SetOption_package_options a os
              {| shared.endpoint := addr; shared.client := Some a |} w eq_refl)
    as (w' & Hrun & Hdc' & Ha & Hother).
  exists w'. split; [done|]. split; [congruence|]. split; [done|]. split; [done|].
  intros r0 Hr0. unfold shared.client_of. rewrite Hr0. simpl. by rewrite Ha.
Qed.

(** X17.  The [Repo] as a value agrees with the [Repo] on the shared
    client: what [NewRepo] returns when it is given the content of
    [http.DefaultClient] is the endpoint and the content of the client of
    the [Repo] that [NewRepo] returns on the heap. *)
Theorem NewRepo_agrees_with_shared
    (w : shared.World) (a : N) (addr : string) (os : list package_option) :
  shared.DefaultClient w = Some a ->
  exists r' w' c,
    shared.NewRepo addr (shared.option_of <$> os) w = shared.Returns (r', w', None)
    ∧ shared.client_of r' w' = Some c
    ∧ NewRepo (shared.clients w a) addr (option_of <$> os)
      = ({| endpoint := shared.endpoint r'; client := c |}, None).
Proof.
  intros Hdc. unfold shared.NewRepo. rewrite Hdc.
  destruct (shared_SetOption_package_options a os
              {| shared.endpoint := addr; shared.client := Some a |} w eq_refl)
    as (w' & Hrun & Hdc' & Ha & Hother).
  eexists _, w', _. split; [exact Hrun|]. split.
  - unfold shared.client_of. simpl. by rewrite Ha.
  - unfold NewRepo. by rewrite SetOption_package_options.
Qed.

(** X18.  On a [Repo] whose client is nil, as the zero [Repo] is, an option
    of the package panics, whatever options follow it; [SetOption] with no
    option returns no error and leaves all as it is. *)
Theorem package_option_on_nil_client
    (r : shared.Repo) (w : shared.World) (o : package_option)
    (options : list shared.RepoOption) :
  shared.client r = None ->
  shared.SetOption (shared.option_of o :: options) r w = shared.Panics
  ∧ shared.SetOption [] r w = shared.Returns (r, w, None).
Proof.
  intros Hr. split; [|done]. cbn [shared.SetOption].
  destruct o; simpl; unfold shared.DigestAuth, shared.Timeout; by rewrite Hr.
Qed.

(** ** The operations *)

Section MoreOperationFacts.
Variable QueryEscape : string -> string.
Variable http_NewRequest : string -> string -> string -> result Request.
Variable client_Do : Client -> Request -> result Response.
Variable Triple : Type.
Variable Turtle_DecodeAll : Reader -> result (list Triple).

Lemma post_inversion (r : Repo) (b accept : string) (resp : Response) :
  post http_NewRequest client_Do r b accept = Ok resp <->
  exists req0,
    http_NewRequest "POST" (endpoint r) b = Ok req0
    ∧ client_Do (client r) (with_headers b accept req0) = Ok resp.
Proof.
  unfold post, with_headers.
  destruct (http_NewRequest "POST" (endpoint r) b) as [req0|e].
  - split; [by exists req0|]. by intros (? & [= <-] & ?).
  - split; [done|]. by intros (? & ? & ?).
Qed.

Lemma with_headers_spec (b accept : string) (req0 : Request) :
  Method (with_headers b accept req0) = Method req0
  ∧ URL (with_headers b accept req0) = URL req0
  ∧ RequestBody (with_headers b accept req0) = RequestBody req0
  ∧ Header (with_headers b accept req0) !! "Content-Type"
    = Some "application/x-www-form-urlencoded"
  ∧ Header (with_headers b accept req0) !! "Content-Length"
    = Some (pretty (String.length b))
  ∧ Header (with_headers b accept req0) !! "Accept" = Some accept
  ∧ forall key, key ≠ "Content-Type" -> key ≠ "Content-Length" -> key ≠ "Accept" ->
      Header (with_headers b accept req0) !! key = Header req0 !! key.
Proof.
  unfold with_headers, Header_Set, ct, cl, ctvalue. simpl.
  repeat split.
  - by rewrite lookup_insert_ne, lookup_insert_ne, lookup_insert_eq.
  - by rewrite lookup_insert_ne, lookup_insert_eq.
  - by rewrite lookup_insert_eq.
  - intros key H1 H2 H3. by rewrite !lookup_insert_ne.
Qed.

(** X19.  [Query] returns a result only for a response of status 200
    whose body decodes without an error: then the result is the decoded
    one, and the response is the client's answer to a POST request to the
    endpoint that carries the form "query=..." and the headers
    Content-Type, Content-Length (the length of the form, in decimal) and
    Accept, none of which has overwritten another. *)
Theorem Query_result_inversion (r : Repo) (q : string) (results : Results) :
  Query QueryEscape http_NewRequest client_Do r q = Ok results ->
  exists req0 req resp,
    http_NewRequest "POST" (endpoint r) ("query=" +:+ QueryEscape q) = Ok req0
    ∧ client_Do (client r) req = Ok resp
    ∧ StatusCode resp = 200
    ∧ ParseJSON (Body resp) = (results, None)
    ∧ Method req = Method req0 ∧ URL req = URL req0
    ∧ RequestBody req = RequestBody req0
    ∧ Header req !! "Content-Type" = Some "application/x-www-form-urlencoded"
    ∧ Header req !! "Content-Length"
      = Some (pretty (String.length ("query=" +:+ QueryEscape q)))
    ∧ Header req !! "Accept" = Some "application/sparql-results+json".
Proof.
  unfold Query.
  destruct (post http_NewRequest client_Do r ("query=" +:+ QueryEscape q)
              "application/sparql-results+json") as [resp|e] eqn:Hpost; [|done].
  apply post_inversion in Hpost as (req0 & Hreq & Hdo).
  case_decide as Hcode; [done|].
  destruct (ParseJSON (Body resp)) as [res [err|]] eqn:Hparse; [done|].
  intros [= <-].
  destruct (with_headers_spec ("query=" +:+ QueryEscape q)
              "application/sparql-results+json" req0)
    as (Hm & Hu & Hb & Hct & Hcl & Hacc & _).
  exists req0, (with_headers ("query=" +:+ QueryEscape q)
                  "application/sparql-results+json" req0), resp.
  split; [done|]. split; [done|]. split.
  { unfold StatusOK in Hcode.
    destruct (decide (StatusCode resp = 200)); [done|by destruct Hcode]. }
  repeat (split; [done|]). done.
Qed.

(** X20.  [Update] judges by the status alone: it returns "OK" exactly
    when the exchange yields a response of status 200, whatever the body of
    that response holds, and it returns nothing else. *)
Theorem Update_OK_iff_200 (r : Repo) (q s : string) :
  Update QueryEscape http_NewRequest client_Do r q = Ok s
  <-> s = "OK"
      ∧ exists resp,
          post http_NewRequest client_Do r ("update=" +:+ QueryEscape q)
               "application/sparql-results+json" = Ok resp
          ∧ StatusCode resp = 200.
Proof.
  unfold Update.
  destruct (post http_NewRequest client_Do r ("update=" +:+ QueryEscape q)
              "application/sparql-results+json") as [resp|e].
  - case_decide as Hcode.
    + split; [done|]. intros (_ & resp' & [= <-] & Hc). by destruct Hcode.
    + split.
      * intros [= <-]. split; [done|]. exists resp. split; [done|].
        unfold StatusOK in Hcode.
        destruct (decide (StatusCode resp = 200)); [done|by destruct Hcode].
      * by intros (-> & _).
  - split; [done|]. by intros (_ & ? & ? & _).
Qed.

(** X21.  An error of building the request or of the exchange is returned
    as it is by [Query], [Update] and [Construct]: no label and no status
    is put around it. *)
Theorem operations_return_transport_errors (op : operation) (r : Repo) (q : string)
    (e : error) :
  (http_NewRequest "POST" (endpoint r) (form_of QueryEscape op q) = Err e
   ∨ exists req0,
       http_NewRequest "POST" (endpoint r) (form_of QueryEscape op q) = Ok req0
       ∧ client_Do (client r)
           (with_headers (form_of QueryEscape op q) (accept_of op) req0) = Err e) ->
  failure_of QueryEscape http_NewRequest client_Do Triple Turtle_DecodeAll op r q = Some e.
Proof.
  intros Hfail.
  assert (Hpost : post http_NewRequest client_Do r (form_of QueryEscape op q) (accept_of op)
                  = Err e).
  { unfold post. destruct Hfail as [-> | (req0 & -> & Hdo)]; [done|]. exact Hdo. }
  destruct op; simpl in *; unfold Query, Update, Construct; by rewrite Hpost.
Qed.

End MoreOperationFacts.

(** ** The form an operation posts *)

Lemma escape_facts (c : ascii) :
  form_byte (url.upperhex (byte_code c / 16)) = true
  ∧ form_byte (url.upperhex (byte_code c mod 16)) = true
  ∧ url.ishex (url.upperhex (byte_code c / 16)) = true
  ∧ url.ishex (url.upperhex (byte_code c mod 16)) = true
  ∧ byte_of (url.unhex (url.upperhex (byte_code c / 16)) * 16
             + url.unhex (url.upperhex (byte_code c mod 16))) = c.
Proof. destruct c as [[] [] [] [] [] [] [] []]; vm_compute; done. Qed.

Lemma unreserved_facts (c : ascii) :
  url.shouldEscape c = false ->
  is_byte "%" c = false ∧ is_byte "+" c = false ∧ is_byte " " c = false.
Proof. destruct c as [[] [] [] [] [] [] [] []]; vm_compute; done. Qed.

Lemma has_byte_app (c : ascii) (s t : string) :
  has_byte c (s +:+ t) = has_byte c s || has_byte c t.
Proof.
  induction s as [|d s IH]; [done|]. rewrite append_cons. simpl.
  by rewrite IH, orb_assoc.
Qed.

Lemma is_byte_form_byte (c d : ascii) :
  form_byte c = false -> form_byte d = true -> is_byte c d = false.
Proof.
  intros Hc Hd. unfold is_byte. destruct (Ascii.eqb d c) eqn:E; [|done].
  apply Ascii.eqb_eq in E. congruence.
Qed.

(** [QueryEscape] writes unreserved bytes, ['%'] and ['+'] only. *)
Lemma QueryEscape_bytes (c : ascii) (s : string) :
  form_byte c = false -> has_byte c (url.QueryEscape s) = false.
Proof.
  intros Hc. induction s as [|d s IH]; [done|].
  cbn [url.QueryEscape]. destruct (escape_facts d) as (H1 & H2 & _).
  destruct (is_byte " " d) eqn:Hsp; [|destruct (url.shouldEscape d) eqn:Hesc];
    cbn [has_byte]; rewrite ?IH, ?orb_false_r.
  - by apply is_byte_form_byte.
  - rewrite !(is_byte_form_byte c) by done. done.
  - apply is_byte_form_byte; [done|]. unfold form_byte. by rewrite Hesc.
Qed.

Lemma QueryEscape_round_trip (s : string) :
  url.QueryUnescape (url.QueryEscape s) = inr s.
Proof.
  induction s as [|c s IH]; [done|].
  cbn [url.QueryEscape]. destruct (escape_facts c) as (_ & _ & H1 & H2 & Hc).
  destruct (is_byte " " c) eqn:Hsp; [|destruct (url.shouldEscape c) eqn:Hesc].
  - apply is_byte_true in Hsp as ->. cbn [url.QueryUnescape]. by rewrite IH.
  - cbn [url.QueryUnescape]. change (is_byte "%" "%") with true. cbn iota.
    by rewrite H1, H2, IH, Hc.
  - destruct (unreserved_facts c Hesc) as (E1 & E2 & _).
    cbn [url.QueryUnescape]. by rewrite E1, IH, E2.
Qed.

Lemma Cut_no_sep (sep : ascii) (s : string) :
  has_byte sep s = false -> url.Cut sep s = (s, EmptyString).
Proof.
  induction s as [|c s IH]; [done|]. cbn [has_byte url.Cut].
  intros [Hc Hs]%orb_false_elim. rewrite Hc. by rewrite (IH Hs).
Qed.

Lemma Cut_app (sep : ascii) (s t : string) :
  has_byte sep s = false -> url.Cut sep (s +:+ String sep t) = (s, t).
Proof.
  induction s as [|c s IH].
  - intros _. change ("" +:+ String sep t) with (String sep t). cbn [url.Cut].
    unfold is_byte. by rewrite Ascii.eqb_refl.
  - cbn [has_byte]. intros [Hc Hs]%orb_false_elim.
    rewrite append_cons. cbn [url.Cut]. rewrite Hc. by rewrite (IH Hs).
Qed.

Lemma Contains_byte (c : ascii) (s : string) :
  Contains s (String c "") = has_byte c s.
Proof.
  induction s as [|d s IH]; [done|]. cbn [Contains json.strip_prefix has_byte].
  unfold is_byte. rewrite (Ascii.eqb_sym c d).
  destruct (Ascii.eqb d c); [done|]. by rewrite IH.
Qed.

Lemma append_String (s : string) (c : ascii) (t : string) :
  s +:+ String c t = (s +:+ String c "") +:+ t.
Proof. by rewrite append_assoc, append_cons. Qed.

Lemma parseQuery_done (fuel : nat) (m : gmap string (list string)) (err : option url.error) :
  url.parseQuery fuel m err "" = (m, err).
Proof. by destruct fuel. Qed.

(** One round of the loop of [parseQuery], on a field written by
    [Values.Encode]. *)
Lemma parseQuery_field_cut (key v : string) :
  has_byte "&" key = false -> has_byte ";" key = false -> has_byte "=" key = false ->
  key ≠ "" ->
  let field := key +:+ String "=" (url.QueryEscape v) in
  has_byte "&" field = false ∧ Contains field ";" = false ∧ field ≠ ""
  ∧ url.Cut "=" field = (key, url.QueryEscape v).
Proof.
  intros Hamp Hsemi Heq Hkey field.
  assert (Hfield : forall c, form_byte c = false -> is_byte c "=" = false ->
                             has_byte c key = false -> has_byte c field = false).
  { intros c Hc Hne Hk. unfold field. rewrite has_byte_app, Hk. cbn [has_byte].
    by rewrite (QueryEscape_bytes c v Hc), Hne. }
  split; [by apply Hfield|]. split; [rewrite Contains_byte; by apply Hfield|].
  split; [unfold field; destruct key; [done|by rewrite append_cons]|].
  by apply Cut_app.
Qed.

Lemma parseQuery_field (fuel : nat) (m : gmap string (list string))
    (err : option url.error) (key key' v rest : string) :
  has_byte "&" key = false -> has_byte ";" key = false -> has_byte "=" key = false ->
  key ≠ "" -> url.QueryUnescape key = inr key' ->
  url.parseQuery (S fuel) m err
    ((key +:+ String "=" (url.QueryEscape v)) +:+ String "&" rest)
  = url.parseQuery fuel (<[key' := m !!! key' ++ [v]]> m) err rest.
Proof.
  intros Hamp Hsemi Heq Hkey Hun.
  destruct (parseQuery_field_cut key v Hamp Hsemi Heq Hkey) as (H1 & H2 & H3 & H4).
  cbn [url.parseQuery].
  rewrite decide_False by (destruct key; [done|by rewrite !append_cons]).
  rewrite (Cut_app "&" _ rest H1), H2, decide_False by done.
  by rewrite H4, Hun, QueryEscape_round_trip.
Qed.

Lemma parseQuery_last_field (fuel : nat) (m : gmap string (list string))
    (err : option url.error) (key key' v : string) :
  has_byte "&" key = false -> has_byte ";" key = false -> has_byte "=" key = false ->
  key ≠ "" -> url.QueryUnescape key = inr key' ->
  url.parseQuery (S fuel) m err (key +:+ String "=" (url.QueryEscape v))
  = (<[key' := m !!! key' ++ [v]]> m, err).
Proof.
  intros Hamp Hsemi Heq Hkey Hun.
  destruct (parseQuery_field_cut key v Hamp Hsemi Heq Hkey) as (H1 & H2 & H3 & H4).
  cbn [url.parseQuery].
  rewrite decide_False by done.
  rewrite (Cut_no_sep "&" _ H1), H2, decide_False by done.
  by rewrite H4, Hun, QueryEscape_round_trip, parseQuery_done.
Qed.

(** X22.  The form an operation posts reads back as the fields the
    operation has set, whatever bytes the query text holds: parsed as a
    URL-encoded form, the body of [Query] is the one field "query" with the
    query text, the body of [Update] the one field "update", the body of
    [Construct] the fields "format", with "text/turtle", and "query". *)
Theorem posted_form_reads_back (op : operation) (q : string) :
  url.ParseQuery (form_of url.QueryEscape op q)
  = (match op with
     | OpQuery => {[ "query" := [q] ]}
     | OpUpdate => {[ "update" := [q] ]}
     | OpConstruct => {[ "format" := ["text/turtle"]; "query" := [q] ]}
     end, None).
Proof.
  unfold url.ParseQuery. destruct op; cbn [form_of].
  - change ("query=" +:+ url.QueryEscape q)
      with ("query" +:+ String "=" (url.QueryEscape q)).
    by rewrite (parseQuery_last_field _ _ _ "query" "query").
  - change ("update=" +:+ url.QueryEscape q)
      with ("update" +:+ String "=" (url.QueryEscape q)).
    by rewrite (parseQuery_last_field _ _ _ "update" "update").
  - change ("format=" +:+ url.QueryEscape "text/turtle" +:+ "&query=" +:+ url.QueryEscape q)
      with (("format" +:+ String "=" (url.QueryEscape "text/turtle"))
            +:+ String "&" ("query" +:+ String "=" (url.QueryEscape q))).
    rewrite (parseQuery_field _ _ _ "format" "format") by done.
    set (n := String.length _).
    assert (Hn : exists n', n = S n') by (unfold n; eexists; reflexivity).
    destruct Hn as [n' ->].
    rewrite (parseQuery_last_field _ _ _ "query" "query") by done.
    rewrite lookup_total_empty, lookup_total_insert_ne by done.
    rewrite lookup_total_empty. by f_equal.
Qed.

(** ** Streams that hold no result *)

Section BlankBody.
Variable QueryEscape : string -> string.
Variable http_NewRequest : string -> string -> string -> result Request.
Variable client_Do : Client -> Request -> result Response.

(** X23.  A stream that holds nothing, or white space only, is no result:
    [ParseJSON] returns the zero result with the error [io.EOF], or with
    the reader's own error when the stream ended on one; [Query] returns
    that error for a response of status 200 with such a body. *)
Theorem blank_stream_is_EOF (r : Repo) (q : string) (resp : Response) :
  json.nonSpace (data (Body resp)) = false ->
  ParseJSON (Body resp)
  = (Results_zero, Some (default EOF (read_err (Body resp))))
  ∧ (post http_NewRequest client_Do r ("query=" +:+ QueryEscape q)
       "application/sparql-results+json" = Ok resp ->
     StatusCode resp = 200 ->
     Query QueryEscape http_NewRequest client_Do r q
     = Err (default EOF (read_err (Body resp)))).
Proof.
  intros Hblank.
  assert (Hparse : ParseJSON (Body resp)
                   = (Results_zero, Some (default EOF (read_err (Body resp))))).
  { unfold ParseJSON, json.Decode, json.readValue.
    rewrite (readValue_loop_blank _ Hblank), Hblank.
    by destruct (read_err (Body resp)). }
  split; [done|]. intros Hpost Hcode. unfold Query. rewrite Hpost.
  rewrite decide_False by (intros Hne; by apply Hne). by rewrite Hparse.
Qed.

End BlankBody.

(** X24.  A stream cut off inside its top-level object or array is never
    taken for a result.  When [text] is a JSON object or array that
    [ParseJSON] reads to its last byte and the stream ends, without an
    error of its own, before the last byte of [text], [ParseJSON] returns
    the zero result with [io.ErrUnexpectedEOF] ([io.EOF] when the stream
    ended before the opening bracket). *)
Theorem truncated_stream_is_unexpected_EOF (r : Reader) (text tail : string)
    (c : ascii) (s : string) :
  json.readValue (NewReader text) = Ok (text, "") ->
  json.skip_space text = String c s -> c = "{"%char ∨ c = "["%char ->
  text = data r +:+ tail -> tail ≠ "" -> read_err r = None ->
  ParseJSON r
  = (Results_zero,
     Some (if json.nonSpace (data r) then ErrUnexpectedEOF else EOF)).
Proof.
  intros Hframed Hskip Hc Htext Htail Herr.
  pose proof (bracket_value_framed text c s Hskip Hc Hframed) as Hloop.
  rewrite Htext, readValue_loop_app in Hloop. rewrite Htext in Hskip.
  unfold ParseJSON, json.Decode, json.readValue. rewrite Herr.
  destruct (json.readValue_loop json.reset (data r)) as [v r0| |sf] eqn:Hp.
  - exfalso. injection Hloop as _ Hr.
    apply (f_equal String.length) in Hr. rewrite length_append in Hr.
    destruct tail; [done|]. simpl in Hr. lia.
  - done.
  - destruct (json.nonSpace (data r)) eqn:Hns.
    + destruct (nonSpace_skip_space (data r) tail Hns) as (d & s0 & Hd & Happ).
      rewrite Happ, Hd, append_cons in Hskip. injection Hskip as -> _.
      destruct (readValue_loop_reset_ended _ _ _ _ Hd Hc Hp) as [Hin _].
      destruct (scan_step_inside sf " " Hin) as [Hend _].
      destruct (json.scan_step sf " ") as [s1 op]. by destruct op.
    + rewrite (readValue_loop_blank _ Hns) in Hp. injection Hp as <-. done.
Qed.

(** ** The errors of decoding, and a variable declared more than once *)

Lemma first_error_type (e1 e2 : option error) :
  type_error_or_none e1 -> type_error_or_none e2 ->
  type_error_or_none (json.first_error e1 e2).
Proof. intros [->|(v & ->)] H2; [done|]. right. by exists v. Qed.

Lemma store_string_type (v : json.value) (old : string) :
  type_error_or_none (json.store_string v old).2.
Proof. destruct v; simpl; try (by left); right; eauto. Qed.

Lemma store_bool_type (v : json.value) (old : bool) :
  type_error_or_none (json.store_bool v old).2.
Proof. destruct v; simpl; try (by left); right; eauto. Qed.

Lemma store_elems_type {A} (store : json.value -> A -> A * option error) (zero : A)
    (elems : list json.value) :
  (forall v old, type_error_or_none (store v old).2) ->
  forall old, type_error_or_none (json.store_elems store zero elems old).2.
Proof.
  intros Hstore. induction elems as [|e elems IH]; intros old; [by left|].
  cbn [json.store_elems].
  pose proof (Hstore e (hd zero old)) as H1. pose proof (IH (tl old)) as H2.
  destruct (store e (hd zero old)) as [x err1].
  destruct (json.store_elems store zero elems (tl old)) as [xs err2].
  simpl in *. by apply first_error_type.
Qed.

Lemma store_slice_type {A} (store : json.value -> A -> A * option error) (zero : A)
    (v : json.value) (old : list A) :
  (forall v old, type_error_or_none (store v old).2) ->
  type_error_or_none (json.store_slice store zero v old).2.
Proof.
  intros Hstore. destruct v; simpl; try (by left); try (right; eauto; fail).
  by apply store_elems_type.
Qed.

Lemma store_map_type {A} (store : json.value -> A -> A * option error) (zero : A)
    (v : json.value) (old : gmap string A) :
  (forall v old, type_error_or_none (store v old).2) ->
  type_error_or_none (json.store_map store zero v old).2.
Proof.
  intros Hstore. destruct v; simpl; try (by left); try (right; eauto; fail).
  assert (Hgen : forall (acc : gmap string A * option error),
    type_error_or_none acc.2 ->
    type_error_or_none
      (foldl (fun acc kv =>
                let '(x, err1) := store kv.2 zero in
                (<[json.unquote kv.1 := x]> acc.1, json.first_error acc.2 err1))
             acc members).2).
  { induction members as [|kv members IH]; intros acc Hacc; [done|].
    cbn [foldl]. apply IH. pose proof (Hstore kv.2 zero) as H1.
    destruct (store kv.2 zero) as [x err1]. simpl in *. by apply first_error_type. }
  apply Hgen. by left.
Qed.

Lemma store_struct_type {T} (store_member : string -> json.value -> T -> T * option error)
    (v : json.value) (old : T) :
  (forall key v old, type_error_or_none (store_member key v old).2) ->
  type_error_or_none (json.store_struct store_member v old).2.
Proof.
  intros Hstore. destruct v; simpl; try (by left); try (right; eauto; fail).
  assert (Hgen : forall (acc : T * option error),
    type_error_or_none acc.2 ->
    type_error_or_none
      (foldl (fun acc kv =>
                let '(x, err1) := store_member (json.unquote kv.1) kv.2 acc.1 in
                (x, json.first_error acc.2 err1))
             acc members).2).
  { induction members as [|kv members IH]; intros acc Hacc; [done|].
    cbn [foldl]. apply IH. pose proof (Hstore (json.unquote kv.1) kv.2 acc.1) as H1.
    destruct (store_member (json.unquote kv.1) kv.2 acc.1) as [x err1].
    simpl in *. by apply first_error_type. }
  apply Hgen. by left.
Qed.

Lemma store_Binding_type (v : json.value) (old : Binding) :
  type_error_or_none (json.store_Binding v old).2.
Proof.
  apply store_struct_type. intros key v' b.
  repeat (case_match; [
    match goal with
    | |- context [json.store_string ?v ?o] =>
        pose proof (store_string_type v o) as Hf;
        destruct (json.store_string v o); exact Hf
    end|]).
  by left.
Qed.

Lemma store_header_type (v : json.value) (old : header) :
  type_error_or_none (json.store_header v old).2.
Proof.
  apply store_struct_type. intros key v' h.
  repeat (case_match; [
    match goal with
    | |- context [json.store_slice json.store_string ?z ?v ?o] =>
        pose proof (store_slice_type json.store_string z v o store_string_type) as Hf;
        destruct (json.store_slice json.store_string z v o); exact Hf
    end|]).
  by left.
Qed.

Lemma store_results_type (v : json.value) (old : results) :
  type_error_or_none (json.store_results v old).2.
Proof.
  apply store_struct_type. intros key v' r.
  case_match.
  { pose proof (store_bool_type v' (Distinct r)) as Hf.
    destruct (json.store_bool v' (Distinct r)); exact Hf. }
  case_match.
  { pose proof (store_bool_type v' (Ordered r)) as Hf.
    destruct (json.store_bool v' (Ordered r)); exact Hf. }
  case_match; [|by left].
  pose proof (store_slice_type (json.store_map json.store_Binding Binding_zero) ∅ v'
                (results_Bindings r)
                (fun v old => store_map_type json.store_Binding Binding_zero v old
                                store_Binding_type)) as Hf.
  destruct (json.store_slice _ _ v' (results_Bindings r)); exact Hf.
Qed.

Lemma store_Results_type (v : json.value) (old : Results) :
  type_error_or_none (json.store_Results v old).2.
Proof.
  apply store_struct_type. intros key v' r.
  case_match.
  { pose proof (store_header_type v' (Head r)) as Hf.
    destruct (json.store_header v' (Head r)); exact Hf. }
  case_match; [|by left].
  pose proof (store_results_type v' (Results_results r)) as Hf.
  destruct (json.store_results v' (Results_results r)); exact Hf.
Qed.

(** X25.  The errors of [ParseJSON].  An error it returns is the syntax
    error of a byte no JSON text goes on with, [io.EOF] (a stream of
    nothing but white space), [io.ErrUnexpectedEOF] (a stream that ends
    inside its first value), the reader's own error, or the mismatch of a
    JSON value and the Go type it is stored in.  In the first four cases the
    result is the zero result; in the last the stream begins with a
    well-formed JSON text. *)
Theorem ParseJSON_errors (r : Reader) (e : error) :
  (ParseJSON r).2 = Some e ->
  ((e = SyntaxError ∨ e = EOF ∨ e = ErrUnexpectedEOF ∨ read_err r = Some e)
   ∧ (ParseJSON r).1 = Results_zero)
  ∨ ((exists v, e = json.type_error v)
     ∧ exists text tail, data r = text +:+ tail ∧ json.Valid text = true).
Proof.
  unfold ParseJSON, json.Decode.
  destruct (json.readValue r) as [[text tail]|e'] eqn:Hrv; simpl.
  - destruct (readValue_valid_prefix r text tail Hrv) as [Hd Hv].
    destruct (unmarshal_accepted text Results_zero Hv) as (v & _ & ->).
    intros He. right. split; [|by exists text, tail].
    destruct (store_Results_type v Results_zero) as [Hn|(v' & Hv')]; [congruence|].
    exists v'. congruence.
  - intros [= <-]. left. split; [|done].
    destruct (readValue_errors r e' Hrv) as [?|[?|[?|?]]]; auto.
Qed.

Section DeclaredTwice.
Context `{RdfPackage}.

(** X26.  [Bindings] visits the rows once for every time the head declares
    a variable: a variable declared [n] times gets the terms of its
    bindings [n] times over, a variable not declared gets none. *)
Theorem Bindings_repeats_declared_variable (r : Results) (v : string) :
  Bindings r !!! v
  = mjoin (replicate (length (filter (fun x => x = v) (Vars (Head r))))
                     (terms_of v (rows r)))
  ∧ (v ∉ Vars (Head r) -> Bindings r !! v = None).
Proof.
  split; [apply Bindings_total|].
  intros Hv. apply not_elem_of_dom. intros Hd.
  apply Bindings_dom in Hd. by apply elem_of_list_to_set in Hd.
Qed.

End DeclaredTwice.

(** ** The further properties on examples *)

Lemma ListOf_group_GetValue_witness :
  ListOf (rows example_result) "x" !! "hello" = Some [ {[ "x" := example_plain ]} ]
  ∧ GetValue "x" [ {[ "x" := example_plain ]} ] = "hello".
Proof.
  assert (H : ListOf (rows example_result) "x" !! "hello"
              = Some [ {[ "x" := example_plain ]} ]) by reflexivity.
  split; [exact H|].
  exact (proj2 (proj2 (ListOf_group_GetValue (rows example_result) "x" "hello" _ H))).
Defined.

Lemma Bindings_lookup_witness :
  well_formed example_result
  ∧ @Bindings knakk_rdf example_result !! "y"
    = if decide ("y" ∈ Vars (Head example_result)
                 ∧ @terms_of knakk_rdf "y" (rows example_result) ≠ [])
      then Some (@terms_of knakk_rdf "y" (rows example_result)) else None.
Proof.
  split; [apply example_result_well_formed|].
  apply (@Bindings_lookup knakk_rdf example_result "y" example_result_well_formed).
Defined.

Lemma Bindings_column_of_Solutions_witness :
  well_formed example_result
  ∧ range_schedule example_result (map_to_list <$> rows example_result)
  ∧ @Bindings knakk_rdf example_result !!! "x"
    = omap (fun solution : gmap string (@Term knakk_rdf) => solution !! "x")
           (@Solutions_in knakk_rdf (map_to_list <$> rows example_result)).
Proof.
  split; [apply example_result_well_formed|].
  split; [apply canonical_schedule|].
  apply (proj1 (@Bindings_column_of_Solutions knakk_rdf example_result
                  (map_to_list <$> rows example_result) "x"
                  example_result_well_formed (canonical_schedule example_result))).
  apply (bool_decide_unpack ("x" ∈ ["x"; "y"])). vm_compute. exact I.
Defined.

Lemma termFromJSON_term_of_kind_witness :
  @termFromJSON knakk_rdf example_uri
  = Ok (TermIRI {| rdf.iri_str := "http://example.org/x" |})
  ∧ Type_ example_uri = "uri".
Proof.
  assert (H : @termFromJSON knakk_rdf example_uri
              = Ok (TermIRI {| rdf.iri_str := "http://example.org/x" |}))
    by reflexivity.
  split; [exact H|].
  destruct (@termFromJSON_term_of_kind knakk_rdf example_uri _ H)
    as [[Hk _]|[[Hk _]|[[Hk _]|[Hk _]]]]; reflexivity.
Defined.

Lemma NewRepo_configures_DefaultClient_witness :
  shared.DefaultClient example_world = Some 0%N
  ∧ exists w',
      shared.NewRepo "http://localhost:3030/ds/sparql"
        [shared.Timeout 5; shared.DigestAuth "user" "secret"] example_world
      = shared.Returns ({| shared.endpoint := "http://localhost:3030/ds/sparql";
                           shared.client := Some 0%N |}, w', None)
      ∧ shared.clients w' 0%N
        = {| Transport := DigestTransport "user" "secret"; client_Timeout := 5 |}.
Proof.
  split; [reflexivity|].
  destruct (NewRepo_configures_DefaultClient example_world 0%N
              "http://localhost:3030/ds/sparql"
              [UseTimeout 5; UseDigestAuth "user" "secret"] eq_refl)
    as (w' & Hrun & _ & Hc & _).
  exists w'. split; [exact Hrun|exact Hc].
Defined.

Lemma NewRepo_agrees_with_shared_witness :
  shared.DefaultClient example_world = Some 0%N
  ∧ exists r' w' c,
      shared.NewRepo "http://localhost:3030/ds/sparql" [shared.Timeout 5] example_world
      = shared.Returns (r', w', None)
      ∧ shared.client_of r' w' = Some c
      ∧ NewRepo (shared.clients example_world 0%N) "http://localhost:3030/ds/sparql"
          [Timeout 5]
        = ({| endpoint := shared.endpoint r'; client := c |}, None).
Proof.
  split; [reflexivity|].
  exact (NewRepo_agrees_with_shared example_world 0%N "http://localhost:3030/ds/sparql"
           [UseTimeout 5] eq_refl).
Defined.

Lemma package_option_on_nil_client_witness :
  shared.client shared.Repo_zero = None
  ∧ shared.SetOption [shared.Timeout 5] shared.Repo_zero example_world = shared.Panics.
Proof.
  split; [reflexivity|].
  exact (proj1 (package_option_on_nil_client shared.Repo_zero example_world
                  (UseTimeout 5) [] eq_refl)).
Defined.

Lemma Query_result_inversion_witness :
  stub_Query (response_200 "{}") = Ok Results_zero
  ∧ exists req resp,
      stub_Do (response_200 "{}") (client stub_Repo) req = Ok resp
      ∧ StatusCode resp = 200
      ∧ Header req !! "Content-Length" = Some "12".
Proof.
  assert (H : stub_Query (response_200 "{}") = Ok Results_zero) by reflexivity.
  split; [exact H|].
  destruct (Query_result_inversion (fun s => s) stub_NewRequest
              (stub_Do (response_200 "{}")) stub_Repo "ASK {}" Results_zero H)
    as (req0 & req & resp & _ & Hdo & Hcode & _ & _ & _ & _ & _ & Hcl & _).
  exists req, resp. split; [exact Hdo|]. split; [exact Hcode|exact Hcl].
Defined.

Lemma operations_return_transport_errors_witness :
  failure_of (fun s => s) stub_NewRequest refusing_Do unit stub_DecodeAll
    OpUpdate stub_Repo "CLEAR ALL"
  = Some (errorString "connection refused").
Proof.
  apply operations_return_transport_errors. right.
  eexists. split; reflexivity.
Defined.

Lemma blank_stream_is_EOF_witness :
  json.nonSpace (data (Body (response_200 "  "))) = false
  ∧ ParseJSON (Body (response_200 "  ")) = (Results_zero, Some EOF)
  ∧ stub_Query (response_200 "  ") = Err EOF.
Proof.
  split; [reflexivity|].
  destruct (blank_stream_is_EOF (fun s => s) stub_NewRequest
              (stub_Do (response_200 "  ")) stub_Repo "ASK {}" (response_200 "  ")
              eq_refl) as [Hparse Hquery].
  split; [exact Hparse|]. apply Hquery; reflexivity.
Defined.

Lemma truncated_stream_is_unexpected_EOF_witness :
  json.readValue (NewReader "{}") = Ok ("{}"%string, ""%string)
  ∧ ParseJSON (NewReader "{") = (Results_zero, Some ErrUnexpectedEOF).
Proof.
  split; [reflexivity|].
  apply (truncated_stream_is_unexpected_EOF (NewReader "{") "{}" "}" "{" "}").
  - reflexivity.
  - reflexivity.
  - by left.
  - reflexivity.
  - discriminate.
  - reflexivity.
Defined.

Lemma ParseJSON_errors_witness :
  (ParseJSON (NewReader "}")).2 = Some SyntaxError
  ∧ (ParseJSON (NewReader "}")).1 = Results_zero.
Proof.
  assert (H : (ParseJSON (NewReader "}")).2 = Some SyntaxError) by reflexivity.
  split; [exact H|].
  destruct (ParseJSON_errors (NewReader "}") SyntaxError H) as [[_ Hz]|[(v & Hv) _]].
  - exact Hz.
  - destruct v; discriminate Hv.
Defined.
